(** * vcp-intellicore-sdk: a shallow embedding of the runtime core

    The development follows the TypeScript sources:
    - [JsString]   : JavaScript strings as sequences of UTF-16 code units,
                     with the string and RegExp primitives the code calls;
    - [Parser]     : protocol/VCPProtocolParser.ts;
    - [Engine]     : variable/VariableEngine.ts;
    - [Runtime]    : plugin/PluginRuntime.ts;
    - [Channel]    : communication/channels/DistributedServerChannelSDK.ts;
    - [Fetcher]    : communication/FileFetcher.ts.

    Definitions come first, the theorems about them follow. *)

From Stdlib Require Import ZArith NArith List Ascii Bool Lia.
From Stdlib Require Import Numbers.DecimalString.
From stdpp Require Import base option list strings gmap fin_maps.

Set Default Proof Using "Type".
#[local] Set Warnings "-register-all".
Local Open Scope nat_scope.

(* ===================================================================== *)
(** ** JavaScript strings                                                 *)
(* ===================================================================== *)

Module JsString.

(** A JavaScript string is a sequence of 16-bit code units; [length],
    [indexOf], [substring] and RegExp matching without the [u] flag all
    work on code units. *)
Abbreviation jsstring := (list N).

(** ASCII literals of the source, as code units. *)
Definition js (s : string) : jsstring :=
  map N_of_ascii (String.list_ascii_of_string s).

(** [String(n)] for a non-negative integer. *)
Definition numToString (n : N) : jsstring :=
  js (NilEmpty.string_of_uint (N.to_uint n)).

Definition eqs (a b : jsstring) : bool := bool_decide (a = b).

(** [s.startsWith(p)] *)
Fixpoint startsWith (p s : jsstring) : bool :=
  match p, s with
  | [], _ => true
  | _ :: _, [] => false
  | a :: p', b :: s' => (a =? b)%N && startsWith p' s'
  end.

(** Leftmost occurrence of [pat] in [s], where [s] starts at index [i]
    of the whole string. *)
Fixpoint findFrom (pat s : jsstring) (i : nat) : option nat :=
  if startsWith pat s then Some i
  else match s with
       | [] => None
       | _ :: s' => findFrom pat s' (S i)
       end.

(** [s.indexOf(pat, from)]; [None] stands for [-1].  The start position
    is clamped to the length of [s]. *)
Definition indexOf (pat s : jsstring) (from : nat) : option nat :=
  let start := Nat.min from (length s) in
  findFrom pat (drop start s) start.

(** [s.includes(pat)] *)
Definition includes (pat s : jsstring) : bool :=
  match indexOf pat s 0 with Some _ => true | None => false end.

(** [s.substring(a, b)]: both indices are clamped and swapped when
    [a > b]. *)
Definition substring (s : jsstring) (a b : nat) : jsstring :=
  let a' := Nat.min a (length s) in
  let b' := Nat.min b (length s) in
  take (Nat.max a' b' - Nat.min a' b') (drop (Nat.min a' b') s).

(** [s.substring(a)] *)
Definition substringFrom (s : jsstring) (a : nat) : jsstring :=
  drop (Nat.min a (length s)) s.

(** The class [\s] of RegExp, which is also what [trim] strips:
    WhiteSpace and LineTerminator of ECMAScript. *)
Definition isSpace (c : N) : bool :=
  ((9 <=? c) && (c <=? 13) || (c =? 32) || (c =? 0xA0) || (c =? 0x1680)
   || (0x2000 <=? c) && (c <=? 0x200A) || (c =? 0x2028) || (c =? 0x2029)
   || (c =? 0x202F) || (c =? 0x205F) || (c =? 0x3000) || (c =? 0xFEFF))%N.

(** The class [\w]: [A-Za-z0-9_]. *)
Definition isWord (c : N) : bool :=
  ((65 <=? c) && (c <=? 90) || (97 <=? c) && (c <=? 122)
   || (48 <=? c) && (c <=? 57) || (c =? 95))%N.

Fixpoint dropWhile (p : N -> bool) (s : jsstring) : jsstring :=
  match s with
  | c :: s' => if p c then dropWhile p s' else s
  | [] => []
  end.

(** [s.trim()] *)
Definition trim (s : jsstring) : jsstring :=
  rev (dropWhile isSpace (rev (dropWhile isSpace s))).

(** [s.split(sep)] for a separator of one code unit; the pieces come
    in order and an empty string gives one empty piece. *)
Fixpoint splitOn (sep : N) (s : jsstring) : list jsstring :=
  match s with
  | [] => [[]]
  | c :: s' =>
      if (c =? sep)%N then [] :: splitOn sep s'
      else match splitOn sep s' with
           | piece :: rest => (c :: piece) :: rest
           | [] => [[c]]
           end
  end.

(** [parts.join(sep)] *)
Fixpoint join (sep : jsstring) (parts : list jsstring) : jsstring :=
  match parts with
  | [] => []
  | [p] => p
  | p :: rest => p ++ sep ++ join sep rest
  end.

(** *** Regular expressions

    The fragment of RegExp syntax the sources use, matched the way the
    ECMAScript backtracking matcher does: greedy quantifiers try the
    longest repetition first, lazy ones the shortest, and a failure of
    the continuation backtracks into the last choice. *)
Inductive regex : Type :=
| RLit (s : jsstring)            (* escaped literal text *)
| RPlus (p : N -> bool)          (* [class]+ *)
| RStar (p : N -> bool)          (* [class]* *)
| RStarLazy (p : N -> bool)      (* [class]*? *)
| ROpt (r : regex)               (* (?:r)? *)
| RGroup (r : regex)             (* (r), capturing *)
| RSeq (r1 r2 : regex).

Section Matcher.
Context {A : Type}.

(** Greedy repetition of a class, then the continuation [k]. *)
Fixpoint greedy (p : N -> bool) (k : jsstring -> option A)
    (s : jsstring) : option A :=
  match s with
  | c :: s' =>
      if p c then
        match greedy p k s' with
        | Some a => Some a
        | None => k s
        end
      else k s
  | [] => k []
  end.

(** Lazy repetition of a class, then the continuation [k]. *)
Fixpoint lazy (p : N -> bool) (k : jsstring -> option A)
    (s : jsstring) : option A :=
  match k s with
  | Some a => Some a
  | None =>
      match s with
      | c :: s' => if p c then lazy p k s' else None
      | [] => None
      end
  end.

(** [rmatch r s caps k]: match [r] at the start of [s]; [caps] are the
    captures so far, [k] receives the rest of the input. *)
Fixpoint rmatch (r : regex) (s : jsstring) (caps : list jsstring)
    (k : jsstring -> list jsstring -> option A) : option A :=
  match r with
  | RLit l => if startsWith l s then k (drop (length l) s) caps else None
  | RPlus p =>
      match s with
      | c :: s' => if p c then greedy p (fun t => k t caps) s' else None
      | [] => None
      end
  | RStar p => greedy p (fun t => k t caps) s
  | RStarLazy p => lazy p (fun t => k t caps) s
  | ROpt r' =>
      match rmatch r' s caps k with
      | Some a => Some a
      | None => k s caps
      end
  | RGroup r' =>
      rmatch r' s caps
        (fun t caps' => k t (caps' ++ [take (length s - length t) s]))
  | RSeq r1 r2 =>
      rmatch r1 s caps (fun t caps' => rmatch r2 t caps' k)
  end.
End Matcher.

(** One successful [exec]: the whole match, the captures [m[1]], ... and
    the input that follows the match. *)
Record rmatched := { m0 : jsstring; groups : list jsstring; after : jsstring }.

Definition matchHere (r : regex) (s : jsstring) : option rmatched :=
  rmatch r s []
    (fun t caps => Some {| m0 := take (length s - length t) s;
                           groups := caps; after := t |}).

(** [re.exec(s)] scans for the leftmost position at which [r] matches;
    [skipped] is the text before the match. *)
Fixpoint exec (r : regex) (s : jsstring) : option (jsstring * rmatched) :=
  match matchHere r s with
  | Some m => Some ([], m)
  | None =>
      match s with
      | [] => None
      | c :: s' =>
          match exec r s' with
          | Some (skipped, m) => Some (c :: skipped, m)
          | None => None
          end
      end
  end.

(** [while ((match = re.exec(s)) !== null) ...] with the [g] flag: the
    successive matches, each search starting where the previous match
    ended.  The patterns this code base builds never match the empty
    string, so [lastIndex] advances at every round and [fuel], the length
    of the input plus one, is never used up.  (A configured placeholder
    pattern that matches the empty string would keep the loop of the
    source at the same index for ever; [fuel] ends it here.) *)
Fixpoint execAllFrom (fuel : nat) (r : regex) (s : jsstring) : list rmatched :=
  match fuel with
  | 0 => []
  | S fuel' =>
      match exec r s with
      | Some (_, m) => m :: execAllFrom fuel' r (after m)
      | None => []
      end
  end.

Definition execAll (r : regex) (s : jsstring) : list rmatched :=
  execAllFrom (S (length s)) r s.

End JsString.
Import JsString.

(* ===================================================================== *)
(** ** protocol/VCPProtocolParser.ts                                      *)
(* ===================================================================== *)

Module Parser.

Record VCPProtocolConfig := {
  toolRequestStartMarker : jsstring;
  toolRequestEndMarker : jsstring;
  paramStartMarker : jsstring;
  paramEndMarker : jsstring;
  debug : bool
}.

(** U+300C U+59CB U+300D and U+300C U+672B U+300D, the two sigils that
    bracket a parameter value. *)
Definition SIGIL_START : jsstring := [0x300C; 0x59CB; 0x300D]%N.
Definition SIGIL_END : jsstring := [0x300C; 0x672B; 0x300D]%N.

Definition DEFAULT_CONFIG : VCPProtocolConfig := {|
  toolRequestStartMarker := js "<<<[TOOL_REQUEST]>>>";
  toolRequestEndMarker := js "<<<[END_TOOL_REQUEST]>>>";
  paramStartMarker := SIGIL_START;
  paramEndMarker := SIGIL_END;
  debug := false
|}.

Record VCPToolRequest := {
  name : jsstring;
  args : gmap jsstring jsstring;
  archery : bool;
  rawText : jsstring
}.

(** The parameter pattern built in [parseRequestBlock]:
    [([\w_]+)\s*:\s*<start>([\s\S]*?)<end>\s*(?:,)?] where the two
    markers are escaped, hence literal. *)
Definition paramRegex (cfg : VCPProtocolConfig) : regex :=
  RSeq (RGroup (RPlus isWord))
 (RSeq (RStar isSpace)
 (RSeq (RLit (js ":"))
 (RSeq (RStar isSpace)
 (RSeq (RLit (paramStartMarker cfg))
 (RSeq (RGroup (RStarLazy (fun _ => true)))
 (RSeq (RLit (paramEndMarker cfg))
 (RSeq (RStar isSpace)
       (ROpt (RLit (js ",")))))))))).

(** The fields of a block, in order: [match[1]] and the trimmed
    [match[2]] of every match of the parameter pattern. *)
Definition paramFields (cfg : VCPProtocolConfig) (blockContent : jsstring)
    : list (jsstring * jsstring) :=
  omap (fun m => match groups m with
                 | [k; v] => Some (k, trim v)
                 | _ => None
                 end)
       (execAll (paramRegex cfg) blockContent).

(** The three locals of [parseRequestBlock]. *)
Record blockAcc := {
  parsedArgs : gmap jsstring jsstring;
  toolName : option jsstring;
  isArchery : bool
}.

Definition blockAcc0 : blockAcc :=
  {| parsedArgs := ∅; toolName := None; isArchery := false |}.

(** [parsedArgs[key] = value] on a plain object: an assignment of a
    string to [__proto__] goes to the inherited setter, which ignores
    it, so no own property is created for that key. *)
Definition setArg (key value : jsstring) (o : gmap jsstring jsstring)
    : gmap jsstring jsstring :=
  if eqs key (js "__proto__") then o else <[key := value]> o.

(** The body of the [while] loop for one match. *)
Definition blockStep (acc : blockAcc) (kv : jsstring * jsstring) : blockAcc :=
  let '(key, value) := kv in
  if eqs key (js "tool_name") then
    {| parsedArgs := parsedArgs acc; toolName := Some value;
       isArchery := isArchery acc |}
  else if eqs key (js "archery") then
    {| parsedArgs := parsedArgs acc; toolName := toolName acc;
       isArchery := eqs value (js "true") || eqs value (js "no_reply") |}
  else
    {| parsedArgs := setArg key value (parsedArgs acc);
       toolName := toolName acc; isArchery := isArchery acc |}.

Definition finishBlock (blockContent : jsstring) (acc : blockAcc)
    : option VCPToolRequest :=
  match toolName acc with
  | None | Some [] => None            (* [if (!toolName) return null] *)
  | Some n =>
      Some {| name := n; args := parsedArgs acc;
              archery := isArchery acc; rawText := blockContent |}
  end.

Definition parseRequestBlock (cfg : VCPProtocolConfig)
    (blockContent : jsstring) : option VCPToolRequest :=
  finishBlock blockContent
    (fold_left blockStep (paramFields cfg blockContent) blockAcc0).

(** The [while (searchOffset < content.length)] loop.  [None] is
    returned when [fuel] rounds did not end the loop. *)
Fixpoint parseLoop (fuel : nat) (cfg : VCPProtocolConfig)
    (content : jsstring) (searchOffset : nat)
    (toolRequests : list VCPToolRequest) : option (list VCPToolRequest) :=
  match fuel with
  | 0 => None
  | S fuel' =>
      if searchOffset <? length content then
        match indexOf (toolRequestStartMarker cfg) content searchOffset with
        | None => Some toolRequests
        | Some startIndex =>
            let bodyStart := startIndex + length (toolRequestStartMarker cfg) in
            match indexOf (toolRequestEndMarker cfg) content bodyStart with
            | None => parseLoop fuel' cfg content bodyStart toolRequests
            | Some endIndex =>
                let requestBlockContent :=
                  trim (substring content bodyStart endIndex) in
                let toolRequests' :=
                  match parseRequestBlock cfg requestBlockContent with
                  | Some toolRequest => toolRequests ++ [toolRequest]
                  | None => toolRequests
                  end in
                parseLoop fuel' cfg content
                  (endIndex + length (toolRequestEndMarker cfg)) toolRequests'
            end
        end
      else Some toolRequests
  end.

(** With a non-empty start marker every round moves [searchOffset]
    forward, so [length content + 1] rounds are enough. *)
Definition parseToolRequests (cfg : VCPProtocolConfig) (content : jsstring)
    : option (list VCPToolRequest) :=
  parseLoop (S (length content)) cfg content 0 [].

Definition hasToolRequests (cfg : VCPProtocolConfig) (content : jsstring) : bool :=
  includes (toolRequestStartMarker cfg) content.

End Parser.

(* ===================================================================== *)
(** ** Values and errors (types/index.ts)                                 *)
(* ===================================================================== *)

Module Js.

Inductive VCPErrorCode :=
| PROTOCOL_PARSE_ERROR | INVALID_TOOL_REQUEST | INVALID_PARAMETER_FORMAT
| TOOL_NOT_FOUND | TOOL_EXECUTION_FAILED | TOOL_TIMEOUT | INVALID_TOOL_ARGS
| VARIABLE_RESOLVE_ERROR | CIRCULAR_DEPENDENCY | MAX_RECURSION_DEPTH
| PROVIDER_NOT_FOUND
| DISTRIBUTED_CONNECTION_ERROR | DISTRIBUTED_TIMEOUT | DISTRIBUTED_AUTH_FAILED
| PLUGIN_LOAD_ERROR | PLUGIN_INIT_ERROR | PLUGIN_NOT_FOUND
| INVALID_PLUGIN_MANIFEST
| WEBSOCKET_CONNECTION_ERROR | WEBSOCKET_AUTH_FAILED | WEBSOCKET_MESSAGE_ERROR
| INVALID_CONFIG | MISSING_REQUIRED_CONFIG.

(** The classes of thrown objects the code builds or tests with
    [instanceof]. *)
Inductive ErrorClass :=
| PlainError                 (* new Error(message) *)
| VCPErrorClass              (* new VCPError(code, message, details) *)
| CircularDependencyErrorClass.

(** Values that travel in frames, results and error details.  An error
    object is a value too: it is what [reject] and [throw] carry. *)
Inductive JsVal :=
| JUndefined
| JNull
| JBool (b : bool)
| JNum (n : Z)
| JStr (s : jsstring)
| JArray (items : list JsVal)
| JObject (fields : list (jsstring * JsVal))
| JOpaque (what : jsstring)   (* an object the model does not look into *)
| JError (cls : ErrorClass) (code : option VCPErrorCode)
         (message : jsstring) (details : list (jsstring * JsVal)).

Definition newError (message : jsstring) : JsVal :=
  JError PlainError None message [].

Definition newVCPError (code : VCPErrorCode) (message : jsstring)
    (details : list (jsstring * JsVal)) : JsVal :=
  JError VCPErrorClass (Some code) message details.

(** [class CircularDependencyError extends VCPError]: the constructor
    passes [CIRCULAR_DEPENDENCY] to [super]. *)
Definition newCircularDependencyError (message : jsstring)
    (details : list (jsstring * JsVal)) : JsVal :=
  JError CircularDependencyErrorClass (Some CIRCULAR_DEPENDENCY) message details.

(** [e instanceof CircularDependencyError] *)
Definition isCircularDependencyError (e : JsVal) : bool :=
  match e with
  | JError CircularDependencyErrorClass _ _ _ => true
  | _ => false
  end.

(** ToBoolean *)
Definition truthy (v : JsVal) : bool :=
  match v with
  | JUndefined | JNull => false
  | JBool b => b
  | JNum n => negb (n =? 0)%Z
  | JStr s => match s with [] => false | _ => true end
  | _ => true
  end.

Fixpoint assoc {V} (k : jsstring) (l : list (jsstring * V)) : option V :=
  match l with
  | [] => None
  | (k', v) :: l' => if eqs k k' then Some v else assoc k l'
  end.

(** [v.k] for a property [k] that only plain objects of the model carry:
    primitives, arrays and errors give [undefined]. *)
Definition getField (k : jsstring) (v : JsVal) : JsVal :=
  match v with
  | JObject fields => default JUndefined (assoc k fields)
  | _ => JUndefined
  end.

End Js.
Import Js.

(* ===================================================================== *)
(** ** variable/VariableEngine.ts                                         *)
(* ===================================================================== *)

Module Engine.

(** What [await provider.resolve(key, context)] does: it yields [null],
    yields a string, or throws. *)
Inductive ProviderAnswer :=
| Null
| Value (s : jsstring)
| Throws (e : JsVal).

Record IVariableProvider := {
  name : jsstring;
  resolve : jsstring -> ProviderAnswer
}.

Record VariableEngineOptions := {
  enableRecursion : bool;
  maxRecursionDepth : nat;
  detectCircular : bool;
  placeholderPattern : regex
}.

(** [/\{\{([a-zA-Z0-9_:]+)\}\}/g] *)
Definition isKeyChar (c : N) : bool :=
  ((97 <=? c) && (c <=? 122) || (65 <=? c) && (c <=? 90)
   || (48 <=? c) && (c <=? 57) || (c =? 95) || (c =? 58))%N.

Definition DEFAULT_PATTERN : regex :=
  RSeq (RLit (js "{{")) (RSeq (RGroup (RPlus isKeyChar)) (RLit (js "}}"))).

Definition DEFAULT_OPTIONS : VariableEngineOptions := {|
  enableRecursion := true;
  maxRecursionDepth := 10;
  detectCircular := true;
  placeholderPattern := DEFAULT_PATTERN
|}.

Definition MAX_PLACEHOLDERS : nat := 100.

(** The engine: its options and the values of the [providers] map in
    insertion order.  The [regexCache] only saves the construction of
    RegExp objects and [replace] resets [lastIndex], so it has no part
    in the results and is left out. *)
Record VariableEngine := {
  options : VariableEngineOptions;
  providers : list IVariableProvider
}.

(** [Set<string>]: insertion-ordered, without duplicates. *)
Definition setHas (k : jsstring) (s : list jsstring) : bool :=
  bool_decide (k ∈ s).
Definition setAdd (k : jsstring) (s : list jsstring) : list jsstring :=
  if setHas k s then s else s ++ [k].
Definition setDelete (k : jsstring) (s : list jsstring) : list jsstring :=
  filter (fun x => x ≠ k) s.

(** [Map<string,string>.set]: a present key keeps its place. *)
Fixpoint mapSet (k v : jsstring) (m : list (jsstring * jsstring))
    : list (jsstring * jsstring) :=
  match m with
  | [] => [(k, v)]
  | (k', v') :: m' => if eqs k k' then (k, v) :: m' else (k', v') :: mapSet k v m'
  end.

(** The result of a call: the returned string or the thrown value. *)
Inductive outcome :=
| Returned (s : jsstring)
| Thrown (e : JsVal).

(** [extractPlaceholders]: all matches of the pattern as
    [{key: match[1], full: match[0]}], then the first of every key. *)
Fixpoint dedupe (seen : list jsstring) (ps : list (jsstring * jsstring))
    : list (jsstring * jsstring) :=
  match ps with
  | [] => []
  | (key, full) :: ps' =>
      if setHas key seen then dedupe seen ps'
      else (key, full) :: dedupe (seen ++ [key]) ps'
  end.

Definition extractPlaceholders (pattern : regex) (content : jsstring)
    : list (jsstring * jsstring) :=
  dedupe []
    (map (fun m => (default [] (head (groups m)), m0 m)) (execAll pattern content)).

(** GetSubstitution of ECMAScript for a pattern without capture groups:
    in the replacement text [$$] is a dollar sign, [$&] the matched
    text, [$`] the text before the match and [$'] the text after it;
    every other character, a [$] before anything else included, stands
    for itself. *)
Fixpoint getSubstitution (matched str : jsstring) (position : nat)
    (replacement : jsstring) : jsstring :=
  match replacement with
  | [] => []
  | c :: r =>
      if (c =? 36)%N then
        match r with
        | d :: r' =>
            if (d =? 36)%N then 36%N :: getSubstitution matched str position r'
            else if (d =? 38)%N then matched ++ getSubstitution matched str position r'
            else if (d =? 96)%N then
              take position str ++ getSubstitution matched str position r'
            else if (d =? 39)%N then
              drop (position + length matched) str
                ++ getSubstitution matched str position r'
            else c :: getSubstitution matched str position r
        | [] => [c]
        end
      else c :: getSubstitution matched str position r
  end.

(** [str.replace(new RegExp(escapeRegex(pat), 'g'), value)]: every
    occurrence of the literal [pat], left to right and without overlap,
    is replaced.  [skip] counts the code units of the current match that
    are still to be passed over; [position] is the index in [str]. *)
Fixpoint replaceGo (pat value str : jsstring) (skip position : nat)
    (rest : jsstring) : jsstring :=
  match skip with
  | S skip' =>
      match rest with
      | [] => []
      | _ :: rest' => replaceGo pat value str skip' (S position) rest'
      end
  | 0 =>
      if startsWith pat rest then
        getSubstitution pat str position value ++
        match rest with
        | [] => []
        | c :: rest' =>
            match pat with
            | [] => c :: replaceGo pat value str 0 (S position) rest'
            | _ :: pat' => replaceGo pat value str (length pat') (S position) rest'
            end
        end
      else
        match rest with
        | [] => []
        | c :: rest' => c :: replaceGo pat value str 0 (S position) rest'
        end
  end.

Definition replaceAllLiteral (pat value str : jsstring) : jsstring :=
  replaceGo pat value str 0 0 str.

(** The batched replacement that ends [resolveRecursive] and
    [resolveSingle]. *)
Definition applyReplacements (content : jsstring)
    (replacements : list (jsstring * jsstring)) : jsstring :=
  fold_left (fun processed '(placeholder, value) =>
               replaceAllLiteral placeholder value processed)
            replacements content.

Section Resolve.
Variable eng : VariableEngine.

Definition maxDepthError (depth : nat) (content : jsstring) : JsVal :=
  newVCPError MAX_RECURSION_DEPTH
    (js "Maximum recursion depth of "
       ++ numToString (N.of_nat (maxRecursionDepth (options eng)))
       ++ js " exceeded")
    [(js "depth", JNum (Z.of_nat depth));
     (js "content", JStr (substring content 0 100))].

Definition tooManyError (count : nat) : JsVal :=
  newVCPError VARIABLE_RESOLVE_ERROR
    (js "Too many placeholders: " ++ numToString (N.of_nat count)
       ++ js " (max: " ++ numToString (N.of_nat MAX_PLACEHOLDERS) ++ js ")")
    [(js "count", JNum (Z.of_nat count))].

Definition circularError (key : jsstring) (processingStack : list jsstring) : JsVal :=
  newCircularDependencyError
    (js "Circular variable reference detected for '" ++ key ++ js "'")
    [(js "stack", JStr (join (js " -> ") processingStack));
     (js "key", JStr key)].

Section Loops.
(** The recursive call [this.resolveRecursive(resolved, context,
    processingStack, depth + 1)], with the stack it leaves behind. *)
Variable recur : jsstring -> list jsstring -> option (list jsstring * outcome).

(** [for (const provider of this.providers.values())], [resolved]
    being the variable declared before the loop.  The result is the
    stack and either a value that is thrown on or the final
    [resolved]. *)
Fixpoint tryProviders (ps : list IVariableProvider) (key : jsstring)
    (processingStack : list jsstring) (resolved : option jsstring)
    : option (list jsstring * (JsVal + option jsstring)) :=
  match ps with
  | [] => Some (processingStack, inr resolved)
  | provider :: ps' =>
      match resolve provider key with
      | Throws e =>
          (* the assignment to [resolved] did not take place *)
          if isCircularDependencyError e then Some (processingStack, inl e)
          else tryProviders ps' key processingStack resolved
      | Null => tryProviders ps' key processingStack None
      | Value v =>
          match recur v (setAdd key processingStack) with
          | None => None
          | Some (stack', Returned v') =>
              (* [processingStack.delete(key); break] *)
              Some (setDelete key stack', inr (Some v'))
          | Some (stack', Thrown e) =>
              (* caught by the [catch] of the same [try]: [resolved]
                 still holds the provider's value and the key stays
                 on the stack *)
              if isCircularDependencyError e then Some (stack', inl e)
              else tryProviders ps' key stack' (Some v)
          end
      end
  end.

(** [for (const placeholder of placeholders)] *)
Fixpoint forPlaceholders (placeholders : list (jsstring * jsstring))
    (processingStack : list jsstring)
    (replacements : list (jsstring * jsstring))
    : option (list jsstring * (JsVal + list (jsstring * jsstring))) :=
  match placeholders with
  | [] => Some (processingStack, inr replacements)
  | (key, fullPlaceholder) :: rest =>
      if detectCircular (options eng) && setHas key processingStack then
        Some (processingStack, inl (circularError key processingStack))
      else
        match tryProviders (providers eng) key processingStack None with
        | None => None
        | Some (stack', inl e) => Some (stack', inl e)
        | Some (stack', inr (Some resolved)) =>
            forPlaceholders rest stack' (mapSet fullPlaceholder resolved replacements)
        | Some (stack', inr None) => forPlaceholders rest stack' replacements
        end
  end.
End Loops.

(** [resolveRecursive(content, context, processingStack, depth)].
    Every recursive call raises [depth] and the function throws once
    [depth] reaches the cap, so it ends; [fuel] counts the nested
    calls that are still allowed and [None] means it ran out. *)
Fixpoint resolveRecursive (fuel : nat) (depth : nat) (content : jsstring)
    (processingStack : list jsstring) : option (list jsstring * outcome) :=
  if maxRecursionDepth (options eng) <=? depth then
    Some (processingStack, Thrown (maxDepthError depth content))
  else
    let placeholders := extractPlaceholders (placeholderPattern (options eng)) content in
    if MAX_PLACEHOLDERS <? length placeholders then
      Some (processingStack, Thrown (tooManyError (length placeholders)))
    else
      match fuel with
      | 0 => None
      | S fuel' =>
          match forPlaceholders (resolveRecursive fuel' (S depth))
                  placeholders processingStack [] with
          | None => None
          | Some (stack', inl e) => Some (stack', Thrown e)
          | Some (stack', inr replacements) =>
              Some (stack', Returned (applyReplacements content replacements))
          end
      end.

(** [resolveSingle]: one pass, every provider error is swallowed. *)
Fixpoint firstAnswer (ps : list IVariableProvider) (key : jsstring)
    (resolved : option jsstring) : option jsstring :=
  match ps with
  | [] => resolved
  | provider :: ps' =>
      match resolve provider key with
      | Throws _ => firstAnswer ps' key resolved
      | Null => firstAnswer ps' key None
      | Value v => Some v
      end
  end.

Definition resolveSingle (content : jsstring) : jsstring :=
  let placeholders := extractPlaceholders (placeholderPattern (options eng)) content in
  applyReplacements content
    (fold_left (fun replacements '(key, fullPlaceholder) =>
                  match firstAnswer (providers eng) key None with
                  | Some resolved => mapSet fullPlaceholder resolved replacements
                  | None => replacements
                  end)
               placeholders []).

(** [resolveAll(content, context)]; the processing stack is created
    here, once per call. *)
Definition resolveAll (content : jsstring) : option outcome :=
  match content with
  | [] => Some (Returned [])
  | _ =>
      if enableRecursion (options eng) then
        snd <$> resolveRecursive (maxRecursionDepth (options eng)) 0 content []
      else Some (Returned (resolveSingle content))
  end.
End Resolve.

(** variable/providers/PlaceholderProvider.ts: a provider over a map;
    [this.placeholders.get(key) || null] turns an empty value into
    [null]. *)
Definition PlaceholderProvider (placeholders : list (jsstring * jsstring))
    : IVariableProvider := {|
  name := js "PlaceholderProvider";
  resolve := fun key =>
    match assoc key placeholders with
    | Some ((_ :: _) as v) => Value v
    | _ => Null
    end
|}.

End Engine.

(* ===================================================================== *)
(** ** plugin/PluginRuntime.ts                                            *)
(* ===================================================================== *)

Module Runtime.

(** [manifest.type]; [unknownType] covers every other string, the empty
    one standing for a missing field. *)
Inductive PluginType :=
| direct | distributed | preprocessor | service | static | internal
| unknownType (s : jsstring).

(** An entry of [capabilities.invocationCommands].  The code only tests
    the three fields for truthiness, so an absent field is the empty
    string. *)
Record InvocationCommand := {
  command : jsstring;
  description : jsstring;
  example : jsstring
}.

Record Capabilities := {
  invocationCommands : option (list InvocationCommand);
  streaming : option bool;
  archeryCapable : option bool
}.

(** The fields of a manifest the runtime reads or writes; [serverId] is
    the property [registerDistributedTools] adds and [placeholders] the
    one [registerStaticPlugin] reads. *)
Record PluginManifest := {
  id : jsstring;
  name : jsstring;
  version : jsstring;
  pluginDescription : jsstring;
  type : PluginType;
  capabilities : option Capabilities;
  serverId : option jsstring;
  placeholders : option (list (jsstring * jsstring))
}.

Inductive Event :=
| plugin_registered (plugin : PluginManifest)
| plugin_unloaded (plugin : jsstring).

Record PluginRuntime := {
  plugins : gmap jsstring PluginManifest;
  distributedTools : gmap jsstring PluginManifest;
  individualPluginDescriptions : gmap jsstring jsstring;
  messagePreprocessors : gmap jsstring PluginManifest;
  preprocessorOrder : list jsstring;
  serviceModules : gmap jsstring PluginManifest;
  staticPlaceholderValues : gmap jsstring jsstring;
  emitted : list Event
}.

(** The state the constructor leaves. *)
Definition newPluginRuntime : PluginRuntime := {|
  plugins := ∅; distributedTools := ∅; individualPluginDescriptions := ∅;
  messagePreprocessors := ∅; preprocessorOrder := []; serviceModules := ∅;
  staticPlaceholderValues := ∅; emitted := []
|}.

Definition setPlugins (f : gmap jsstring PluginManifest -> gmap jsstring PluginManifest)
    (rt : PluginRuntime) : PluginRuntime :=
  {| plugins := f (plugins rt); distributedTools := distributedTools rt;
     individualPluginDescriptions := individualPluginDescriptions rt;
     messagePreprocessors := messagePreprocessors rt;
     preprocessorOrder := preprocessorOrder rt;
     serviceModules := serviceModules rt;
     staticPlaceholderValues := staticPlaceholderValues rt;
     emitted := emitted rt |}.

Definition setDistributedTools
    (f : gmap jsstring PluginManifest -> gmap jsstring PluginManifest)
    (rt : PluginRuntime) : PluginRuntime :=
  {| plugins := plugins rt; distributedTools := f (distributedTools rt);
     individualPluginDescriptions := individualPluginDescriptions rt;
     messagePreprocessors := messagePreprocessors rt;
     preprocessorOrder := preprocessorOrder rt;
     serviceModules := serviceModules rt;
     staticPlaceholderValues := staticPlaceholderValues rt;
     emitted := emitted rt |}.

Definition setDescriptions (d : gmap jsstring jsstring)
    (rt : PluginRuntime) : PluginRuntime :=
  {| plugins := plugins rt; distributedTools := distributedTools rt;
     individualPluginDescriptions := d;
     messagePreprocessors := messagePreprocessors rt;
     preprocessorOrder := preprocessorOrder rt;
     serviceModules := serviceModules rt;
     staticPlaceholderValues := staticPlaceholderValues rt;
     emitted := emitted rt |}.

Definition emit (e : Event) (rt : PluginRuntime) : PluginRuntime :=
  {| plugins := plugins rt; distributedTools := distributedTools rt;
     individualPluginDescriptions := individualPluginDescriptions rt;
     messagePreprocessors := messagePreprocessors rt;
     preprocessorOrder := preprocessorOrder rt;
     serviceModules := serviceModules rt;
     staticPlaceholderValues := staticPlaceholderValues rt;
     emitted := emitted rt ++ [e] |}.

(** The labels of the rendered text, U+547D U+4EE4 (the word for
    "command") and U+8C03 U+7528 U+793A U+4F8B (for "call example"),
    and the tag U+4E91 U+7AEF (for "cloud") put before the name of a
    distributed tool. *)
Definition LABEL_COMMAND : jsstring := [0x547D; 0x4EE4]%N.
Definition LABEL_EXAMPLE : jsstring := [0x8C03; 0x7528; 0x793A; 0x4F8B]%N.
Definition TAG_CLOUD : jsstring := [0x4E91; 0x7AEF]%N.

(** [text.split('\n').map(line => `    ${line}`).join('\n')] *)
Definition newline : jsstring := [10%N].

Definition indent (text : jsstring) : jsstring :=
  join newline (map (fun line => js "    " ++ line) (splitOn 10 text)).

(** The text pushed for one command that has a description. *)
Definition commandDescription (plugin : PluginManifest) (cmd : InvocationCommand)
    : jsstring :=
  js "- " ++ name plugin ++ js " (" ++ id plugin ++ js ") - " ++ LABEL_COMMAND
    ++ js ": " ++ (match command cmd with [] => js "N/A" | c => c end)
    ++ js ":" ++ newline
    ++ indent (description cmd)
    ++ match example cmd with
       | [] => []
       | ex => newline ++ js "  " ++ LABEL_EXAMPLE ++ js ":" ++ newline ++ indent ex
       end.

(** The body of the loop of [rebuildVCPDescriptions] for one plugin:
    the text to store under [VCP<id>], if any. *)
Definition renderPlugin (plugin : PluginManifest) : option jsstring :=
  match capabilities plugin ≫= invocationCommands with
  | None | Some [] => None
  | Some cmds =>
      let pluginDescriptions :=
        omap (fun cmd => match description cmd with
                         | [] => None
                         | _ => Some (commandDescription plugin cmd)
                         end) cmds in
      match pluginDescriptions with
      | [] => None
      | _ => Some (join (newline ++ newline) pluginDescriptions)
      end
  end.

Definition placeholderKey (pluginId : jsstring) : jsstring := js "VCP" ++ pluginId.

(** [rebuildVCPDescriptions]: clear the table, then visit every plugin.
    The visit order of a [Map] is the insertion order; the table that
    results does not depend on it as long as every plugin sits under
    its own [id]. *)
Definition rebuildVCPDescriptions (rt : PluginRuntime) : PluginRuntime :=
  setDescriptions
    (map_fold (fun _ plugin acc =>
                 match renderPlugin plugin with
                 | Some fullDescription =>
                     <[placeholderKey (id plugin) := fullDescription]> acc
                 | None => acc
                 end) ∅ (plugins rt))
    rt.

Definition validateManifest (manifest : PluginManifest) : option JsVal :=
  let bad field := Some (newVCPError INVALID_PLUGIN_MANIFEST
      (js "Plugin manifest missing required field: " ++ field)
      [(js "manifest", JOpaque (id manifest))]) in
  match id manifest, name manifest, type manifest with
  | [], _, _ => bad (js "id")
  | _, [], _ => bad (js "name")
  | _, _, unknownType [] => bad (js "type")
  | _, _, _ => None
  end.

Definition registerDistributedPlugin (manifest : PluginManifest)
    (rt : PluginRuntime) : PluginRuntime :=
  match capabilities manifest ≫= invocationCommands with
  | None => rt
  | Some _ => setDistributedTools (insert (id manifest) manifest) rt
  end.

Definition registerPreprocessorPlugin (manifest : PluginManifest)
    (rt : PluginRuntime) : PluginRuntime :=
  {| plugins := plugins rt; distributedTools := distributedTools rt;
     individualPluginDescriptions := individualPluginDescriptions rt;
     messagePreprocessors := <[id manifest := manifest]> (messagePreprocessors rt);
     preprocessorOrder := preprocessorOrder rt ++ [id manifest];
     serviceModules := serviceModules rt;
     staticPlaceholderValues := staticPlaceholderValues rt;
     emitted := emitted rt |}.

Definition registerServicePlugin (manifest : PluginManifest)
    (rt : PluginRuntime) : PluginRuntime :=
  {| plugins := plugins rt; distributedTools := distributedTools rt;
     individualPluginDescriptions := individualPluginDescriptions rt;
     messagePreprocessors := messagePreprocessors rt;
     preprocessorOrder := preprocessorOrder rt;
     serviceModules := <[id manifest := manifest]> (serviceModules rt);
     staticPlaceholderValues := staticPlaceholderValues rt;
     emitted := emitted rt |}.

Definition registerStaticPlugin (manifest : PluginManifest)
    (rt : PluginRuntime) : PluginRuntime :=
  {| plugins := plugins rt; distributedTools := distributedTools rt;
     individualPluginDescriptions := individualPluginDescriptions rt;
     messagePreprocessors := messagePreprocessors rt;
     preprocessorOrder := preprocessorOrder rt;
     serviceModules := serviceModules rt;
     staticPlaceholderValues :=
       fold_left (fun m '(key, value) => <[key := value]> m)
                 (default [] (placeholders manifest)) (staticPlaceholderValues rt);
     emitted := emitted rt |}.

(** The [switch (manifest.type)] of [registerPlugin]; [inl] is the value
    thrown by the [default] branch. *)
Definition registerByType (manifest : PluginManifest) (rt : PluginRuntime)
    : JsVal + PluginRuntime :=
  match type manifest with
  | distributed => inr (registerDistributedPlugin manifest rt)
  | direct => inr rt
  | preprocessor => inr (registerPreprocessorPlugin manifest rt)
  | service => inr (registerServicePlugin manifest rt)
  | static => inr (registerStaticPlugin manifest rt)
  | internal => inr rt
  | unknownType t =>
      inl (newVCPError INVALID_PLUGIN_MANIFEST
             (js "Unknown plugin type: " ++ t)
             [(js "manifest", JOpaque (id manifest))])
  end.

(** [registerPlugin]: the runtime afterwards, and the value the returned
    promise is rejected with, if it is.  Both throwing steps come before
    the first write, so a failed registration leaves the runtime as it
    was. *)
Definition registerPlugin (manifest : PluginManifest) (rt : PluginRuntime)
    : PluginRuntime * option JsVal :=
  let wrap error :=
    newVCPError PLUGIN_LOAD_ERROR
      (js "Failed to register plugin: " ++ id manifest)
      [(js "error", error); (js "manifest", JOpaque (id manifest))] in
  match validateManifest manifest with
  | Some error => (rt, Some (wrap error))
  | None =>
      match registerByType manifest rt with
      | inl error => (rt, Some (wrap error))
      | inr rt1 =>
          let rt2 := setPlugins (insert (id manifest) manifest) rt1 in
          let rt3 := rebuildVCPDescriptions rt2 in
          (emit (plugin_registered manifest) rt3, None)
      end
  end.

(** [getToolDescriptions()] *)
Definition getToolDescriptions (rt : PluginRuntime) : gmap jsstring jsstring :=
  individualPluginDescriptions rt.

(** The body of the loop of [registerDistributedTools] for one
    manifest. *)
Definition registerDistributedTool (fromServer : jsstring)
    (rt : PluginRuntime) (toolManifest : PluginManifest) : PluginRuntime :=
  match name toolManifest, id toolManifest with
  | [], _ | _, [] => rt                              (* invalid: skipped *)
  | _, _ =>
      if bool_decide (is_Some (plugins rt !! id toolManifest)) then rt
      else
        let distributedManifest := {|
          id := id toolManifest;
          name := js "[" ++ TAG_CLOUD ++ js "] " ++ name toolManifest;
          version := version toolManifest;
          pluginDescription := pluginDescription toolManifest;
          type := distributed;
          capabilities := capabilities toolManifest;
          serverId := Some fromServer;
          placeholders := placeholders toolManifest
        |} in
        setPlugins (insert (id toolManifest) distributedManifest)
          (setDistributedTools (insert (id toolManifest) distributedManifest) rt)
  end.

Definition registerDistributedTools (fromServer : jsstring)
    (tools : list PluginManifest) (rt : PluginRuntime) : PluginRuntime :=
  rebuildVCPDescriptions (fold_left (registerDistributedTool fromServer) tools rt).

(** [unregisterAllDistributedTools] *)
Definition unregisterAllDistributedTools (fromServer : jsstring)
    (rt : PluginRuntime) : PluginRuntime :=
  let owned := filter (fun kv => serverId kv.2 = Some fromServer) (plugins rt) in
  if bool_decide (owned = ∅) then rt
  else
    rebuildVCPDescriptions
      (setPlugins (fun m => m ∖ owned)
         (setDistributedTools (fun m => filter (fun kv => owned !! kv.1 = None) m) rt)).

End Runtime.

(* ===================================================================== *)
(** ** communication/channels/DistributedServerChannelSDK.ts              *)
(* ===================================================================== *)

Module Channel.

(** [ws.readyState] *)
Inductive ReadyState := CONNECTING | OPEN | CLOSING | CLOSED.

Definition readyStateNum (r : ReadyState) : Z :=
  match r with CONNECTING => 0 | OPEN => 1 | CLOSING => 2 | CLOSED => 3 end.

(** A socket object: its state, the [serverId] property the channel
    sets on it, and the frames written to it. *)
Record WebSocket := {
  readyState : ReadyState;
  wsServerId : option jsstring;
  sent : list JsVal
}.

Record DistributedServerInfo := {
  serverId : jsstring;
  ws : nat;                       (* the socket object *)
  tools : list JsVal;
  serverName : jsstring;
  connectedAt : N;
  lastActivity : N
}.

(** [PendingToolRequest]: [promise] stands for the pair [resolve],
    [reject] of one promise, [timeout] for the timer handle. *)
Record PendingToolRequest := {
  requestId : jsstring;
  promise : nat;
  timeout : nat;
  createdAt : N
}.

Inductive PromiseState :=
| Waiting
| Fulfilled (v : JsVal)
| Rejected (e : JsVal).

(** What the callback given to [setTimeout] in [executeDistributedTool]
    closes over. *)
Record TimeoutCallback := {
  cbRequestId : jsstring;
  cbPromise : nat;
  cbServerId : jsstring;
  cbToolName : jsstring;
  cbTimeout : N
}.

Inductive Event :=
| server_connected (serverId : jsstring)
| tools_unregistered (serverId : jsstring) (tools : list JsVal)
| async_tool_result (serverId : jsstring) (result : JsVal).

(** The channel with the part of the Node runtime it acts on: the
    sockets, the armed timers and the promises handed to callers.
    Promises and timer handles are objects with an identity of their
    own; [nextHandle] numbers them as they are created. *)
Record State := {
  distributedServers : gmap jsstring DistributedServerInfo;
  pendingRequests : gmap jsstring PendingToolRequest;
  emitted : list Event;
  sockets : gmap nat WebSocket;
  timers : gmap nat TimeoutCallback;
  promises : gmap nat PromiseState;
  nextHandle : nat;
  totalMessagesSent : nat
}.

Definition newChannel : State := {|
  distributedServers := ∅; pendingRequests := ∅; emitted := [];
  sockets := ∅; timers := ∅; promises := ∅; nextHandle := 0;
  totalMessagesSent := 0
|}.

Definition DEFAULT_TIMEOUT : N := 30000.

Definition setServers
    (f : gmap jsstring DistributedServerInfo -> gmap jsstring DistributedServerInfo)
    (st : State) : State :=
  {| distributedServers := f (distributedServers st);
     pendingRequests := pendingRequests st; emitted := emitted st;
     sockets := sockets st; timers := timers st; promises := promises st;
     nextHandle := nextHandle st; totalMessagesSent := totalMessagesSent st |}.

Definition setPending
    (f : gmap jsstring PendingToolRequest -> gmap jsstring PendingToolRequest)
    (st : State) : State :=
  {| distributedServers := distributedServers st;
     pendingRequests := f (pendingRequests st); emitted := emitted st;
     sockets := sockets st; timers := timers st; promises := promises st;
     nextHandle := nextHandle st; totalMessagesSent := totalMessagesSent st |}.

Definition emit (e : Event) (st : State) : State :=
  {| distributedServers := distributedServers st;
     pendingRequests := pendingRequests st; emitted := emitted st ++ [e];
     sockets := sockets st; timers := timers st; promises := promises st;
     nextHandle := nextHandle st; totalMessagesSent := totalMessagesSent st |}.

Definition setSockets (f : gmap nat WebSocket -> gmap nat WebSocket)
    (st : State) : State :=
  {| distributedServers := distributedServers st;
     pendingRequests := pendingRequests st; emitted := emitted st;
     sockets := f (sockets st); timers := timers st; promises := promises st;
     nextHandle := nextHandle st; totalMessagesSent := totalMessagesSent st |}.

Definition countSent (st : State) : State :=
  {| distributedServers := distributedServers st;
     pendingRequests := pendingRequests st; emitted := emitted st;
     sockets := sockets st; timers := timers st; promises := promises st;
     nextHandle := nextHandle st; totalMessagesSent := S (totalMessagesSent st) |}.

Definition setTimers (f : gmap nat TimeoutCallback -> gmap nat TimeoutCallback)
    (st : State) : State :=
  {| distributedServers := distributedServers st;
     pendingRequests := pendingRequests st; emitted := emitted st;
     sockets := sockets st; timers := f (timers st); promises := promises st;
     nextHandle := nextHandle st; totalMessagesSent := totalMessagesSent st |}.

Definition setPromises (f : gmap nat PromiseState -> gmap nat PromiseState)
    (st : State) : State :=
  {| distributedServers := distributedServers st;
     pendingRequests := pendingRequests st; emitted := emitted st;
     sockets := sockets st; timers := timers st; promises := f (promises st);
     nextHandle := nextHandle st; totalMessagesSent := totalMessagesSent st |}.

(** Two new objects, a promise and a timer handle. *)
Definition allocate (st : State) : State :=
  {| distributedServers := distributedServers st;
     pendingRequests := pendingRequests st; emitted := emitted st;
     sockets := sockets st; timers := timers st; promises := promises st;
     nextHandle := S (S (nextHandle st));
     totalMessagesSent := totalMessagesSent st |}.

(** [clearTimeout(t)] *)
Definition clearTimeout (t : nat) : State -> State := setTimers (delete t).

(** Settling a promise: only the first [resolve] or [reject] counts. *)
Definition settle (p : nat) (outcome : PromiseState) (st : State) : State :=
  match promises st !! p with
  | Some Waiting => setPromises (insert p outcome) st
  | _ => st
  end.

Definition resolve (p : nat) (v : JsVal) : State -> State := settle p (Fulfilled v).
Definition reject (p : nat) (e : JsVal) : State -> State := settle p (Rejected e).

(** [BaseChannel.sendToClient]: the frame is written only to an open
    socket. *)
Definition sendToClient (w : nat) (message : JsVal) (st : State) : State :=
  match sockets st !! w with
  | Some sock =>
      match readyState sock with
      | OPEN =>
          countSent
            (setSockets (insert w {| readyState := OPEN; wsServerId := wsServerId sock;
                                     sent := sent sock ++ [message] |}) st)
      | _ => st
      end
  | None => st
  end.

(** [generateServerId] and [generateRequestId]; the clock and the
    random draws are inputs. *)
Definition generateServerId (instanceId now : N) : jsstring :=
  js "dist-" ++ numToString instanceId ++ js "-" ++ numToString now.

Definition generateRequestId (now : N) (rand : jsstring) : jsstring :=
  js "req-" ++ numToString now ++ js "-" ++ rand.

(** [onConnectionEstablished(ws, ...)] *)
Definition onConnectionEstablished (w : nat) (instanceId now : N) (st : State) : State :=
  let sid := generateServerId instanceId now in
  let st1 := setSockets (alter (fun sock =>
               {| readyState := readyState sock; wsServerId := Some sid;
                  sent := sent sock |}) w) st in
  let serverInfo := {| serverId := sid; ws := w; tools := []; serverName := sid;
                       connectedAt := now; lastActivity := now |} in
  let st2 := setServers (insert sid serverInfo) st1 in
  let st3 := sendToClient w
               (JObject [(js "type", JStr (js "connection_ack"));
                         (js "data", JObject [(js "serverId", JStr sid);
                            (js "message", JStr (js "Connected to VCP IntelliCore"))])])
               st2 in
  emit (server_connected sid) st3.

(** [handleToolResult(serverId, message)] *)
Definition handleToolResult (fromServer : jsstring) (message : JsVal) (st : State) : State :=
  let data := getField (js "data") message in
  let d := if truthy data then data else JObject [] in
  let rid := getField (js "requestId") d in
  let result := getField (js "result") d in
  if negb (truthy rid) then
    emit (async_tool_result fromServer (if truthy data then data else message)) st
  else
    match rid with
    | JStr r =>
        match pendingRequests st !! r with
        | None => st                                   (* unknown requestId *)
        | Some pending =>
            resolve (promise pending) result
              (setPending (delete r) (clearTimeout (timeout pending) st))
        end
    | _ => st                    (* the keys of the table are strings *)
    end.

(** The callback armed by [executeDistributedTool], run when timer [t]
    fires: it deletes the record, then rejects. *)
Definition timeoutError (cb : TimeoutCallback) : JsVal :=
  newVCPError DISTRIBUTED_TIMEOUT
    (js "Tool execution timeout after " ++ numToString (cbTimeout cb) ++ js "ms")
    [(js "serverId", JStr (cbServerId cb));
     (js "toolName", JStr (cbToolName cb));
     (js "requestId", JStr (cbRequestId cb));
     (js "timeout", JNum (Z.of_N (cbTimeout cb)))].

Definition fireTimer (t : nat) (st : State) : State :=
  match timers st !! t with
  | None => st                                  (* cleared: it never runs *)
  | Some cb =>
      reject (cbPromise cb) (timeoutError cb)
        (setPending (delete (cbRequestId cb)) (setTimers (delete t) st))
  end.

(** [executeDistributedTool(serverId, toolName, args, timeout)];
    [inl] is the value thrown before a request is made, [inr] the
    promise that is returned. *)
Definition executeDistributedTool (target toolName : jsstring) (args : JsVal)
    (timeoutArg : option N) (now : N) (rand : jsstring) (st : State)
    : State * (JsVal + nat) :=
  let timeoutMs := default DEFAULT_TIMEOUT timeoutArg in
  match distributedServers st !! target with
  | None =>
      (st, inl (newVCPError DISTRIBUTED_CONNECTION_ERROR
                  (js "Distributed server " ++ target ++ js " not connected")
                  [(js "serverId", JStr target)]))
  | Some serverInfo =>
      let state := default CLOSED (readyState <$> sockets st !! ws serverInfo) in
      match state with
      | OPEN =>
          let rid := generateRequestId now rand in
          let p := nextHandle st in
          let t := S (nextHandle st) in
          let st1 := setPromises (insert p Waiting) (allocate st) in
          let st2 := setTimers (insert t {| cbRequestId := rid; cbPromise := p;
                                            cbServerId := target; cbToolName := toolName;
                                            cbTimeout := timeoutMs |}) st1 in
          let st3 := setPending (insert rid {| requestId := rid; promise := p;
                                               timeout := t; createdAt := now |}) st2 in
          let st4 := sendToClient (ws serverInfo)
                       (JObject [(js "type", JStr (js "execute_tool"));
                                 (js "data", JObject [(js "requestId", JStr rid);
                                                      (js "toolName", JStr toolName);
                                                      (js "toolArgs", args)])])
                       st3 in
          (st4, inr p)
      | _ =>
          (st, inl (newVCPError DISTRIBUTED_CONNECTION_ERROR
                      (js "Distributed server " ++ target ++ js " connection not open")
                      [(js "serverId", JStr target);
                       (js "readyState", JNum (readyStateNum state))]))
      end
  end.

Definition disconnectedError (closed : jsstring) : JsVal :=
  newError (js "Server " ++ closed ++ js " disconnected").

(** [cleanupPendingRequests(serverId)]: the callback of [forEach] is
    run on every record of the table. *)
Definition cleanupPendingRequests (closed : jsstring) (st : State) : State :=
  map_fold (fun rid pending acc =>
              setPending (delete rid)
                (reject (promise pending) (disconnectedError closed)
                   (clearTimeout (timeout pending) acc)))
           st (pendingRequests st).

(** The first half of [onConnectionClosed]: the session is announced as
    gone, if it had tools, and dropped from the table of servers. *)
Definition forgetServer (sid : jsstring) (st : State) : State :=
  match distributedServers st !! sid with
  | Some serverInfo =>
      setServers (delete sid)
        match tools serverInfo with
        | [] => st
        | _ => emit (tools_unregistered sid (tools serverInfo)) st
        end
  | None => st
  end.

(** [onConnectionClosed(ws)] *)
Definition onConnectionClosed (w : nat) (st : State) : State :=
  match sockets st !! w ≫= wsServerId with
  | None | Some [] => st                             (* [if (serverId)] *)
  | Some sid => cleanupPendingRequests sid (forgetServer sid st)
  end.

(** What reaches the channel from outside: a call of
    [executeDistributedTool], a [tool_result] frame of a worker, a timer
    that fires, a new connection, a socket that closes. *)
Inductive Input :=
| Execute (target toolName : jsstring) (args : JsVal) (timeoutArg : option N)
          (now : N) (rand : jsstring)
| ToolResult (fromServer : jsstring) (message : JsVal)
| TimerFires (t : nat)
| Connects (w : nat) (instanceId now : N)
| Closes (w : nat).

Definition step (st : State) (i : Input) : State :=
  match i with
  | Execute target toolName args timeoutArg now rand =>
      (executeDistributedTool target toolName args timeoutArg now rand st).1
  | ToolResult fromServer message => handleToolResult fromServer message st
  | TimerFires t => fireTimer t st
  | Connects w instanceId now =>
      onConnectionEstablished w instanceId now
        (setSockets (insert w {| readyState := OPEN; wsServerId := None; sent := [] |}) st)
  | Closes w =>
      onConnectionClosed w
        (setSockets (alter (fun sock => {| readyState := CLOSED;
                                           wsServerId := wsServerId sock;
                                           sent := sent sock |}) w) st)
  end.

Definition run (inputs : list Input) (st : State) : State :=
  fold_left step inputs st.

End Channel.

(* ===================================================================== *)
(** ** communication/FileFetcher.ts                                       *)
(* ===================================================================== *)

Module Fetcher.

(** The file system as the fetcher sees it: [readFile] succeeds on the
    paths of [files]; [writeFile] fails on the paths [writeFails]
    marks (a missing cache directory, a full disk, ...). *)
Record FileSystem := {
  files : gmap jsstring (list N);
  writeFails : jsstring -> bool
}.

Definition readFile (fs : FileSystem) (path : jsstring) : option (list N) :=
  files fs !! path.

Definition writeFile (fs : FileSystem) (path : jsstring) (buffer : list N)
    : option FileSystem :=
  if writeFails fs path then None
  else Some {| files := <[path := buffer]> (files fs); writeFails := writeFails fs |}.

Inductive Source := local | distributed | fetched.

Record FileResult := {
  buffer : list N;
  mimeType : jsstring;
  size : nat;
  fromCache : bool;
  source : Source
}.

(** What a worker does with a [fetch_file] frame: it stays silent until
    the 30 s timer fires, or it answers with a [file_result] frame for
    the request.  [success], [content] and [error] are read for
    truthiness, an absent field being the empty string; [content] is
    base64 text. *)
Inductive NodeReply :=
| NoReply
| FileResultFrame (success : bool) (content : jsstring) (error : jsstring).

Record Node := {
  nodeOpen : bool;                          (* ws.readyState === OPEN *)
  reply : jsstring -> NodeReply
}.

Record State := {
  hits : nat;
  misses : nat;
  disk : FileSystem;
  asked : list jsstring   (* the servers a fetch_file frame was sent to *)
}.

Definition MIME_TYPES : list (jsstring * jsstring) :=
  [ (js ".jpg", js "image/jpeg"); (js ".jpeg", js "image/jpeg");
    (js ".png", js "image/png"); (js ".gif", js "image/gif");
    (js ".webp", js "image/webp"); (js ".svg", js "image/svg+xml");
    (js ".pdf", js "application/pdf"); (js ".txt", js "text/plain");
    (js ".json", js "application/json"); (js ".xml", js "application/xml");
    (js ".html", js "text/html"); (js ".css", js "text/css");
    (js ".js", js "application/javascript") ].

Section WithPlatform.
(** Node's [crypto], [path], [Buffer] and [String.prototype]
    functions the fetcher calls. *)
Variable sha256hex : jsstring -> jsstring.
Variable extname : jsstring -> jsstring.
Variable pathJoin : jsstring -> jsstring -> jsstring.
Variable toLowerCase : jsstring -> jsstring.
Variable base64Decode : jsstring -> list N.

Variable cacheDir : jsstring.
(** [this.distributedServers], in the order of the map. *)
Variable distributedServers : option (list (jsstring * Node)).

Definition getCacheKey (filePath : jsstring) : jsstring := sha256hex filePath.

Definition getMimeType (extension : jsstring) : jsstring :=
  default (js "application/octet-stream") (assoc (toLowerCase extension) MIME_TYPES).

Definition cachedFilePath (filePath : jsstring) : jsstring :=
  pathJoin cacheDir (getCacheKey filePath ++ extname filePath).

Definition fetchFromCache (filePath : jsstring) (st : State) : option FileResult :=
  match readFile (disk st) (cachedFilePath filePath) with
  | Some buf =>
      Some {| buffer := buf; mimeType := getMimeType (extname filePath);
              size := length buf; fromCache := true; source := local |}
  | None => None
  end.

Definition fetchFromLocal (filePath : jsstring) (st : State) : option FileResult :=
  match readFile (disk st) filePath with
  | Some buf =>
      Some {| buffer := buf; mimeType := getMimeType (extname filePath);
              size := length buf; fromCache := false; source := local |}
  | None => None
  end.

(** [saveToCache]: a failed write is logged and nothing more. *)
Definition saveToCache (filePath : jsstring) (buf : list N) (st : State) : State :=
  match writeFile (disk st) (cachedFilePath filePath) buf with
  | Some fs' => {| hits := hits st; misses := misses st; disk := fs'; asked := asked st |}
  | None => st
  end.

(** [requestFileFromNode]: [inl] is the rejection. *)
Definition requestFileFromNode (sid : jsstring) (node : Node) (filePath : jsstring)
    (st : State) : State * (JsVal + FileResult) :=
  if nodeOpen node then
    let st' := {| hits := hits st; misses := misses st; disk := disk st;
                  asked := asked st ++ [sid] |} in
    match reply node filePath with
    | NoReply => (st', inl (newError (js "File fetch timeout")))
    | FileResultFrame success content error =>
        match success, content with
        | true, _ :: _ =>
            let buf := base64Decode content in
            (st', inr {| buffer := buf; mimeType := getMimeType (extname filePath);
                         size := length buf; fromCache := false;
                         source := distributed |})
        | _, _ =>
            (st', inl (newError (match error with
                                 | [] => js "File not found on distributed node"
                                 | _ => error
                                 end)))
        end
    end
  else (st, inl (newError (js "Server connection not open"))).

(** The loop of [fetchFromDistributedNode] over the servers. *)
Fixpoint askNodes (nodes : list (jsstring * Node)) (filePath : jsstring)
    (st : State) : State * option FileResult :=
  match nodes with
  | [] => (st, None)
  | (sid, node) :: rest =>
      match requestFileFromNode sid node filePath st with
      | (st', inr result) => (st', Some result)
      | (st', inl _) => askNodes rest filePath st'
      end
  end.

Definition fetchFromDistributedNode (filePath : jsstring) (st : State)
    : State * option FileResult :=
  match distributedServers with
  | None | Some [] => (st, None)
  | Some nodes => askNodes nodes filePath st
  end.

Definition fetchError (normalizedPath : jsstring) : JsVal :=
  newVCPError TOOL_EXECUTION_FAILED
    (js "Failed to fetch file: " ++ normalizedPath)
    [(js "filePath", JStr normalizedPath)].

Definition normalize (filePath : jsstring) : jsstring :=
  if startsWith (js "file://") filePath then substringFrom filePath 7 else filePath.

(** [fetchFile(filePath)] *)
Definition fetchFile (filePath : jsstring) (st : State) : State * (JsVal + FileResult) :=
  let normalizedPath := normalize filePath in
  (* Layer 1 *)
  match fetchFromCache normalizedPath st with
  | Some cached =>
      ({| hits := S (hits st); misses := misses st; disk := disk st;
          asked := asked st |}, inr cached)
  | None =>
      let st1 := {| hits := hits st; misses := S (misses st); disk := disk st;
                    asked := asked st |} in
      (* Layer 2 *)
      match fetchFromLocal normalizedPath st1 with
      | Some found => (saveToCache normalizedPath (buffer found) st1, inr found)
      | None =>
          (* Layer 3 *)
          match distributedServers with
          | Some (_ :: _) =>
              match fetchFromDistributedNode normalizedPath st1 with
              | (st2, Some got) =>
                  (saveToCache normalizedPath (buffer got) st2, inr got)
              | (st2, None) => (st2, inl (fetchError normalizedPath))
              end
          | _ => (st1, inl (fetchError normalizedPath))
          end
      end
  end.
End WithPlatform.

End Fetcher.

(* ===================================================================== *)
(** * Theorems                                                            *)
(* ===================================================================== *)

(** ** Strings *)

Section StringFacts.
Implicit Types p s pat : jsstring.

Lemma startsWith_app p s : startsWith p (p ++ s) = true.
Proof. induction p as [|a p IH]; simpl; [done|]. by rewrite N.eqb_refl, IH. Qed.

Lemma startsWith_inv p s : startsWith p s = true -> exists post, s = p ++ post.
Proof.
  revert s; induction p as [|a p IH]; intros s H; simpl in *.
  - by exists s.
  - destruct s as [|b s]; [done|].
    apply andb_true_iff in H as [Hab Hps].
    apply N.eqb_eq in Hab as ->.
    destruct (IH _ Hps) as [post ->]. by exists post.
Qed.

(** An index returned by [findFrom] is the place of an occurrence. *)
Lemma findFrom_Some pat s i j :
  findFrom pat s i = Some j ->
  exists pre post, s = pre ++ pat ++ post /\ j = i + length pre.
Proof.
  revert i; induction s as [|c s IH]; intros i; simpl.
  - destruct (startsWith pat []) eqn:E; [|done].
    intros [= <-]. apply startsWith_inv in E as [post E].
    exists [], post. split; [done|simpl; lia].
  - destruct (startsWith pat (c :: s)) eqn:E.
    + intros [= <-]. apply startsWith_inv in E as [post E].
      exists [], post. split; [done|simpl; lia].
    + intros H. destruct (IH _ H) as (pre & post & -> & ->).
      exists (c :: pre), post. split; [done|simpl; lia].
Qed.

(** [findFrom] misses no occurrence. *)
Lemma findFrom_None pat s i pre post :
  findFrom pat s i = None -> s <> pre ++ pat ++ post.
Proof.
  revert i pre; induction s as [|c s IH]; intros i pre; simpl.
  - destruct (startsWith pat []) eqn:E; [done|]. intros _ H.
    destruct pre; simpl in H.
    + rewrite H, startsWith_app in E. done.
    + done.
  - destruct (startsWith pat (c :: s)) eqn:E; [done|]. intros Hn H.
    destruct pre as [|c' pre]; simpl in H.
    + rewrite H, startsWith_app in E. done.
    + injection H as -> H. by eapply IH.
Qed.

Lemma includes_spec pat s :
  includes pat s = true <-> exists pre post, s = pre ++ pat ++ post.
Proof.
  unfold includes, indexOf. simpl. rewrite drop_0. split.
  - destruct (findFrom pat s 0) eqn:E; [|done]. intros _.
    destruct (findFrom_Some _ _ _ _ E) as (pre & post & -> & _). eauto.
  - intros (pre & post & H). destruct (findFrom pat s 0) eqn:E; [done|].
    by apply findFrom_None with (pre := pre) (post := post) in E.
Qed.

(** [indexOf] finds an occurrence that starts at or after the clamped
    start position and lies within the string. *)
Lemma indexOf_Some pat s from j :
  indexOf pat s from = Some j ->
  Nat.min from (length s) <= j /\ j + length pat <= length s /\
  exists pre post, s = pre ++ pat ++ post /\ length pre = j.
Proof.
  unfold indexOf. intros H.
  destruct (findFrom_Some _ _ _ _ H) as (pre & post & Hd & ->).
  split; [lia|].
  assert (Hs : s = take (Nat.min from (length s)) s ++ pre ++ pat ++ post).
  { by rewrite <- Hd, take_drop. }
  assert (Hl : length (take (Nat.min from (length s)) s) = Nat.min from (length s)).
  { rewrite length_take. lia. }
  split.
  - rewrite Hs at 2. rewrite !length_app, Hl. lia.
  - exists (take (Nat.min from (length s)) s ++ pre), post.
    rewrite <- app_assoc. split; [done|]. rewrite length_app, Hl. done.
Qed.

Lemma indexOf_None_anywhere pat s from :
  indexOf pat s 0 = None -> indexOf pat s from = None.
Proof.
  unfold indexOf at 1. simpl. rewrite drop_0. intros Hn.
  destruct (indexOf pat s from) as [j|] eqn:E; [|done].
  apply indexOf_Some in E as (_ & _ & pre & post & Hs & _).
  by apply findFrom_None with (pre := pre) (post := post) in Hn.
Qed.
End StringFacts.

(** ** Protocol parser *)

Section ParserFacts.
Import Parser.

(** The value of the last field named [k]. *)
Definition lastValue (k : jsstring) (fields : list (jsstring * jsstring))
    : option jsstring :=
  last (omap (fun kv => if eqs kv.1 k then Some kv.2 else None) fields).

Definition archeryValue (v : jsstring) : bool :=
  eqs v (js "true") || eqs v (js "no_reply").

Lemma eqs_true a b : eqs a b = true <-> a = b.
Proof. unfold eqs. apply bool_decide_eq_true. Qed.

Lemma eqs_false a b : eqs a b = false <-> a <> b.
Proof. unfold eqs. apply bool_decide_eq_false. Qed.

(** The loop keeps the two reserved names out of the argument object. *)
Lemma blockStep_reserved acc kv k :
  k = js "archery" \/ k = js "tool_name" ->
  parsedArgs acc !! k = None -> parsedArgs (blockStep acc kv) !! k = None.
Proof.
  intros Hk Hacc. destruct kv as [key value]. unfold blockStep.
  destruct (eqs key (js "tool_name")) eqn:E1; [done|].
  destruct (eqs key (js "archery")) eqn:E2; [done|].
  simpl. unfold setArg. destruct (eqs key (js "__proto__")); [done|].
  apply eqs_false in E1, E2.
  rewrite lookup_insert_ne; [done|]. destruct Hk; congruence.
Qed.

Lemma fold_blockStep_reserved fields acc k :
  k = js "archery" \/ k = js "tool_name" ->
  parsedArgs acc !! k = None ->
  parsedArgs (fold_left blockStep fields acc) !! k = None.
Proof.
  intros Hk. revert acc. induction fields as [|kv fields IH]; intros acc H; [done|].
  simpl. apply IH. by apply blockStep_reserved.
Qed.

(** The flag after the loop is decided by the last [archery] field. *)
Lemma fold_blockStep_archery fields acc :
  isArchery (fold_left blockStep fields acc) =
  match lastValue (js "archery") fields with
  | Some v => archeryValue v
  | None => isArchery acc
  end.
Proof.
  induction fields as [|[key value] fields IH] using rev_ind; [done|].
  rewrite fold_left_app. simpl. unfold lastValue in *.
  rewrite omap_app. simpl. unfold blockStep.
  destruct (eqs key (js "tool_name")) eqn:E1.
  - apply eqs_true in E1 as ->. simpl. rewrite app_nil_r. apply IH.
  - destruct (eqs key (js "archery")) eqn:E2; simpl.
    + by rewrite last_snoc.
    + rewrite app_nil_r. apply IH.
Qed.

(** The second scenario of the specification. *)
Definition fetchBlock : jsstring :=
  js "tool_name:" ++ SIGIL_START ++ js "Fetch" ++ SIGIL_END
    ++ js ", url:" ++ SIGIL_START ++ js "http://x" ++ SIGIL_END
    ++ js ", archery:" ++ SIGIL_START ++ js "no_reply" ++ SIGIL_END.

Definition fetchRequest : VCPToolRequest := {|
  name := js "Fetch";
  args := {[ js "url" := js "http://x" ]};
  archery := true;
  rawText := fetchBlock
|}.

Definition wrapBlock (cfg : VCPProtocolConfig) (block : jsstring) : jsstring :=
  toolRequestStartMarker cfg ++ block ++ toolRequestEndMarker cfg.

Lemma parse_fetchBlock :
  parseRequestBlock DEFAULT_CONFIG fetchBlock = Some fetchRequest.
Proof. vm_compute. reflexivity. Qed.

(** Without a closing marker anywhere in the text the loop only skips
    over the opening markers and collects nothing. *)
Lemma parseLoop_no_end cfg content :
  toolRequestStartMarker cfg <> [] ->
  indexOf (toolRequestEndMarker cfg) content 0 = None ->
  forall fuel searchOffset acc,
    length content - searchOffset < fuel ->
    parseLoop fuel cfg content searchOffset acc = Some acc.
Proof.
  intros Hstart Hend. induction fuel as [|fuel IH]; intros off acc Hf; simpl.
  - lia.
  - destruct (off <? length content) eqn:Hlt; [|done].
    apply Nat.ltb_lt in Hlt.
    destruct (indexOf (toolRequestStartMarker cfg) content off) as [si|] eqn:Es; [|done].
    rewrite indexOf_None_anywhere by done.
    apply indexOf_Some in Es as (Hge & _ & _).
    apply IH.
    destruct (toolRequestStartMarker cfg) as [|c m]; [done|]. simpl. lia.
Qed.

Definition unclosedText : jsstring :=
  js "say <<<[TOOL_REQUEST]>>>tool_name:" ++ SIGIL_START ++ js "Ping" ++ SIGIL_END.

Definition namelessText : jsstring :=
  wrapBlock DEFAULT_CONFIG (js "url:" ++ SIGIL_START ++ js "http://x" ++ SIGIL_END).

(** C10. [hasToolRequests] is true exactly for the texts that contain
    the configured opening marker.  Hence a text with an opening marker
    (not the empty string) and no closing marker anywhere makes
    [hasToolRequests] true while [parseToolRequests] returns the empty
    list, and so does a well-delimited block without a [tool_name]
    field. *)
Theorem C10_has_without_requests :
  (forall cfg content,
      hasToolRequests cfg content = true <->
      exists pre post, content = pre ++ toolRequestStartMarker cfg ++ post) /\
  (forall cfg pre post,
      toolRequestStartMarker cfg <> [] ->
      indexOf (toolRequestEndMarker cfg)
              (pre ++ toolRequestStartMarker cfg ++ post) 0 = None ->
      hasToolRequests cfg (pre ++ toolRequestStartMarker cfg ++ post) = true /\
      parseToolRequests cfg (pre ++ toolRequestStartMarker cfg ++ post) = Some []) /\
  (hasToolRequests DEFAULT_CONFIG namelessText = true /\
   parseToolRequests DEFAULT_CONFIG namelessText = Some []).
Proof.
  split; [|split].
  - intros cfg content. apply includes_spec.
  - intros cfg pre post Hstart Hend. split.
    + apply includes_spec. eauto.
    + unfold parseToolRequests. apply parseLoop_no_end; [done|done|lia].
  - split; vm_compute; reflexivity.
Qed.

Lemma C10_has_without_requests_witness :
  hasToolRequests DEFAULT_CONFIG unclosedText = true /\
  parseToolRequests DEFAULT_CONFIG unclosedText = Some [].
Proof.
  apply (proj1 (proj2 C10_has_without_requests) DEFAULT_CONFIG (js "say ")
           (js "tool_name:" ++ SIGIL_START ++ js "Ping" ++ SIGIL_END)).
  - vm_compute. discriminate.
  - vm_compute. reflexivity.
Defined.
End ParserFacts.

(** ** Plugin runtime *)

Section RuntimeFacts.
Import Runtime.

(** Every plugin of the table sits under its own [id]: [registerPlugin]
    and [registerDistributedTools] only ever write [plugins.set(m.id, m)]. *)
Definition keyedById (m : gmap jsstring PluginManifest) : Prop :=
  forall k p, m !! k = Some p -> id p = k.

Lemma keyedById_empty : keyedById ∅.
Proof. intros k p H. by rewrite lookup_empty in H. Qed.

Lemma keyedById_insert m p : keyedById m -> keyedById (<[id p := p]> m).
Proof.
  intros Hm k q. destruct (decide (id p = k)) as [<-|Hne].
  - rewrite lookup_insert_eq. by intros [= <-].
  - rewrite lookup_insert_ne by done. apply Hm.
Qed.

Lemma placeholderKey_inj a b : placeholderKey a = placeholderKey b -> a = b.
Proof. unfold placeholderKey. by intros H%app_inv_head. Qed.

(** The catalog after a rebuild, entry by entry. *)
Lemma rebuild_lookup rt k :
  keyedById (plugins rt) ->
  individualPluginDescriptions (rebuildVCPDescriptions rt) !! placeholderKey k
  = plugins rt !! k ≫= renderPlugin.
Proof.
  unfold rebuildVCPDescriptions. simpl. generalize (plugins rt). clear rt. intros m.
  set (f := fun (_ : jsstring) (plugin : PluginManifest) (acc : gmap jsstring jsstring) =>
              match renderPlugin plugin with
              | Some fullDescription => <[placeholderKey (id plugin) := fullDescription]> acc
              | None => acc
              end).
  revert k.
  refine (map_fold_weak_ind
            (fun acc m => forall k, keyedById m ->
               acc !! placeholderKey k = m !! k ≫= renderPlugin) f ∅ _ _ m).
  - intros k _. by rewrite !lookup_empty.
  - intros i x m' r Hi IH k Hk.
    assert (Hx : id x = i) by (apply Hk; apply lookup_insert_eq).
    assert (Hm' : keyedById m').
    { intros j q Hj. apply Hk. rewrite lookup_insert_ne; [done|].
      intros ->. congruence. }
    specialize (IH k Hm'). unfold f. rewrite Hx.
    destruct (decide (i = k)) as [->|Hne].
    + rewrite lookup_insert_eq. simpl.
      destruct (renderPlugin x) as [d|] eqn:Er.
      * by rewrite lookup_insert_eq.
      * rewrite IH, Hi. done.
    + rewrite lookup_insert_ne by done.
      destruct (renderPlugin x) as [d|]; [|done].
      rewrite lookup_insert_ne; [done|]. by intros ?%placeholderKey_inj.
Qed.

Definition acceptedType (ty : PluginType) : bool :=
  match ty with unknownType _ => false | _ => true end.

Lemma registerByType_plugins m rt rt1 :
  registerByType m rt = inr rt1 -> plugins rt1 = plugins rt.
Proof.
  unfold registerByType, registerDistributedPlugin.
  destruct (type m); intros [= <-]; try done.
  by destruct (capabilities m ≫= invocationCommands).
Qed.

(** A successful registration stores the manifest and the rebuilt
    catalog has its rendering under [VCP<id>]. *)
Lemma registerPlugin_ok m rt :
  keyedById (plugins rt) -> m.(id) <> [] -> m.(name) <> [] ->
  acceptedType (type m) = true ->
  exists rt', registerPlugin m rt = (rt', None) /\
    plugins rt' = <[id m := m]> (plugins rt) /\
    getToolDescriptions rt' !! placeholderKey (id m) = renderPlugin m /\
    emitted rt' = emitted rt ++ [plugin_registered m].
Proof.
  intros Hk Hid Hname Hty. unfold registerPlugin.
  assert (Hv : validateManifest m = None).
  { unfold validateManifest. destruct (id m); [done|]. destruct (name m); [done|].
    by destruct (type m) as [| | | | | |[|]]. }
  rewrite Hv.
  destruct (registerByType m rt) as [e|rt1] eqn:Er.
  { unfold registerByType in Er. by destruct (type m). }
  apply registerByType_plugins in Er as Hp.
  set (rt2 := setPlugins (insert (id m) m) rt1).
  assert (Hp2 : plugins rt2 = <[id m := m]> (plugins rt)).
  { subst rt2. simpl. by rewrite Hp. }
  exists (emit (plugin_registered m) (rebuildVCPDescriptions rt2)).
  split; [done|]. split; [exact Hp2|]. split.
  - change (individualPluginDescriptions (rebuildVCPDescriptions rt2)
              !! placeholderKey (id m) = renderPlugin m).
    rewrite rebuild_lookup.
    + rewrite Hp2, lookup_insert_eq. done.
    + rewrite Hp2. by apply keyedById_insert.
  - change (emitted rt1 ++ [plugin_registered m]
            = emitted rt ++ [plugin_registered m]). f_equal.
    unfold registerByType, registerDistributedPlugin in Er.
    destruct (type m); try discriminate;
      try destruct (capabilities m ≫= invocationCommands);
      injection Er as <-; reflexivity.
Qed.

Lemma registerPlugin_keyedById m rt :
  keyedById (plugins rt) -> keyedById (plugins (registerPlugin m rt).1).
Proof.
  intros Hk. unfold registerPlugin.
  destruct (validateManifest m); [done|].
  destruct (registerByType m rt) as [e|rt1] eqn:Er; [done|].
  simpl. rewrite (registerByType_plugins _ _ _ Er). by apply keyedById_insert.
Qed.

(** The fourth scenario of the specification. *)
Definition addCommand : InvocationCommand :=
  {| command := js "add"; description := js "adds two numbers";
     example := js "add 1 2" |}.

Definition sumManifest (ty : PluginType) : PluginManifest := {|
  id := js "Sum"; name := js "Sum"; version := js "1.0.0";
  pluginDescription := []; type := ty;
  capabilities := Some {| invocationCommands := Some [addCommand];
                          streaming := None; archeryCapable := None |};
  serverId := None; placeholders := None
|}.

Definition sumEntry : jsstring :=
  js "- Sum (Sum) - " ++ LABEL_COMMAND ++ js ": add:" ++ newline
    ++ js "    adds two numbers" ++ newline
    ++ js "  " ++ LABEL_EXAMPLE ++ js ":" ++ newline
    ++ js "    add 1 2".

Lemma sum_registered_entry :
  getToolDescriptions (registerPlugin (sumManifest direct) newPluginRuntime).1
    !! js "VCPSum" = Some sumEntry.
Proof. vm_compute. reflexivity. Qed.

Lemma sumEntry_label :
  includes (js "- Sum (Sum) - command: add:") sumEntry = false.
Proof. vm_compute. reflexivity. Qed.

(** The type "subprocess" is none of the six the runtime knows: such a
    registration is refused and the runtime stays as it was. *)
Lemma subprocess_type_refused :
  exists error,
    registerPlugin (sumManifest (unknownType (js "subprocess"))) newPluginRuntime
    = (newPluginRuntime, Some (JError VCPErrorClass (Some PLUGIN_LOAD_ERROR)
                                 (js "Failed to register plugin: Sum") error)).
Proof. eexists. reflexivity. Qed.

(** C2, as stated, fails: after the registration of the plugin "Sum"
    (as a [direct] plugin, in a new runtime) the entry under "VCPSum"
    does not contain "- Sum (Sum) - command: add:". *)
Lemma C2_catalog_entry_counterexample :
  ~ exists entry,
      getToolDescriptions (registerPlugin (sumManifest direct) newPluginRuntime).1
        !! js "VCPSum" = Some entry /\
      includes (js "- Sum (Sum) - command: add:") entry = true /\
      includes (js "adds two numbers") entry = true /\
      includes (js "add 1 2") entry = true.
Proof.
  intros (entry & He & Hc & _).
  rewrite sum_registered_entry in He. injection He as <-.
  rewrite sumEntry_label in Hc. discriminate.
Qed.

(** C2, amended. Registering a manifest with id "Sum", name "Sum", one
    of the six plugin types of the runtime and the single invocation
    command {add, "adds two numbers", "add 1 2"} succeeds in every
    runtime whose plugins sit under their ids, and the catalog entry
    under "VCPSum" is then the text [sumEntry]: it contains
    "- Sum (Sum) - <LABEL_COMMAND>: add:", "adds two numbers" and
    "add 1 2", the label being the Chinese word the code renders. *)
Theorem C2_catalog_entry_amended (rt : PluginRuntime) (m : PluginManifest)
    (caps : Capabilities) :
  keyedById (plugins rt) ->
  id m = js "Sum" -> name m = js "Sum" -> acceptedType (type m) = true ->
  capabilities m = Some caps -> invocationCommands caps = Some [addCommand] ->
  (registerPlugin m rt).2 = None /\
  getToolDescriptions (registerPlugin m rt).1 !! js "VCPSum" = Some sumEntry /\
  includes (js "- Sum (Sum) - " ++ LABEL_COMMAND ++ js ": add:") sumEntry = true /\
  includes (js "adds two numbers") sumEntry = true /\
  includes (js "add 1 2") sumEntry = true.
Proof.
  intros Hk Hid Hname Hty Hcaps Hcmds.
  destruct (registerPlugin_ok m rt Hk) as (rt' & Hr & _ & Hd & _);
    [by rewrite Hid | by rewrite Hname | done |].
  rewrite Hr. simpl. split; [done|]. split.
  - rewrite Hid in Hd. change (placeholderKey (js "Sum")) with (js "VCPSum") in Hd.
    rewrite Hd. unfold renderPlugin. rewrite Hcaps. simpl. rewrite Hcmds. simpl.
    unfold commandDescription. rewrite Hid, Hname. reflexivity.
  - repeat split; vm_compute; reflexivity.
Qed.

Lemma C2_catalog_entry_amended_witness :
  (registerPlugin (sumManifest direct) newPluginRuntime).2 = None /\
  getToolDescriptions (registerPlugin (sumManifest direct) newPluginRuntime).1
    !! js "VCPSum" = Some sumEntry /\
  includes (js "- Sum (Sum) - " ++ LABEL_COMMAND ++ js ": add:") sumEntry = true /\
  includes (js "adds two numbers") sumEntry = true /\
  includes (js "add 1 2") sumEntry = true.
Proof.
  apply (C2_catalog_entry_amended newPluginRuntime (sumManifest direct)
           {| invocationCommands := Some [addCommand];
              streaming := None; archeryCapable := None |});
    [apply keyedById_empty | reflexivity..].
Defined.
(** *** Bulk registration of distributed tools *)

Lemma registerDistributedTool_emitted sid rt d :
  emitted (registerDistributedTool sid rt d) = emitted rt.
Proof.
  unfold registerDistributedTool.
  destruct (name d); [done|]. destruct (id d); [done|].
  by case_bool_decide.
Qed.

(** A descriptor whose id is taken leaves the runtime as it is. *)
Lemma registerDistributedTool_collision sid rt d :
  is_Some (plugins rt !! id d) -> registerDistributedTool sid rt d = rt.
Proof.
  intros H. unfold registerDistributedTool.
  destruct (name d); [done|]. destruct (id d) eqn:E; [done|].
  by rewrite bool_decide_eq_true_2.
Qed.

(** An id that is taken keeps its plugin and its entry, or absence, in
    the table of distributed tools, whatever descriptor comes. *)
Lemma registerDistributedTool_taken sid rt d k p :
  plugins rt !! k = Some p ->
  plugins (registerDistributedTool sid rt d) !! k = Some p /\
  distributedTools (registerDistributedTool sid rt d) !! k = distributedTools rt !! k.
Proof.
  intros Hk. destruct (decide (id d = k)) as [E|Hne].
  - rewrite registerDistributedTool_collision; [done|]. rewrite E, Hk. eauto.
  - unfold registerDistributedTool.
    destruct (name d); [done|]. destruct (id d) eqn:E; [done|].
    case_bool_decide; [done|]. simpl.
    by rewrite !lookup_insert_ne.
Qed.

Lemma fold_registerDistributedTool_taken sid tools rt k p :
  plugins rt !! k = Some p ->
  let rt' := fold_left (registerDistributedTool sid) tools rt in
  plugins rt' !! k = Some p /\
  distributedTools rt' !! k = distributedTools rt !! k /\
  emitted rt' = emitted rt.
Proof.
  revert rt. induction tools as [|d tools IH]; intros rt Hk; simpl; [done|].
  destruct (registerDistributedTool_taken sid rt d k p Hk) as [Hp Hd].
  destruct (IH _ Hp) as (IH1 & IH2 & IH3).
  rewrite IH1, IH2, IH3, Hd, registerDistributedTool_emitted. done.
Qed.

Lemma registerDistributedTools_keyedById sid tools rt :
  keyedById (plugins rt) -> keyedById (plugins (registerDistributedTools sid tools rt)).
Proof.
  unfold registerDistributedTools. simpl. revert rt.
  induction tools as [|d tools IH]; intros rt Hk; [done|].
  simpl. apply IH. unfold registerDistributedTool.
  destruct (name d); [done|]. destruct (id d) eqn:E; [done|].
  case_bool_decide; [done|]. simpl. rewrite <- E.
  set (m := {| id := id d; name := _; version := _; pluginDescription := _;
               type := _; capabilities := _; serverId := _; placeholders := _ |}).
  change (id d) with (id m). by apply keyedById_insert.
Qed.

(** C4. Let a bulk registration carry, anywhere in its list, a
    descriptor [d] whose id is that of a plugin [p] already in the
    registry.  When the loop reaches [d] it leaves the runtime as it
    is; after the call the registry still has [p] under that id, the
    table of distributed tools has under that id what it had before,
    and no event has been emitted. *)
Theorem C4_bulk_register_skips_collision (sid : jsstring)
    (before after : list PluginManifest) (d p : PluginManifest) (rt : PluginRuntime) :
  plugins rt !! id d = Some p ->
  registerDistributedTool sid (fold_left (registerDistributedTool sid) before rt) d
    = fold_left (registerDistributedTool sid) before rt /\
  plugins (registerDistributedTools sid (before ++ d :: after) rt) !! id d = Some p /\
  distributedTools (registerDistributedTools sid (before ++ d :: after) rt) !! id d
    = distributedTools rt !! id d /\
  emitted (registerDistributedTools sid (before ++ d :: after) rt) = emitted rt.
Proof.
  intros Hp. split.
  - apply registerDistributedTool_collision.
    destruct (fold_registerDistributedTool_taken sid before rt _ _ Hp) as [H _].
    rewrite H. eauto.
  - unfold registerDistributedTools.
    apply (fold_registerDistributedTool_taken sid (before ++ d :: after) rt _ _ Hp).
Qed.

(** A worker advertises "Sum" and "Echo" while "Sum" is registered
    locally. *)
Definition echoManifest : PluginManifest := {|
  id := js "Echo"; name := js "Echo"; version := js "1.0.0";
  pluginDescription := []; type := distributed;
  capabilities := None; serverId := None; placeholders := None
|}.

Definition runtimeWithSum : PluginRuntime :=
  (registerPlugin (sumManifest direct) newPluginRuntime).1.

Lemma C4_bulk_register_skips_collision_witness :
  let rt' := registerDistributedTools (js "dist-1-1700000000000")
               ([echoManifest] ++ sumManifest distributed :: []) runtimeWithSum in
  plugins rt' !! js "Sum" = Some (sumManifest direct) /\
  distributedTools rt' !! js "Sum" = None /\
  emitted rt' = [plugin_registered (sumManifest direct)] /\
  is_Some (distributedTools rt' !! js "Echo").
Proof.
  destruct (C4_bulk_register_skips_collision (js "dist-1-1700000000000")
              [echoManifest] [] (sumManifest distributed) (sumManifest direct)
              runtimeWithSum) as (_ & H1 & H2 & H3).
  - vm_compute. reflexivity.
  - cbv zeta. split; [exact H1|]. split; [exact H2|]. split; [exact H3|].
    vm_compute. eauto.
Defined.
End RuntimeFacts.

(** ** Distributed channel *)

Section ChannelFacts.
Import Channel.

(** Settling a promise touches the table of promises only. *)
Lemma settle_frame p o st :
  pendingRequests (settle p o st) = pendingRequests st /\
  timers (settle p o st) = timers st /\
  nextHandle (settle p o st) = nextHandle st /\
  emitted (settle p o st) = emitted st /\
  distributedServers (settle p o st) = distributedServers st.
Proof. unfold settle. by destruct (promises st !! p) as [[]|]. Qed.

Lemma settle_waiting p o st :
  promises st !! p = Some Waiting -> promises (settle p o st) !! p = Some o.
Proof. intros H. unfold settle. rewrite H. simpl. apply lookup_insert_eq. Qed.

Lemma settle_settled p o st :
  promises st !! p <> Some Waiting -> settle p o st = st.
Proof. intros H. unfold settle. by destruct (promises st !! p) as [[]|]. Qed.

Lemma settle_other p q o st :
  p <> q -> promises (settle p o st) !! q = promises st !! q.
Proof.
  intros H. unfold settle. destruct (promises st !! p) as [[]|]; try done.
  simpl. by rewrite lookup_insert_ne.
Qed.

(** A settled promise is never changed; a waiting one either stays so
    or takes the outcome given. *)
Lemma settle_cases p q o st :
  promises (settle p o st) !! q = promises st !! q \/
  (promises st !! q = Some Waiting /\ promises (settle p o st) !! q = Some o).
Proof.
  destruct (decide (p = q)) as [<-|Hne].
  - destruct (promises st !! p) as [[]|] eqn:H.
    + right. split; [done|]. by apply settle_waiting.
    + left. rewrite settle_settled; [done|]. by rewrite H.
    + left. rewrite settle_settled; [done|]. by rewrite H.
    + left. rewrite settle_settled; [done|]. by rewrite H.
  - left. by apply settle_other.
Qed.

(** *** Closing a session *)

Definition cleanupStep (closed : jsstring) (rid : jsstring)
    (pending : PendingToolRequest) (acc : State) : State :=
  setPending (delete rid)
    (reject (promise pending) (disconnectedError closed)
       (clearTimeout (timeout pending) acc)).

(** What holds of the state [acc] after the callback has run on the
    records [m], having started from [st]. *)
Definition cleaned (closed : jsstring) (st acc : State)
    (m : gmap jsstring PendingToolRequest) : Prop :=
  (forall k, pendingRequests acc !! k =
             match m !! k with Some _ => None | None => pendingRequests st !! k end) /\
  (forall r rec, m !! r = Some rec -> timers acc !! timeout rec = None) /\
  (forall t, timers acc !! t = None \/ timers acc !! t = timers st !! t) /\
  (forall r rec, m !! r = Some rec -> promises st !! promise rec = Some Waiting ->
                 promises acc !! promise rec = Some (Rejected (disconnectedError closed))) /\
  (forall p, promises acc !! p = promises st !! p \/
             (promises st !! p = Some Waiting /\
              promises acc !! p = Some (Rejected (disconnectedError closed)))) /\
  emitted acc = emitted st /\ distributedServers acc = distributedServers st /\
  nextHandle acc = nextHandle st.

Lemma cleanup_cleaned closed st m :
  cleaned closed st (map_fold (cleanupStep closed) st m) m.
Proof.
  apply (map_fold_weak_ind (cleaned closed st)).
  - repeat split; auto.
    + intros k. by rewrite lookup_empty.
    + intros r rec H. by rewrite lookup_empty in H.
  - intros i x m' r Hi (Hp & Ht & Ht' & Hr & Hr' & He & Hs & Hn).
    unfold cleanupStep, reject, clearTimeout.
    set (r1 := setTimers (delete (timeout x)) r).
    destruct (settle_frame (promise x) (Rejected (disconnectedError closed)) r1)
      as (Fp & Ft & Fn & Fe & Fs).
    repeat split.
    + intros k. simpl. rewrite Fp. simpl.
      destruct (decide (i = k)) as [->|Hne].
      * by rewrite lookup_delete_eq, lookup_insert_eq.
      * rewrite lookup_delete_ne, lookup_insert_ne by done. apply Hp.
    + intros k rec Hk. simpl. rewrite Ft. simpl.
      apply lookup_delete_None.
      destruct (decide (i = k)) as [->|Hne].
      * rewrite lookup_insert_eq in Hk. injection Hk as ->. by left.
      * rewrite lookup_insert_ne in Hk by done. right. by eapply Ht.
    + intros t. simpl. rewrite Ft. simpl.
      destruct (decide (timeout x = t)) as [->|Hne].
      * left. apply lookup_delete_eq.
      * rewrite lookup_delete_ne by done. apply Ht'.
    + intros k rec Hk Hw. simpl.
      assert (Hacc : promises r1 !! promise rec = Some Waiting \/
                     promises r1 !! promise rec = Some (Rejected (disconnectedError closed))).
      { destruct (Hr' (promise rec)) as [E|[_ E]]; simpl; rewrite E; auto. }
      destruct (decide (promise x = promise rec)) as [E|Hne].
      * rewrite <- E in *. destruct Hacc as [Hacc|Hacc].
        -- by apply settle_waiting.
        -- rewrite settle_settled; [done|]. rewrite Hacc. done.
      * rewrite settle_other by done. simpl.
        destruct (decide (i = k)) as [->|Hik].
        -- rewrite lookup_insert_eq in Hk. injection Hk as ->. done.
        -- rewrite lookup_insert_ne in Hk by done. by eapply Hr.
    + intros p. simpl.
      destruct (settle_cases (promise x) p (Rejected (disconnectedError closed)) r1)
        as [E|[Ew E]]; rewrite E.
      * apply Hr'.
      * right. split; [|done]. destruct (Hr' p) as [E'|[_ E']]; simpl in *; congruence.
    + simpl. by rewrite Fe.
    + simpl. by rewrite Fs.
    + simpl. by rewrite Fn.
Qed.

Lemma forgetServer_frame sid st :
  pendingRequests (forgetServer sid st) = pendingRequests st /\
  timers (forgetServer sid st) = timers st /\
  promises (forgetServer sid st) = promises st /\
  nextHandle (forgetServer sid st) = nextHandle st.
Proof.
  unfold forgetServer. destruct (distributedServers st !! sid) as [info|]; [|done].
  by destruct (tools info).
Qed.

(** The error of a closed session is a plain [Error]: it has no code. *)
Lemma disconnectedError_plain closed :
  disconnectedError closed
  = JError PlainError None (js "Server " ++ closed ++ js " disconnected") [].
Proof. reflexivity. Qed.

(** C9. When the socket of a session closes ([serverId] being the
    non-empty id the channel gave it), the close handler leaves the table
    of pending requests empty.  Every record that was in the table,
    whichever session its request was sent to, has its timer cleared and
    its promise, if it was still waiting, rejected with the plain [Error]
    "Server <serverId> disconnected", which carries no error code. *)
Theorem C9_close_rejects_all_pending (st : State) (w : nat) (closed : jsstring) :
  sockets st !! w ≫= wsServerId = Some closed -> closed <> [] ->
  pendingRequests (onConnectionClosed w st) = ∅ /\
  (forall r rec, pendingRequests st !! r = Some rec ->
     timers (onConnectionClosed w st) !! timeout rec = None /\
     (promises st !! promise rec = Some Waiting ->
      promises (onConnectionClosed w st) !! promise rec
      = Some (Rejected (JError PlainError None
                          (js "Server " ++ closed ++ js " disconnected") [])))).
Proof.
  intros Hw Hne. unfold onConnectionClosed. rewrite Hw.
  destruct closed as [|c closed']; [done|]. set (closed := c :: closed') in *.
  set (st1 := forgetServer closed st).
  destruct (forgetServer_frame closed st) as (E1 & E2 & E3 & _).
  fold st1 in E1, E2, E3.
  unfold cleanupPendingRequests.
  destruct (cleanup_cleaned closed st1 (pendingRequests st1))
    as (Hp & Ht & _ & Hr & _).
  fold (cleanupStep closed). split.
  - apply map_eq. intros k. rewrite Hp, lookup_empty.
    by destruct (pendingRequests st1 !! k).
  - intros r rec Hrec. rewrite <- E1 in Hrec. split.
    + by eapply Ht.
    + intros Hwait. rewrite <- E3 in Hwait. by eapply Hr.
Qed.
(** Two workers connect; a tool is called on the second one. *)
Definition sessionA : jsstring := generateServerId 1 1700000000000.
Definition sessionB : jsstring := generateServerId 2 1700000000001.

Definition twoSessions : State :=
  run [Connects 0 1 1700000000000; Connects 1 2 1700000000001] newChannel.

Definition slowRequest : jsstring := generateRequestId 1700000000002 (js "k3x9a2b").

Definition slowCall : Input :=
  Execute sessionB (js "Slow") (JObject []) (Some 50%N) 1700000000002 (js "k3x9a2b").

Definition oneCallOpen : State := step twoSessions slowCall.

Lemma oneCallOpen_pending :
  pendingRequests oneCallOpen !! slowRequest
  = Some {| requestId := slowRequest; promise := 0; timeout := 1;
            createdAt := 1700000000002 |} /\
  promises oneCallOpen !! 0 = Some Waiting /\
  sockets oneCallOpen !! 0 ≫= wsServerId = Some sessionA.
Proof. vm_compute. auto. Qed.

Lemma C9_close_rejects_all_pending_witness :
  pendingRequests (onConnectionClosed 0 oneCallOpen) = ∅ /\
  promises (onConnectionClosed 0 oneCallOpen) !! 0
  = Some (Rejected (JError PlainError None
                      (js "Server dist-1-1700000000000 disconnected") [])) /\
  is_Some (distributedServers (onConnectionClosed 0 oneCallOpen) !! sessionB).
Proof.
  destruct oneCallOpen_pending as (Hrec & Hwait & Hsock).
  destruct (C9_close_rejects_all_pending oneCallOpen 0 sessionA Hsock) as [He Hall].
  - vm_compute. discriminate.
  - split; [exact He|]. split.
    + exact (proj2 (Hall _ _ Hrec) Hwait).
    + vm_compute. eauto.
Defined.

(** *** Results of workers *)

(** The [requestId] that [handleToolResult] reads from a frame. *)
Definition frameRequestId (message : JsVal) : JsVal :=
  let data := getField (js "data") message in
  getField (js "requestId") (if truthy data then data else JObject []).

Definition frameResult (message : JsVal) : JsVal :=
  let data := getField (js "data") message in
  getField (js "result") (if truthy data then data else JObject []).

(** A frame without a [requestId] is emitted as [async_tool_result];
    the tables are left alone. *)
Lemma handleToolResult_async sid message st :
  truthy (frameRequestId message) = false ->
  let st' := handleToolResult sid message st in
  emitted st' = emitted st ++
    [async_tool_result sid (if truthy (getField (js "data") message)
                            then getField (js "data") message else message)] /\
  pendingRequests st' = pendingRequests st /\ promises st' = promises st /\
  timers st' = timers st.
Proof.
  intros H. unfold handleToolResult. fold (frameRequestId message). by rewrite H.
Qed.

(** A frame whose [requestId] names a pending request: the timer is
    cleared, the record removed and the promise resolved with the
    [result] field, whatever [status] and [error] say. *)
Lemma handleToolResult_resolves sid message r rec st :
  frameRequestId message = JStr r -> r <> [] ->
  pendingRequests st !! r = Some rec ->
  promises st !! promise rec = Some Waiting ->
  let st' := handleToolResult sid message st in
  promises st' !! promise rec = Some (Fulfilled (frameResult message)) /\
  pendingRequests st' !! r = None /\ timers st' !! timeout rec = None.
Proof.
  intros Hr Hne Hrec Hw. unfold handleToolResult.
  fold (frameRequestId message) (frameResult message). rewrite Hr.
  destruct r as [|c r']; [done|]. simpl. rewrite Hrec. unfold resolve, clearTimeout.
  set (st1 := setPending _ _).
  destruct (settle_frame (promise rec) (Fulfilled (frameResult message)) st1)
    as (Fp & Ft & _).
  split; [by apply settle_waiting|]. rewrite Fp, Ft. simpl.
  by rewrite !lookup_delete_eq.
Qed.

(** The worker reports a failure of the call [slowRequest]. *)
Definition errorFrame : JsVal :=
  JObject [(js "type", JStr (js "tool_result"));
           (js "data", JObject [(js "requestId", JStr slowRequest);
                                (js "status", JStr (js "error"));
                                (js "error", JStr (js "boom"))])].

(** C1, at a frame with [status = "error"]: the pending request of
    [oneCallOpen] is not rejected with the frame's error; its promise is
    fulfilled with [undefined], the frame having no [result].  The record
    is removed and the timer cleared all the same. *)
Theorem C1_error_frame_is_resolved :
  let st' := handleToolResult sessionB errorFrame oneCallOpen in
  promises st' !! 0 = Some (Fulfilled JUndefined) /\
  promises st' !! 0 <> Some (Rejected (JStr (js "boom"))) /\
  pendingRequests st' !! slowRequest = None /\
  timers st' !! 1 = None.
Proof.
  destruct oneCallOpen_pending as (Hrec & Hwait & _).
  assert (Hid : frameRequestId errorFrame = JStr slowRequest) by reflexivity.
  assert (Hne : slowRequest <> []) by discriminate.
  destruct (handleToolResult_resolves sessionB errorFrame slowRequest _ oneCallOpen
              Hid Hne Hrec Hwait) as (H1 & H2 & H3).
  assert (Hres : frameResult errorFrame = JUndefined) by reflexivity.
  rewrite Hres in H1. cbv zeta.
  split; [exact H1|]. split; [|split; [exact H2|exact H3]].
  intros Hrej. pose proof (eq_trans (eq_sym H1) Hrej) as Habs. discriminate Habs.
Qed.
(** *** Timeouts *)

(** Every handle in use was created earlier. *)
Definition wellFormed (st : State) : Prop :=
  (forall t cb, timers st !! t = Some cb ->
                t < nextHandle st /\ cbPromise cb < nextHandle st) /\
  (forall p o, promises st !! p = Some o -> p < nextHandle st) /\
  (forall r rec, pendingRequests st !! r = Some rec ->
                 promise rec < nextHandle st /\ timeout rec < nextHandle st).

(** The call with promise [p] and timer [t] is still open: the timer is
    armed, the promise waits, and no other timer or record refers to
    them. *)
Definition armed (rid : jsstring) (p t : nat) (cb : TimeoutCallback) (st : State) : Prop :=
  wellFormed st /\
  timers st !! t = Some cb /\ promises st !! p = Some Waiting /\
  (forall t' cb', timers st !! t' = Some cb' -> cbPromise cb' = p -> t' = t) /\
  (forall r rec, pendingRequests st !! r = Some rec ->
                 promise rec = p \/ timeout rec = t -> r = rid).

(** Inputs that are neither a result for the request [rid], nor the
    firing of its timer [t], nor the end of a session. *)
Definition quiet (rid : jsstring) (t : nat) (i : Input) : Prop :=
  match i with
  | Closes _ => False
  | ToolResult _ message => frameRequestId message <> JStr rid
  | TimerFires t' => t' <> t
  | Execute _ _ _ _ _ _ | Connects _ _ _ => True
  end.

Lemma wellFormed_new : wellFormed newChannel.
Proof.
  unfold wellFormed. split_and!; intros ? ? H; simpl in H; by rewrite lookup_empty in H.
Qed.

(** [armed] looks at four components of the state only. *)
Lemma armed_ext rid p t cb st st' :
  pendingRequests st' = pendingRequests st -> timers st' = timers st ->
  promises st' = promises st -> nextHandle st' = nextHandle st ->
  armed rid p t cb st -> armed rid p t cb st'.
Proof.
  intros E1 E2 E3 E4. unfold armed, wellFormed. by rewrite E1, E2, E3, E4.
Qed.

Lemma sendToClient_frame w message st :
  pendingRequests (sendToClient w message st) = pendingRequests st /\
  timers (sendToClient w message st) = timers st /\
  promises (sendToClient w message st) = promises st /\
  nextHandle (sendToClient w message st) = nextHandle st.
Proof.
  unfold sendToClient. destruct (sockets st !! w) as [sock|]; [|done].
  by destruct (readyState sock).
Qed.

Lemma armed_settle rid p t cb q o st :
  q <> p -> armed rid p t cb st -> armed rid p t cb (settle q o st).
Proof.
  intros Hq ((Wt & Wp & Wr) & Ht & Hp & Hu & Hr).
  destruct (settle_frame q o st) as (Fp & Ft & Fn & _).
  unfold armed, wellFormed. rewrite Fp, Ft, Fn.
  split_and!; try done.
  - intros x o' Hx. destruct (settle_cases q x o st) as [E|[E _]].
    + rewrite E in Hx. by eapply Wp.
    + by eapply Wp.
  - by rewrite settle_other.
Qed.

Lemma armed_delete_pending rid p t cb r st :
  armed rid p t cb st -> armed rid p t cb (setPending (delete r) st).
Proof.
  intros ((Wt & Wp & Wr) & Ht & Hp & Hu & Hr).
  unfold armed, wellFormed. simpl. split_and!; try done.
  - intros r' rec [_ H]%lookup_delete_Some. by eapply Wr.
  - intros r' rec [_ H]%lookup_delete_Some. by eapply Hr.
Qed.

Lemma armed_delete_timer rid p t cb t' st :
  t' <> t -> armed rid p t cb st -> armed rid p t cb (setTimers (delete t') st).
Proof.
  intros Hne ((Wt & Wp & Wr) & Ht & Hp & Hu & Hr).
  unfold armed, wellFormed. simpl. split_and!; try done.
  - intros x c [_ H]%lookup_delete_Some. by eapply Wt.
  - by rewrite lookup_delete_ne.
  - intros x c [_ H]%lookup_delete_Some. by eapply Hu.
Qed.

(** The three writes of [executeDistributedTool]: a new promise, a new
    timer and the record that ties them to the request id. *)
Definition opened (rid : jsstring) (cb : TimeoutCallback) (now : N) (st : State) : State :=
  setPending (insert rid {| requestId := rid; promise := nextHandle st;
                            timeout := S (nextHandle st); createdAt := now |})
    (setTimers (insert (S (nextHandle st)) cb)
       (setPromises (insert (nextHandle st) Waiting) (allocate st))).

Lemma opened_wellFormed rid cb now st :
  cbPromise cb = nextHandle st -> wellFormed st -> wellFormed (opened rid cb now st).
Proof.
  intros Hcb (Wt & Wp & Wr). unfold wellFormed, opened. simpl. split_and!.
  - intros x c [[<- <-]|[_ H]]%lookup_insert_Some; [lia|]. apply Wt in H. lia.
  - intros x o [[<- _]|[_ H]]%lookup_insert_Some; [lia|]. apply Wp in H. lia.
  - intros r rec [[<- <-]|[_ H]]%lookup_insert_Some; [simpl; lia|]. apply Wr in H. lia.
Qed.

(** The new call is open ... *)
Lemma opened_armed rid cb now st :
  cbPromise cb = nextHandle st -> wellFormed st ->
  armed rid (nextHandle st) (S (nextHandle st)) cb (opened rid cb now st).
Proof.
  intros Hcb W. split; [by apply opened_wellFormed|].
  destruct W as (Wt & Wp & Wr). unfold opened. simpl. split_and!.
  - apply lookup_insert_eq.
  - apply lookup_insert_eq.
  - intros t' cb' [[<- <-]|[_ H]]%lookup_insert_Some Hc; [done|]. apply Wt in H. lia.
  - intros r rec [[<- <-]|[_ H]]%lookup_insert_Some Hc; [done|]. apply Wr in H. lia.
Qed.

(** ... and the calls that were open stay so. *)
Lemma opened_keeps_armed rid p t cb rid' cb' now st :
  cbPromise cb' = nextHandle st ->
  armed rid p t cb st -> armed rid p t cb (opened rid' cb' now st).
Proof.
  intros Hcb (W & Ht & Hp & Hu & Hr). split; [by apply opened_wellFormed|].
  destruct W as (Wt & Wp & Wr).
  assert (Hpn : p < nextHandle st) by (by eapply Wp).
  assert (Htn : t < nextHandle st) by (by eapply Wt).
  unfold opened. simpl. split_and!.
  - rewrite lookup_insert_ne by lia. done.
  - rewrite lookup_insert_ne by lia. done.
  - intros x c [[<- <-]|[_ H]]%lookup_insert_Some Hc; [lia|]. by eapply Hu.
  - intros r rec [[<- <-]|[_ H]]%lookup_insert_Some Hc; [simpl in Hc; lia|]. by eapply Hr.
Qed.

Lemma execute_opened target toolName args timeoutArg now rand info sock st :
  distributedServers st !! target = Some info ->
  sockets st !! ws info = Some sock -> readyState sock = OPEN ->
  exists message,
    executeDistributedTool target toolName args timeoutArg now rand st
    = (sendToClient (ws info) message
         (opened (generateRequestId now rand)
            {| cbRequestId := generateRequestId now rand; cbPromise := nextHandle st;
               cbServerId := target; cbToolName := toolName;
               cbTimeout := default DEFAULT_TIMEOUT timeoutArg |} now st),
       inr (nextHandle st)).
Proof.
  intros Hs Hw Ho. unfold executeDistributedTool. rewrite Hs, Hw. simpl. rewrite Ho.
  eexists. reflexivity.
Qed.

(** Another call takes two new handles and cannot touch [p] or [t]. *)
Lemma armed_execute rid p t cb target toolName args timeoutArg now rand st :
  armed rid p t cb st ->
  armed rid p t cb (executeDistributedTool target toolName args timeoutArg now rand st).1.
Proof.
  intros H.
  destruct (distributedServers st !! target) as [info|] eqn:Hs;
    [|by unfold executeDistributedTool; rewrite Hs].
  destruct (sockets st !! ws info) as [sock|] eqn:Hw;
    [|by unfold executeDistributedTool; rewrite Hs, Hw].
  destruct (readyState sock) eqn:Ho;
    try (by unfold executeDistributedTool; rewrite Hs, Hw; simpl; rewrite Ho).
  destruct (execute_opened target toolName args timeoutArg now rand info sock st Hs Hw Ho)
    as [message ->]. simpl.
  destruct (sendToClient_frame (ws info) message
              (opened (generateRequestId now rand)
                 {| cbRequestId := generateRequestId now rand; cbPromise := nextHandle st;
                    cbServerId := target; cbToolName := toolName;
                    cbTimeout := default DEFAULT_TIMEOUT timeoutArg |} now st))
    as (E1 & E2 & E3 & E4).
  eapply armed_ext; [exact E1|exact E2|exact E3|exact E4|].
  by apply opened_keeps_armed.
Qed.

(** A quiet input leaves the call open. *)
Lemma armed_step rid p t cb st i :
  cbPromise cb = p -> quiet rid t i ->
  armed rid p t cb st -> armed rid p t cb (step st i).
Proof.
  intros Hcb Hq H. destruct i as [target tool args tmo now rand|sid message|t'|w inst now|w];
    simpl in *.
  - by apply armed_execute.
  - unfold handleToolResult. fold (frameRequestId message).
    destruct (truthy (frameRequestId message)); simpl.
    + destruct (frameRequestId message) as [| | | |r| | | |] eqn:Er; try done.
      destruct (pendingRequests st !! r) as [rec|] eqn:Hrec; [|done].
      assert (Hne : r <> rid) by congruence.
      destruct H as (W & Ht & Hp & Hu & Hr).
      assert (Hp' : promise rec <> p).
      { intros E. apply Hne. eapply Hr; [done|]. by left. }
      assert (Ht' : timeout rec <> t).
      { intros E. apply Hne. eapply Hr; [done|]. by right. }
      apply armed_settle; [done|]. apply armed_delete_pending.
      by apply armed_delete_timer.
    + by eapply armed_ext, H.
  - unfold fireTimer. destruct (timers st !! t') as [cb'|] eqn:Hcb'; [|done].
    assert (Hp' : cbPromise cb' <> p).
    { intros E. apply Hq. destruct H as (_ & _ & _ & Hu & _). by eapply Hu. }
    apply armed_settle; [done|]. apply armed_delete_pending.
    by apply armed_delete_timer.
  - unfold onConnectionEstablished.
    set (st2 := setServers _ _). set (msg := JObject _).
    destruct (sendToClient_frame w msg st2) as (E1 & E2 & E3 & E4).
    eapply armed_ext, H; simpl; by rewrite ?E1, ?E2, ?E3, ?E4.
  - done.
Qed.

Lemma armed_run rid p t cb inputs st :
  cbPromise cb = p -> Forall (quiet rid t) inputs ->
  armed rid p t cb st -> armed rid p t cb (run inputs st).
Proof.
  intros Hcb Hq. revert st. induction Hq as [|i inputs Hi _ IH]; intros st H; [done|].
  simpl. apply IH. by apply armed_step.
Qed.

(** The state in which [executeDistributedTool] returns its promise. *)
Lemma execute_armed target toolName args timeoutArg now rand info sock st :
  wellFormed st ->
  distributedServers st !! target = Some info ->
  sockets st !! ws info = Some sock -> readyState sock = OPEN ->
  let rid := generateRequestId now rand in
  let p := nextHandle st in
  let t := S (nextHandle st) in
  let cb := {| cbRequestId := rid; cbPromise := p; cbServerId := target;
               cbToolName := toolName;
               cbTimeout := default DEFAULT_TIMEOUT timeoutArg |} in
  let st1 := (executeDistributedTool target toolName args timeoutArg now rand st).1 in
  (executeDistributedTool target toolName args timeoutArg now rand st).2 = inr p /\
  pendingRequests st1 !! rid
  = Some {| requestId := rid; promise := p; timeout := t; createdAt := now |} /\
  armed rid p t cb st1.
Proof.
  intros W Hs Hw Ho. cbv zeta.
  destruct (execute_opened target toolName args timeoutArg now rand info sock st Hs Hw Ho)
    as [message ->]. simpl.
  set (cb := {| cbRequestId := generateRequestId now rand; cbPromise := nextHandle st;
                cbServerId := target; cbToolName := toolName;
                cbTimeout := default DEFAULT_TIMEOUT timeoutArg |}).
  destruct (sendToClient_frame (ws info) message (opened (generateRequestId now rand) cb now st))
    as (E1 & E2 & E3 & E4).
  split; [done|]. split.
  - rewrite E1. unfold opened. simpl. apply lookup_insert_eq.
  - eapply armed_ext; [exact E1|exact E2|exact E3|exact E4|].
    by apply opened_armed.
Qed.
(** Every state the channel reaches is well formed. *)
Lemma wellFormed_step st i : wellFormed st -> wellFormed (step st i).
Proof.
  intros W. destruct i as [target tool args tmo now rand|sid message|t'|w inst now|w];
    simpl.
  - destruct (distributedServers st !! target) as [info|] eqn:Hs;
      [|by unfold executeDistributedTool; rewrite Hs].
    destruct (sockets st !! ws info) as [sock|] eqn:Hw;
      [|by unfold executeDistributedTool; rewrite Hs, Hw].
    destruct (readyState sock) eqn:Ho;
      try (by unfold executeDistributedTool; rewrite Hs, Hw; simpl; rewrite Ho).
    destruct (execute_opened target tool args tmo now rand info sock st Hs Hw Ho)
      as [message ->]. simpl.
    set (st3 := opened _ _ _ _).
    destruct (sendToClient_frame (ws info) message st3) as (E1 & E2 & E3 & E4).
    unfold wellFormed. rewrite E1, E2, E3, E4. by apply opened_wellFormed.
  - unfold handleToolResult.
    destruct (truthy _); simpl; [|done].
    destruct (getField (js "requestId") _) as [| | | |r| | | |]; try done.
    destruct (pendingRequests st !! r) as [rec|]; [|done].
    destruct W as (Wt & Wp & Wr). unfold resolve, clearTimeout.
    set (st1 := setPending _ _).
    destruct (settle_frame (promise rec) (Fulfilled (getField (js "result")
                (if truthy (getField (js "data") message)
                 then getField (js "data") message else JObject []))) st1)
      as (Fp & Ft & Fn & _).
    unfold wellFormed. rewrite Fp, Ft, Fn. subst st1. simpl. split_and!.
    + intros x c [_ H]%lookup_delete_Some. by eapply Wt.
    + intros x o H.
      destruct (settle_cases (promise rec) x (Fulfilled (getField (js "result")
                  (if truthy (getField (js "data") message)
                   then getField (js "data") message else JObject [])))
                  (setPending (delete r) (setTimers (delete (timeout rec)) st)))
        as [E|[E _]].
      * rewrite E in H. by eapply Wp.
      * by eapply Wp.
    + intros x c [_ H]%lookup_delete_Some. by eapply Wr.
  - unfold fireTimer. destruct (timers st !! t') as [cb'|]; [|done].
    destruct W as (Wt & Wp & Wr). unfold reject.
    set (st1 := setPending _ _).
    destruct (settle_frame (cbPromise cb') (Rejected (timeoutError cb')) st1)
      as (Fp & Ft & Fn & _).
    unfold wellFormed. rewrite Fp, Ft, Fn. subst st1. simpl. split_and!.
    + intros x c [_ H]%lookup_delete_Some. by eapply Wt.
    + intros x o H.
      destruct (settle_cases (cbPromise cb') x (Rejected (timeoutError cb'))
                  (setPending (delete (cbRequestId cb')) (setTimers (delete t') st)))
        as [E|[E _]].
      * rewrite E in H. by eapply Wp.
      * by eapply Wp.
    + intros x c [_ H]%lookup_delete_Some. by eapply Wr.
  - unfold onConnectionEstablished.
    set (st2 := setServers _ _). set (msg := JObject _).
    destruct (sendToClient_frame w msg st2) as (E1 & E2 & E3 & E4).
    unfold wellFormed. simpl. by rewrite E1, E2, E3, E4.
  - unfold onConnectionClosed. simpl.
    destruct (alter _ w (sockets st) !! w ≫= wsServerId) as [[|c sid]|]; try done.
    set (closed := c :: sid).
    set (st0 := setSockets _ st).
    set (st1 := forgetServer closed st0).
    destruct (forgetServer_frame closed st0) as (E1 & E2 & E3 & E4).
    fold st1 in E1, E2, E3, E4. simpl in E1, E2, E3, E4.
    unfold cleanupPendingRequests. fold (cleanupStep closed).
    destruct (cleanup_cleaned closed st1 (pendingRequests st1))
      as (Hp & _ & Ht & _ & Hr & _ & _ & Hn).
    destruct W as (Wt & Wp & Wr). unfold wellFormed. rewrite Hn, E4. split_and!.
    + intros x cb0 H. destruct (Ht x) as [E|E]; rewrite E in H; [done|].
      rewrite E2 in H. by eapply Wt.
    + intros x o H. destruct (Hr x) as [E|[E _]].
      * rewrite E, E3 in H. by eapply Wp.
      * rewrite E3 in E. by eapply Wp.
    + intros r rec H. rewrite Hp in H. by destruct (pendingRequests st1 !! r).
Qed.

Lemma wellFormed_run inputs st : wellFormed st -> wellFormed (run inputs st).
Proof.
  revert st. induction inputs as [|i inputs IH]; intros st W; [done|].
  simpl. apply IH. by apply wellFormed_step.
Qed.

(** C3, amended. A call of [executeDistributedTool] on a connected
    session whose socket is open returns a promise [p] and files a record
    under its request id.  Let any inputs follow that carry no result for
    this request and close no session: other calls, results of other
    requests, other timers, new connections.  The promise then still
    waits, and when the timer of the call fires the record is deleted
    first and the promise is then rejected with a [VCPError] of code
    [DISTRIBUTED_TIMEOUT] whose details are the session id, the tool
    name, the request id and the timeout; the table of pending requests
    has no entry for the request id afterwards. *)
Theorem C3_timeout_rejects (st : State) (target toolName : jsstring) (args : JsVal)
    (timeoutArg : option N) (now : N) (rand : jsstring)
    (info : DistributedServerInfo) (sock : WebSocket) (inputs : list Input) :
  wellFormed st ->
  distributedServers st !! target = Some info ->
  sockets st !! ws info = Some sock -> readyState sock = OPEN ->
  Forall (quiet (generateRequestId now rand) (S (nextHandle st))) inputs ->
  let rid := generateRequestId now rand in
  let ms := default DEFAULT_TIMEOUT timeoutArg in
  let p := nextHandle st in
  let t := S (nextHandle st) in
  let called := executeDistributedTool target toolName args timeoutArg now rand st in
  let later := run inputs called.1 in
  let error :=
    JError VCPErrorClass (Some DISTRIBUTED_TIMEOUT)
      (js "Tool execution timeout after " ++ numToString ms ++ js "ms")
      [(js "serverId", JStr target); (js "toolName", JStr toolName);
       (js "requestId", JStr rid); (js "timeout", JNum (Z.of_N ms))] in
  called.2 = inr p /\
  pendingRequests called.1 !! rid
  = Some {| requestId := rid; promise := p; timeout := t; createdAt := now |} /\
  promises later !! p = Some Waiting /\
  fireTimer t later
  = reject p error (setPending (delete rid) (setTimers (delete t) later)) /\
  pendingRequests (setPending (delete rid) (setTimers (delete t) later)) !! rid = None /\
  promises (fireTimer t later) !! p = Some (Rejected error) /\
  pendingRequests (fireTimer t later) !! rid = None.
Proof.
  intros W Hs Hw Ho Hq. cbv zeta.
  destruct (execute_armed target toolName args timeoutArg now rand info sock st W Hs Hw Ho)
    as (Hret & Hrec & Harmed).
  split; [exact Hret|]. split; [exact Hrec|].
  set (rid := generateRequestId now rand) in *.
  set (cb := {| cbRequestId := rid; cbPromise := nextHandle st; cbServerId := target;
                cbToolName := toolName;
                cbTimeout := default DEFAULT_TIMEOUT timeoutArg |}) in *.
  apply (armed_run _ _ _ _ inputs) in Harmed; [|done|done].
  set (later := run inputs _) in *.
  destruct Harmed as (_ & Ht & Hp & _).
  assert (Herr : timeoutError cb
                 = JError VCPErrorClass (Some DISTRIBUTED_TIMEOUT)
                     (js "Tool execution timeout after "
                        ++ numToString (default DEFAULT_TIMEOUT timeoutArg) ++ js "ms")
                     [(js "serverId", JStr target); (js "toolName", JStr toolName);
                      (js "requestId", JStr rid);
                      (js "timeout", JNum (Z.of_N (default DEFAULT_TIMEOUT timeoutArg)))])
    by reflexivity.
  rewrite <- Herr.
  assert (Hfire : fireTimer (S (nextHandle st)) later
                  = reject (nextHandle st) (timeoutError cb)
                      (setPending (delete rid)
                         (setTimers (delete (S (nextHandle st))) later))).
  { unfold fireTimer. rewrite Ht. reflexivity. }
  rewrite Hfire. split; [exact Hp|]. split; [reflexivity|].
  split; [apply lookup_delete_eq|]. unfold reject.
  destruct (settle_frame (nextHandle st) (Rejected (timeoutError cb))
              (setPending (delete rid) (setTimers (delete (S (nextHandle st))) later)))
    as (Fp & _).
  split.
  - apply settle_waiting. exact Hp.
  - rewrite Fp. apply lookup_delete_eq.
Qed.

(** The fifth scenario of the specification, with the result of another
    request and another call arriving before the timer fires. *)
Definition strayFrame : JsVal :=
  JObject [(js "type", JStr (js "tool_result"));
           (js "data", JObject [(js "requestId", JStr (js "req-0-unknown"));
                                (js "status", JStr (js "success"))])].

Definition otherCall : Input :=
  Execute sessionA (js "Echo") (JObject []) None 1700000000003 (js "q7w1e5r").

Lemma C3_timeout_rejects_witness :
  let later := run [ToolResult sessionA strayFrame; otherCall] oneCallOpen in
  promises later !! 0 = Some Waiting /\
  promises (fireTimer 1 later) !! 0
  = Some (Rejected (JError VCPErrorClass (Some DISTRIBUTED_TIMEOUT)
            (js "Tool execution timeout after 50ms")
            [(js "serverId", JStr sessionB); (js "toolName", JStr (js "Slow"));
             (js "requestId", JStr slowRequest); (js "timeout", JNum 50)])) /\
  pendingRequests (fireTimer 1 later) !! slowRequest = None.
Proof.
  assert (W : wellFormed twoSessions) by (apply wellFormed_run, wellFormed_new).
  destruct (C3_timeout_rejects twoSessions sessionB (js "Slow") (JObject []) (Some 50%N)
              1700000000002 (js "k3x9a2b")
              {| serverId := sessionB; ws := 1; tools := []; serverName := sessionB;
                 connectedAt := 1700000000001; lastActivity := 1700000000001 |}
              {| readyState := OPEN; wsServerId := Some sessionB;
                 sent := [JObject [(js "type", JStr (js "connection_ack"));
                                   (js "data", JObject [(js "serverId", JStr sessionB);
                                      (js "message", JStr (js "Connected to VCP IntelliCore"))])]] |}
              [ToolResult sessionA strayFrame; otherCall] W)
    as (_ & _ & H1 & _ & _ & H2 & H3).
  - vm_compute. reflexivity.
  - vm_compute. reflexivity.
  - reflexivity.
  - repeat constructor. vm_compute. discriminate.
  - cbv zeta. split; [exact H1|]. split; [exact H2|exact H3].
Defined.
(** C3, as stated, fails when another session closes in the meantime.
    The call of [oneCallOpen] was sent to session B, whose worker sends
    nothing; the socket of session A closes; the timer of the call then
    has nothing left to fire.  Session B is still connected with an open
    socket, yet the call has been rejected with the plain [Error] of the
    closed session and not with a [DISTRIBUTED_TIMEOUT] error. *)
Lemma C3_timeout_rejects_counterexample :
  let st := run [Closes 0; TimerFires 1] oneCallOpen in
  (exists info sock,
      distributedServers st !! sessionB = Some info /\
      sockets st !! ws info = Some sock /\ readyState sock = OPEN /\ sent sock <> []) /\
  promises st !! 0
  = Some (Rejected (JError PlainError None
                      (js "Server dist-1-1700000000000 disconnected") [])) /\
  ~ (exists message details,
        promises st !! 0
        = Some (Rejected (JError VCPErrorClass (Some DISTRIBUTED_TIMEOUT) message details))).
Proof.
  cbv zeta.
  assert (H : promises (run [Closes 0; TimerFires 1] oneCallOpen) !! 0
              = Some (Rejected (JError PlainError None
                                  (js "Server dist-1-1700000000000 disconnected") [])))
    by (vm_compute; reflexivity).
  split_and!.
  - eexists _, _. split_and!; [vm_compute; reflexivity..|discriminate].
  - exact H.
  - intros (message & details & H'). rewrite H in H'. discriminate H'.
Qed.
End ChannelFacts.

(** ** File fetcher *)

Section FetcherFacts.
Import Fetcher.

Variable sha256hex : jsstring -> jsstring.
Variable extname : jsstring -> jsstring.
Variable pathJoin : jsstring -> jsstring -> jsstring.
Variable toLowerCase : jsstring -> jsstring.
Variable base64Decode : jsstring -> list N.
Variable cacheDir : jsstring.
Variable distributedServers : option (list (jsstring * Node)).

Local Abbreviation cachedFilePath := (cachedFilePath sha256hex extname pathJoin cacheDir).
Local Abbreviation getMimeType := (getMimeType toLowerCase).
Local Abbreviation saveToCache := (saveToCache sha256hex extname pathJoin cacheDir).
Local Abbreviation askNodes := (askNodes extname toLowerCase base64Decode).
Local Abbreviation fetchFile :=
  (fetchFile sha256hex extname pathJoin toLowerCase base64Decode cacheDir distributedServers).

(** A worker that gives no file for [path]: its socket is not open, it
    never answers, or its answer is not a success with content. *)
Definition declines (path : jsstring) (node : Node) : Prop :=
  nodeOpen node = false \/
  match reply node path with
  | NoReply => True
  | FileResultFrame success content _ => success = false \/ content = []
  end.

(** The servers among [nodes] that a [fetch_file] frame goes to. *)
Definition openServers (nodes : list (jsstring * Node)) : list jsstring :=
  omap (fun n => if nodeOpen n.2 then Some n.1 else None) nodes.

Definition withAsked (extra : list jsstring) (st : State) : State :=
  {| hits := hits st; misses := misses st; disk := disk st;
     asked := asked st ++ extra |}.

Lemma withAsked_nil st : withAsked [] st = st.
Proof. destruct st. unfold withAsked. simpl. by rewrite app_nil_r. Qed.

Lemma withAsked_app a b st : withAsked b (withAsked a st) = withAsked (a ++ b) st.
Proof. unfold withAsked. simpl. by rewrite app_assoc. Qed.

(** The loop passes over the workers that decline. *)
Lemma askNodes_declined path before rest st :
  Forall (fun n => declines path n.2) before ->
  askNodes (before ++ rest) path st
  = askNodes rest path (withAsked (openServers before) st).
Proof.
  intros H. revert st. induction H as [|[sid node] before Hd _ IH]; intros st.
  - simpl. by rewrite withAsked_nil.
  - simpl in *. unfold requestFileFromNode, openServers. simpl.
    destruct Hd as [Hc|Hr].
    + rewrite Hc. rewrite IH. done.
    + destruct (nodeOpen node) eqn:Ho.
      * fold (withAsked [sid] st).
        destruct (reply node path) as [|success content error].
        -- rewrite IH, withAsked_app. done.
        -- destruct Hr as [->| ->].
           ++ rewrite IH, withAsked_app. done.
           ++ destruct success; rewrite IH, withAsked_app; done.
      * rewrite IH. done.
Qed.

Lemma askNodes_all_declined path nodes st :
  Forall (fun n => declines path n.2) nodes ->
  askNodes nodes path st = (withAsked (openServers nodes) st, None).
Proof.
  intros H. rewrite <- (app_nil_r nodes) at 1.
  by rewrite askNodes_declined.
Qed.

(** C8. [fetchFile] on a path, [file://] being cut off first:
    (1) when the cache directory has the file under the key of the path,
        the call returns it with [fromCache = true] and source [local],
        counts a hit, writes nothing and asks no worker;
    (2) otherwise, when the file system has the path, the call returns
        the file with source [local] after [saveToCache], which leaves
        the bytes under the cache key unless the write fails, and no
        worker is asked;
    (3) otherwise the connected workers are asked in order and the first
        one that answers with success and content decides: the decoded
        content is returned with source [distributed];
    (4) when every layer misses, the call throws a [VCPError] with code
        [TOOL_EXECUTION_FAILED] whose message and details name the
        normalized path. *)
Theorem C8_fetch_layers (filePath : jsstring) (st : State) :
  let path := normalize filePath in
  let key := cachedFilePath path in
  let missed := {| hits := hits st; misses := S (misses st); disk := disk st;
                   asked := asked st |} in
  (forall rest, filePath = js "file://" ++ rest -> path = rest) /\
  (forall buf, readFile (disk st) key = Some buf ->
     fetchFile filePath st
     = ({| hits := S (hits st); misses := misses st; disk := disk st; asked := asked st |},
        inr {| buffer := buf; mimeType := getMimeType (extname path);
               size := length buf; fromCache := true; source := local |})) /\
  (forall buf, readFile (disk st) key = None -> readFile (disk st) path = Some buf ->
     (fetchFile filePath st).2
     = inr {| buffer := buf; mimeType := getMimeType (extname path);
              size := length buf; fromCache := false; source := local |} /\
     (fetchFile filePath st).1 = saveToCache path buf missed /\
     asked (fetchFile filePath st).1 = asked st /\
     (writeFails (disk st) key = false ->
      readFile (disk (fetchFile filePath st).1) key = Some buf)) /\
  (forall before sid node after content error,
     readFile (disk st) key = None -> readFile (disk st) path = None ->
     distributedServers = Some (before ++ (sid, node) :: after) ->
     Forall (fun n => declines path n.2) before ->
     nodeOpen node = true -> reply node path = FileResultFrame true content error ->
     content <> [] ->
     (fetchFile filePath st).2
     = inr {| buffer := base64Decode content; mimeType := getMimeType (extname path);
              size := length (base64Decode content); fromCache := false;
              source := distributed |} /\
     asked (fetchFile filePath st).1 = asked st ++ openServers before ++ [sid]) /\
  (readFile (disk st) key = None -> readFile (disk st) path = None ->
   match distributedServers with
   | Some nodes => Forall (fun n => declines path n.2) nodes
   | None => True
   end ->
   (fetchFile filePath st).2
   = inl (JError VCPErrorClass (Some TOOL_EXECUTION_FAILED)
            (js "Failed to fetch file: " ++ path) [(js "filePath", JStr path)])).
Proof.
  cbv zeta. split_and!.
  - intros rest ->. unfold normalize. by rewrite startsWith_app.
  - intros buf Hc. unfold Fetcher.fetchFile, fetchFromCache. by rewrite Hc.
  - intros buf Hc Hl. unfold Fetcher.fetchFile, fetchFromCache, fetchFromLocal.
    rewrite Hc. simpl. rewrite Hl. simpl. split_and!; try done.
    + unfold Fetcher.saveToCache, writeFile. simpl.
      by destruct (writeFails (disk st) _).
    + intros Hw. unfold Fetcher.saveToCache, writeFile. simpl. rewrite Hw. simpl.
      unfold readFile. simpl. apply lookup_insert_eq.
  - intros before sid node after content error Hc Hl Hs Hd Ho Hr Hne.
    unfold Fetcher.fetchFile, fetchFromCache, fetchFromLocal.
    rewrite Hc. simpl. rewrite Hl, Hs.
    assert (Hnodes : exists n ns, before ++ (sid, node) :: after = n :: ns).
    { destruct before; simpl; eauto. }
    destruct Hnodes as (n & ns & Hn). rewrite Hn.
    unfold fetchFromDistributedNode. rewrite <- Hn.
    rewrite askNodes_declined by done. simpl.
    unfold requestFileFromNode. rewrite Ho, Hr.
    destruct content as [|c content]; [done|]. simpl. split; [done|].
    unfold Fetcher.saveToCache, writeFile. simpl.
    destruct (writeFails (disk st) _); simpl; by rewrite <- app_assoc.
  - intros Hc Hl Hs. unfold Fetcher.fetchFile, fetchFromCache, fetchFromLocal.
    rewrite Hc. simpl. rewrite Hl.
    destruct distributedServers as [[|n ns]|] eqn:E; try done.
    unfold fetchFromDistributedNode.
    by rewrite askNodes_all_declined.
Qed.
End FetcherFacts.

(** An instance: a cache directory "/cache", a disk with one file, and
    two workers of which the first is not connected. *)
Section FetcherExample.
Import Fetcher.

Definition exampleHash (path : jsstring) : jsstring := js "k" ++ numToString (N.of_nat (length path)).
Definition exampleExtname (path : jsstring) : jsstring := substringFrom path (length path - 4).
Definition exampleJoin (dir file : jsstring) : jsstring := dir ++ js "/" ++ file.

Definition exampleDisk : FileSystem :=
  {| files := {[ js "/tmp/a.txt" := js "hello" ]}; writeFails := fun _ => false |}.

Definition exampleState : State :=
  {| hits := 0; misses := 0; disk := exampleDisk; asked := [] |}.

Definition offlineNode : Node := {| nodeOpen := false; reply := fun _ => NoReply |}.
Definition servingNode : Node :=
  {| nodeOpen := true; reply := fun _ => FileResultFrame true (js "aGk=") [] |}.

Definition exampleServers : list (jsstring * Node) :=
  [(js "dist-1-1", offlineNode); (js "dist-2-2", servingNode)].

Lemma C8_fetch_layers_witness :
  let fetch servers :=
    fetchFile exampleHash exampleExtname exampleJoin id id (js "/cache") servers in
  (* a file of the disk: read, cached, returned *)
  ((fetch None (js "file:///tmp/a.txt") exampleState).2
   = inr {| buffer := js "hello"; mimeType := js "text/plain"; size := 5;
            fromCache := false; source := local |} /\
   readFile (disk (fetch None (js "file:///tmp/a.txt") exampleState).1)
            (js "/cache/k10.txt") = Some (js "hello")) /\
  (* a file only the second worker has *)
  ((fetch (Some exampleServers) (js "/tmp/b.txt") exampleState).2
   = inr {| buffer := js "aGk="; mimeType := js "text/plain"; size := 4;
            fromCache := false; source := distributed |} /\
   asked (fetch (Some exampleServers) (js "/tmp/b.txt") exampleState).1
   = [js "dist-2-2"]) /\
  (* a file nobody has *)
  (fetch None (js "file:///tmp/b.txt") exampleState).2
  = inl (JError VCPErrorClass (Some TOOL_EXECUTION_FAILED)
           (js "Failed to fetch file: /tmp/b.txt")
           [(js "filePath", JStr (js "/tmp/b.txt"))]).
Proof.
  cbv zeta. split_and!.
  - pose proof (C8_fetch_layers exampleHash exampleExtname exampleJoin id id
                  (js "/cache") None (js "file:///tmp/a.txt") exampleState)
      as (_ & _ & H & _).
    apply (H (js "hello")); vm_compute; reflexivity.
  - pose proof (C8_fetch_layers exampleHash exampleExtname exampleJoin id id
                  (js "/cache") None (js "file:///tmp/a.txt") exampleState)
      as (_ & _ & H & _).
    apply (H (js "hello")); vm_compute; reflexivity.
  - pose proof (C8_fetch_layers exampleHash exampleExtname exampleJoin id id
                  (js "/cache") (Some exampleServers) (js "/tmp/b.txt") exampleState)
      as (_ & _ & _ & H & _).
    apply (H [(js "dist-1-1", offlineNode)] (js "dist-2-2") servingNode [] (js "aGk=") []);
      try (vm_compute; reflexivity).
    + repeat constructor.
    + discriminate.
  - pose proof (C8_fetch_layers exampleHash exampleExtname exampleJoin id id
                  (js "/cache") (Some exampleServers) (js "/tmp/b.txt") exampleState)
      as (_ & _ & _ & H & _).
    apply (H [(js "dist-1-1", offlineNode)] (js "dist-2-2") servingNode [] (js "aGk=") []);
      try (vm_compute; reflexivity).
    + repeat constructor.
    + discriminate.
  - pose proof (C8_fetch_layers exampleHash exampleExtname exampleJoin id id
                  (js "/cache") None (js "file:///tmp/b.txt") exampleState)
      as (_ & _ & _ & _ & H).
    apply H; vm_compute; auto.
Defined.
End FetcherExample.

(** ** Variable engine *)

Section EngineFacts.
Import Engine.

Variable eng : VariableEngine.

Local Abbreviation cap := (maxRecursionDepth (options eng)).
Local Abbreviation pattern := (placeholderPattern (options eng)).

(** *** The call always ends *)

Lemma tryProviders_total recur ps key stack resolved :
  (forall v s, is_Some (recur v s)) ->
  is_Some (tryProviders recur ps key stack resolved).
Proof.
  intros Hrec. revert stack resolved.
  induction ps as [|p ps IH]; intros stack resolved; simpl; [eauto|].
  destruct (resolve p key) as [|v|e]; [apply IH| |].
  - destruct (Hrec v (setAdd key stack)) as [[stack' [v'|e]] ->]; [eauto|].
    destruct (isCircularDependencyError e); [eauto|apply IH].
  - destruct (isCircularDependencyError e); [eauto|apply IH].
Qed.

Lemma forPlaceholders_total recur phs stack replacements :
  (forall v s, is_Some (recur v s)) ->
  is_Some (forPlaceholders eng recur phs stack replacements).
Proof.
  intros Hrec. revert stack replacements.
  induction phs as [|[key full] phs IH]; intros stack replacements; simpl; [eauto|].
  destruct (detectCircular (options eng) && setHas key stack); [eauto|].
  destruct (tryProviders_total recur (providers eng) key stack None Hrec)
    as [[stack' [e|[v|]]] ->]; [eauto|apply IH..].
Qed.

Lemma resolveRecursive_total fuel depth content stack :
  cap - depth <= fuel -> is_Some (resolveRecursive eng fuel depth content stack).
Proof.
  revert depth content stack. induction fuel as [|fuel IH]; intros depth content stack Hf.
  - simpl. destruct (cap <=? depth) eqn:E; [eauto|]. apply Nat.leb_gt in E. lia.
  - simpl. destruct (cap <=? depth) eqn:E; [eauto|]. apply Nat.leb_gt in E.
    destruct (MAX_PLACEHOLDERS <? _); [eauto|].
    destruct (forPlaceholders_total (resolveRecursive eng fuel (S depth))
                (extractPlaceholders pattern content) stack [])
      as [[stack' [e|r]] ->]; [|eauto..].
    intros v s. apply IH. lia.
Qed.

Lemma resolveAll_total content : is_Some (resolveAll eng content).
Proof.
  unfold resolveAll. destruct content as [|c content]; [eauto|].
  destruct (enableRecursion (options eng)); [|eauto].
  destruct (resolveRecursive_total cap 0 (c :: content) []) as [x ->]; [lia|].
  simpl. eauto.
Qed.

(** *** What can be thrown *)

(** Whatever the recursive calls do, the two loops pass on nothing but
    a [CircularDependencyError]. *)
Lemma tryProviders_thrown recur ps key stack resolved stack' e :
  tryProviders recur ps key stack resolved = Some (stack', inl e) ->
  isCircularDependencyError e = true.
Proof.
  revert stack resolved. induction ps as [|p ps IH]; intros stack resolved; simpl; [done|].
  destruct (resolve p key) as [|v|e0]; [apply IH| |].
  - destruct (recur v (setAdd key stack)) as [[stack1 [v'|e1]]|]; [done| |done].
    destruct (isCircularDependencyError e1) eqn:E; [|apply IH].
    by intros [= _ <-].
  - destruct (isCircularDependencyError e0) eqn:E; [|apply IH].
    by intros [= _ <-].
Qed.

Lemma forPlaceholders_thrown recur phs stack replacements stack' e :
  forPlaceholders eng recur phs stack replacements = Some (stack', inl e) ->
  isCircularDependencyError e = true.
Proof.
  revert stack replacements.
  induction phs as [|[key full] phs IH]; intros stack replacements; simpl; [done|].
  destruct (detectCircular (options eng) && setHas key stack).
  { by intros [= _ <-]. }
  destruct (tryProviders recur (providers eng) key stack None)
    as [[stack1 [e1|[v|]]]|] eqn:E; [|apply IH..|done].
  intros [= _ <-]. by eapply tryProviders_thrown.
Qed.

(** Below the cap a call throws a [CircularDependencyError] or the
    error of the placeholder limit; the error of the depth cap, thrown
    one level further down, is caught by the [catch] of the caller. *)
Lemma resolveRecursive_thrown fuel depth content stack stack' e :
  depth < cap ->
  resolveRecursive eng fuel depth content stack = Some (stack', Thrown e) ->
  isCircularDependencyError e = true \/ exists n, e = tooManyError n.
Proof.
  intros Hd. destruct fuel as [|fuel]; simpl;
    (destruct (cap <=? depth) eqn:E; [apply Nat.leb_le in E; lia|]).
  - destruct (MAX_PLACEHOLDERS <? _); [|done]. intros [= _ <-]. eauto.
  - destruct (MAX_PLACEHOLDERS <? _). { intros [= _ <-]. eauto. }
    destruct (forPlaceholders eng _ _ stack []) as [[stack1 [e1|r]]|] eqn:Ef; [|done..].
    intros [= _ <-]. left. by eapply forPlaceholders_thrown.
Qed.

Lemma depth_error_never_escapes content e depth text :
  0 < cap -> resolveAll eng content = Some (Thrown e) -> e <> maxDepthError eng depth text.
Proof.
  intros Hcap. unfold resolveAll. destruct content as [|c content]; [done|].
  destruct (enableRecursion (options eng)); [|done].
  destruct (resolveRecursive eng cap 0 (c :: content) []) as [[stack' o]|] eqn:E; [|done].
  simpl. intros [= ->].
  apply resolveRecursive_thrown in E as [Hc|[n ->]]; [|done|done].
  intros ->. done.
Qed.
End EngineFacts.

Section EngineCycle.
Import Engine.

Variable eng : VariableEngine.

Local Abbreviation cap := (maxRecursionDepth (options eng)).
Local Abbreviation pattern := (placeholderPattern (options eng)).

(** The call at [depth] as [resolveAll] makes it. *)
Definition callAt (depth : nat) : jsstring -> list jsstring -> option (list jsstring * outcome) :=
  resolveRecursive eng (cap - depth) depth.

(** The loop over the providers passes over [ps] for [key], going from
    stack [st] to stack [st']: each of them answers [null], throws
    something that is caught, or gives a value whose resolution throws
    something that is caught. *)
Inductive skips (recur : jsstring -> list jsstring -> option (list jsstring * outcome))
    (key : jsstring) : list IVariableProvider -> list jsstring -> list jsstring -> Prop :=
| skips_nil st : skips recur key [] st st
| skips_null p ps st st' :
    resolve p key = Null -> skips recur key ps st st' ->
    skips recur key (p :: ps) st st'
| skips_throws p ps e st st' :
    resolve p key = Throws e -> isCircularDependencyError e = false ->
    skips recur key ps st st' ->
    skips recur key (p :: ps) st st'
| skips_caught p ps v e st st1 st' :
    resolve p key = Value v ->
    recur v (setAdd key st) = Some (st1, Thrown e) ->
    isCircularDependencyError e = false ->
    skips recur key ps st1 st' ->
    skips recur key (p :: ps) st st'.

(** [encounters depth content stack K stk]: the call
    [resolveRecursive(content, _, stack, depth)] comes, in itself or in
    a call nested in it, to a placeholder with key [K] while [K] is on
    the processing stack, which is [stk] at that moment. *)
Inductive encounters : nat -> jsstring -> list jsstring -> jsstring -> list jsstring -> Prop :=
| encounters_here depth content stack before K full after stk replacements :
    depth < cap ->
    length (extractPlaceholders pattern content) <= MAX_PLACEHOLDERS ->
    extractPlaceholders pattern content = before ++ (K, full) :: after ->
    forPlaceholders eng (callAt (S depth)) before stack [] = Some (stk, inr replacements) ->
    K ∈ stk ->
    encounters depth content stack K stk
| encounters_below depth content stack before key full after st1 replacements
                   ps1 p ps2 st2 v K stk :
    depth < cap ->
    length (extractPlaceholders pattern content) <= MAX_PLACEHOLDERS ->
    extractPlaceholders pattern content = before ++ (key, full) :: after ->
    forPlaceholders eng (callAt (S depth)) before stack [] = Some (st1, inr replacements) ->
    key ∉ st1 ->
    providers eng = ps1 ++ p :: ps2 ->
    skips (callAt (S depth)) key ps1 st1 st2 ->
    resolve p key = Value v ->
    encounters (S depth) v (setAdd key st2) K stk ->
    encounters depth content stack K stk.

Lemma forPlaceholders_app recur before rest stack replacements st1 replacements1 :
  forPlaceholders eng recur before stack replacements = Some (st1, inr replacements1) ->
  forPlaceholders eng recur (before ++ rest) stack replacements
  = forPlaceholders eng recur rest st1 replacements1.
Proof.
  revert stack replacements.
  induction before as [|[key full] before IH]; intros stack replacements; simpl.
  - by intros [= -> ->].
  - destruct (detectCircular (options eng) && setHas key stack); [done|].
    destruct (tryProviders recur (providers eng) key stack None)
      as [[stack' [e|[v|]]]|]; [done|apply IH..|done].
Qed.

Lemma skips_then_circular recur key ps1 p ps2 st st' st'' v e resolved :
  skips recur key ps1 st st' ->
  resolve p key = Value v ->
  recur v (setAdd key st') = Some (st'', Thrown e) ->
  isCircularDependencyError e = true ->
  tryProviders recur (ps1 ++ p :: ps2) key st resolved = Some (st'', inl e).
Proof.
  intros Hs Hp Hr He. revert resolved.
  induction Hs as [st|q ps st st' Hq _ IH|q ps e0 st st' Hq He0 _ IH
                   |q ps v0 e0 st st1 st' Hq Hr0 He0 _ IH]; intros resolved; simpl.
  - by rewrite Hp, Hr, He.
  - rewrite Hq. by apply IH.
  - rewrite Hq, He0. by apply IH.
  - rewrite Hq, Hr0, He0. by apply IH.
Qed.

Lemma setHas_true k s : setHas k s = true <-> k ∈ s.
Proof. unfold setHas. apply bool_decide_eq_true. Qed.

Lemma setHas_false k s : setHas k s = false <-> k ∉ s.
Proof. unfold setHas. apply bool_decide_eq_false. Qed.

(** The error of the check goes up through every enclosing call. *)
Lemma encounters_thrown depth content stack K stk :
  detectCircular (options eng) = true ->
  encounters depth content stack K stk ->
  callAt depth content stack = Some (stk, Thrown (circularError K stk)).
Proof.
  intros Hdet H.
  induction H as [depth content stack before K full after stk replacements
                    Hd Hn Hx Hb HK
                 |depth content stack before key full after st1 replacements
                    ps1 p ps2 st2 v K stk Hd Hn Hx Hb Hkey Hps Hskip Hp _ IH];
    unfold callAt;
    (replace (cap - depth) with (S (cap - S depth)) by lia); simpl;
    (destruct (cap <=? depth) eqn:E; [apply Nat.leb_le in E; lia|]);
    (destruct (MAX_PLACEHOLDERS <? _) eqn:E2; [apply Nat.ltb_lt in E2; lia|]);
    fold (callAt (S depth)); rewrite Hx, (forPlaceholders_app _ _ _ _ _ _ _ Hb); simpl;
    rewrite Hdet; simpl.
  - apply setHas_true in HK. by rewrite HK.
  - apply setHas_false in Hkey. rewrite Hkey, Hps.
    by rewrite (skips_then_circular _ _ _ _ _ _ _ _ _ _ None Hskip Hp IH).
Qed.

(** C5. With recursion and cycle detection on: whenever the resolution
    of a text comes, at any depth, to a key [K] that is on the
    processing stack of the call, [resolveAll] throws a
    [CircularDependencyError] whose message names [K] and whose details
    hold the stack of that moment, joined by " -> ", and [K]; it returns
    no text. *)
Theorem C5_cycle_fails_whole_call (content K : jsstring) (stk : list jsstring) :
  enableRecursion (options eng) = true ->
  detectCircular (options eng) = true ->
  content <> [] ->
  encounters 0 content [] K stk ->
  resolveAll eng content
  = Some (Thrown (JError CircularDependencyErrorClass (Some CIRCULAR_DEPENDENCY)
                    (js "Circular variable reference detected for '" ++ K ++ js "'")
                    [(js "stack", JStr (join (js " -> ") stk)); (js "key", JStr K)])) /\
  forall text, resolveAll eng content <> Some (Returned text).
Proof.
  intros Hrec Hdet Hne H.
  apply encounters_thrown in H; [|done]. unfold callAt in H. rewrite Nat.sub_0_r in H.
  assert (Hall : resolveAll eng content = Some (Thrown (circularError K stk))).
  { unfold resolveAll. destruct content as [|c content]; [done|].
    by rewrite Hrec, H. }
  split; [exact Hall|]. intros text. by rewrite Hall.
Qed.
End EngineCycle.

Section EngineExamples.
Import Engine.

(** The third scenario of the specification: A stands for "{{B}}" and B
    for "{{A}}". *)
Definition cycleProvider : IVariableProvider :=
  PlaceholderProvider [(js "A", js "{{B}}"); (js "B", js "{{A}}")].

Definition cycleEngine : VariableEngine :=
  {| options := DEFAULT_OPTIONS; providers := [cycleProvider] |}.

Lemma cycle_encountered :
  encounters cycleEngine 0 (js "start {{A}} end") [] (js "A") [js "A"; js "B"].
Proof.
  eapply (encounters_below cycleEngine 0 (js "start {{A}} end") [] []
            (js "A") (js "{{A}}") [] [] [] [] cycleProvider [] [] (js "{{B}}")).
  - vm_compute. lia.
  - vm_compute. lia.
  - vm_compute. reflexivity.
  - reflexivity.
  - apply not_elem_of_nil.
  - reflexivity.
  - constructor.
  - vm_compute. reflexivity.
  - eapply (encounters_below cycleEngine 1 (js "{{B}}") [js "A"] []
              (js "B") (js "{{B}}") [] [js "A"] [] [] cycleProvider [] [js "A"] (js "{{A}}")).
    + vm_compute. lia.
    + vm_compute. lia.
    + vm_compute. reflexivity.
    + reflexivity.
    + apply setHas_false. vm_compute. reflexivity.
    + reflexivity.
    + constructor.
    + vm_compute. reflexivity.
    + eapply (encounters_here cycleEngine 2 (js "{{A}}") [js "A"; js "B"] []
                (js "A") (js "{{A}}") [] [js "A"; js "B"] []).
      * vm_compute. lia.
      * vm_compute. lia.
      * vm_compute. reflexivity.
      * reflexivity.
      * apply setHas_true. vm_compute. reflexivity.
Qed.

Lemma C5_cycle_fails_whole_call_witness :
  resolveAll cycleEngine (js "start {{A}} end")
  = Some (Thrown (JError CircularDependencyErrorClass (Some CIRCULAR_DEPENDENCY)
                    (js "Circular variable reference detected for 'A'")
                    [(js "stack", JStr (js "A -> B")); (js "key", JStr (js "A"))])).
Proof.
  apply (C5_cycle_fails_whole_call cycleEngine (js "start {{A}} end") (js "A")
           [js "A"; js "B"]).
  - reflexivity.
  - reflexivity.
  - discriminate.
  - exact cycle_encountered.
Defined.

(** The chain A1 -> "{{A2}}" -> ... -> A(n+1) -> "end". *)
Definition chainKey (i : nat) : jsstring := js "A" ++ numToString (N.of_nat i).

Fixpoint chainFrom (i n : nat) : list (jsstring * jsstring) :=
  match n with
  | 0 => [(chainKey i, js "end")]
  | S n' => (chainKey i, js "{{" ++ chainKey (S i) ++ js "}}") :: chainFrom (S i) n'
  end.

Definition chainEngine (n : nat) : VariableEngine :=
  {| options := DEFAULT_OPTIONS; providers := [PlaceholderProvider (chainFrom 1 n)] |}.

(** Below the cap every chain is expanded to the end. *)
Lemma chain_below_cap :
  Forall (fun n => resolveAll (chainEngine n) (js "{{A1}}") = Some (Returned (js "end")))
         (seq 0 10).
Proof. repeat constructor. Qed.

(** C6, at the chain of length N = 10 = cap: the call does not fail.
    The error of the depth cap is thrown at depth 10 and caught at depth
    9, where the loop goes on with the unexpanded value of A10; the call
    returns "{{A11}}".  Longer chains do the same. *)
Theorem C6_chain_at_cap_is_returned :
  resolveAll (chainEngine 10) (js "{{A1}}") = Some (Returned (js "{{A11}}")) /\
  resolveAll (chainEngine 11) (js "{{A1}}") = Some (Returned (js "{{A11}}")) /\
  resolveAll (chainEngine 25) (js "{{A1}}") = Some (Returned (js "{{A11}}")).
Proof. split_and!; vm_compute; reflexivity. Qed.
End EngineExamples.

(* ===================================================================== *)
(** * Further properties of the code                                      *)
(* ===================================================================== *)

(** ** File fetcher: the cache between calls *)

Section FetcherCache.
Import Fetcher.

Variable sha256hex : jsstring -> jsstring.
Variable extname : jsstring -> jsstring.
Variable pathJoin : jsstring -> jsstring -> jsstring.
Variable toLowerCase : jsstring -> jsstring.
Variable base64Decode : jsstring -> list N.
Variable cacheDir : jsstring.
Variable distributedServers : option (list (jsstring * Node)).

Local Abbreviation cachedFilePath := (cachedFilePath sha256hex extname pathJoin cacheDir).
Local Abbreviation getMimeType := (getMimeType toLowerCase).
Local Abbreviation saveToCache := (saveToCache sha256hex extname pathJoin cacheDir).
Local Abbreviation askNodes := (askNodes extname toLowerCase base64Decode).
Local Abbreviation fetchFile :=
  (fetchFile sha256hex extname pathJoin toLowerCase base64Decode cacheDir distributedServers).

(** Several calls of [fetchFile], one after the other. *)
Definition fetchMany (paths : list jsstring) (st : State) : State :=
  fold_left (fun s p => (fetchFile p s).1) paths st.

Lemma saveToCache_frame path buf st :
  hits (saveToCache path buf st) = hits st /\
  misses (saveToCache path buf st) = misses st /\
  asked (saveToCache path buf st) = asked st /\
  writeFails (disk (saveToCache path buf st)) = writeFails (disk st) /\
  forall p, p <> cachedFilePath path ->
            files (disk (saveToCache path buf st)) !! p = files (disk st) !! p.
Proof.
  unfold Fetcher.saveToCache, writeFile.
  destruct (writeFails (disk st) _); simpl; split_and!; try done.
  intros p Hp. by rewrite lookup_insert_ne.
Qed.

Lemma askNodes_frame nodes path st :
  hits (askNodes nodes path st).1 = hits st /\
  misses (askNodes nodes path st).1 = misses st /\
  disk (askNodes nodes path st).1 = disk st.
Proof.
  revert st. induction nodes as [|[sid node] nodes IH]; intros st; simpl; [done|].
  unfold requestFileFromNode.
  destruct (nodeOpen node); [|apply IH].
  destruct (reply node path) as [|[] [|c content] error]; simpl;
    try done; by destruct (IH {| hits := hits st; misses := misses st; disk := disk st;
                                 asked := asked st ++ [sid] |}) as (-> & -> & ->).
Qed.

(** X1. Every call of [fetchFile] counts once, as a hit or as a miss,
    whether it succeeds or throws; it changes no file but the cache file
    of its path and never changes which writes fail.  After any series
    of calls the two counters have grown together by the number of
    calls. *)
Theorem fetchFile_counts_once (paths : list jsstring) (filePath : jsstring) (st : State) :
  hits (fetchFile filePath st).1 + misses (fetchFile filePath st).1
  = S (hits st + misses st) /\
  (forall p, p <> cachedFilePath (normalize filePath) ->
             files (disk (fetchFile filePath st).1) !! p = files (disk st) !! p) /\
  hits (fetchMany paths st) + misses (fetchMany paths st)
  = hits st + misses st + length paths.
Proof.
  assert (Hone : forall f s,
    hits (fetchFile f s).1 + misses (fetchFile f s).1 = S (hits s + misses s) /\
    (forall p, p <> cachedFilePath (normalize f) ->
               files (disk (fetchFile f s).1) !! p = files (disk s) !! p)).
  { intros f s. unfold Fetcher.fetchFile.
    destruct (fetchFromCache _ _ _ _ _ _ s) as [cached|]; [simpl; split; [lia|done]|].
    set (s1 := {| hits := hits s; misses := S (misses s); disk := disk s; asked := asked s |}).
    destruct (fetchFromLocal _ _ _ s1) as [found|].
    { simpl. destruct (saveToCache_frame (normalize f) (buffer found) s1)
        as (-> & -> & _ & _ & Hf). simpl. split; [lia|exact Hf]. }
    destruct distributedServers as [[|n ns]|]; try (simpl; split; [lia|done]).
    unfold fetchFromDistributedNode.
    destruct (askNodes_frame (n :: ns) (normalize f) s1) as (Eh & Em & Ed).
    destruct (askNodes (n :: ns) (normalize f) s1) as [s2 [got|]]; simpl in *.
    - destruct (saveToCache_frame (normalize f) (buffer got) s2)
        as (-> & -> & _ & _ & Hf). rewrite Eh, Em. split; [lia|].
      intros p Hp. rewrite Hf by done. by rewrite Ed.
    - rewrite Eh, Em, Ed. split; [lia|done]. }
  split; [apply Hone|]. split; [apply Hone|].
  unfold fetchMany. revert st. induction paths as [|p paths IH]; intros st; simpl; [lia|].
  rewrite IH. destruct (Hone p st) as [-> _]. lia.
Qed.

(** X2. A file read from the file system is served from the cache the
    next time, under either spelling of its path (with or without
    [file://]), if the cache write did not fail: the second call returns
    the same bytes with [fromCache = true], counts a hit, and asks no
    worker. *)
Theorem fetch_again_hits_cache (filePath again : jsstring) (st : State) (buf : list N) :
  normalize again = normalize filePath ->
  readFile (disk st) (cachedFilePath (normalize filePath)) = None ->
  readFile (disk st) (normalize filePath) = Some buf ->
  writeFails (disk st) (cachedFilePath (normalize filePath)) = false ->
  let first := (fetchFile filePath st).1 in
  (fetchFile again first).2
  = inr {| buffer := buf; mimeType := getMimeType (extname (normalize filePath));
           size := length buf; fromCache := true; source := local |} /\
  hits (fetchFile again first).1 = S (hits st) /\
  misses (fetchFile again first).1 = S (misses st) /\
  asked (fetchFile again first).1 = asked st /\
  disk (fetchFile again first).1 = disk first.
Proof.
  intros Hn Hc Hl Hw. cbv zeta.
  assert (Hfirst : (fetchFile filePath st).1
                   = {| hits := hits st; misses := S (misses st);
                        disk := {| files := <[cachedFilePath (normalize filePath) := buf]>
                                              (files (disk st));
                                   writeFails := writeFails (disk st) |};
                        asked := asked st |}).
  { unfold Fetcher.fetchFile, fetchFromCache, fetchFromLocal. rewrite Hc. simpl.
    rewrite Hl. simpl. unfold Fetcher.saveToCache, writeFile. simpl. by rewrite Hw. }
  rewrite Hfirst. unfold Fetcher.fetchFile, fetchFromCache, readFile. rewrite Hn.
  simpl. rewrite lookup_insert_eq. simpl. done.
Qed.

(** X3. The same holds for a file a worker delivered: once cached, the
    next call returns the decoded bytes from the cache and no worker is
    asked again. *)
Theorem fetch_again_spares_workers (filePath : jsstring) (st : State)
    (before after : list (jsstring * Node)) (sid : jsstring) (node : Node)
    (content error : jsstring) :
  readFile (disk st) (cachedFilePath (normalize filePath)) = None ->
  readFile (disk st) (normalize filePath) = None ->
  distributedServers = Some (before ++ (sid, node) :: after) ->
  Forall (fun n => declines (normalize filePath) n.2) before ->
  nodeOpen node = true ->
  reply node (normalize filePath) = FileResultFrame true content error ->
  content <> [] ->
  writeFails (disk st) (cachedFilePath (normalize filePath)) = false ->
  let first := (fetchFile filePath st).1 in
  (fetchFile filePath first).2
  = inr {| buffer := base64Decode content;
           mimeType := getMimeType (extname (normalize filePath));
           size := length (base64Decode content); fromCache := true; source := local |} /\
  asked (fetchFile filePath first).1 = asked first /\
  asked first = asked st ++ openServers before ++ [sid].
Proof.
  intros Hc Hl Hs Hd Ho Hr Hne Hw. cbv zeta.
  assert (Hfirst : (fetchFile filePath st).1
                   = {| hits := hits st; misses := S (misses st);
                        disk := {| files := <[cachedFilePath (normalize filePath)
                                              := base64Decode content]> (files (disk st));
                                   writeFails := writeFails (disk st) |};
                        asked := asked st ++ openServers before ++ [sid] |}).
  { unfold Fetcher.fetchFile, fetchFromCache, fetchFromLocal. rewrite Hc. simpl.
    rewrite Hl, Hs.
    assert (Hnodes : exists n ns, before ++ (sid, node) :: after = n :: ns).
    { destruct before; simpl; eauto. }
    destruct Hnodes as (n & ns & Hn). rewrite Hn.
    unfold fetchFromDistributedNode. rewrite <- Hn.
    rewrite askNodes_declined by done. simpl.
    unfold requestFileFromNode. rewrite Ho, Hr.
    destruct content as [|c content]; [done|]. simpl.
    unfold Fetcher.saveToCache, writeFile. simpl. rewrite Hw. simpl.
    by rewrite <- app_assoc. }
  rewrite Hfirst. unfold Fetcher.fetchFile, fetchFromCache, readFile.
  simpl. rewrite lookup_insert_eq. simpl. done.
Qed.
End FetcherCache.

Section FetcherCacheExample.
Import Fetcher.

Lemma fetch_again_hits_cache_witness :
  let fetch := fetchFile exampleHash exampleExtname exampleJoin id id (js "/cache") None in
  (fetch (js "/tmp/a.txt") (fetch (js "file:///tmp/a.txt") exampleState).1).2
  = inr {| buffer := js "hello"; mimeType := js "text/plain"; size := 5;
           fromCache := true; source := local |}.
Proof.
  cbv zeta.
  apply (fetch_again_hits_cache exampleHash exampleExtname exampleJoin id id (js "/cache")
           None (js "file:///tmp/a.txt") (js "/tmp/a.txt") exampleState (js "hello"));
    vm_compute; reflexivity.
Defined.

Lemma fetch_again_spares_workers_witness :
  let fetch := fetchFile exampleHash exampleExtname exampleJoin id id (js "/cache")
                 (Some exampleServers) in
  (fetch (js "/tmp/b.txt") (fetch (js "/tmp/b.txt") exampleState).1).2
  = inr {| buffer := js "aGk="; mimeType := js "text/plain"; size := 4;
           fromCache := true; source := local |} /\
  asked (fetch (js "/tmp/b.txt") (fetch (js "/tmp/b.txt") exampleState).1).1
  = [js "dist-2-2"].
Proof.
  cbv zeta.
  destruct (fetch_again_spares_workers exampleHash exampleExtname exampleJoin id id
              (js "/cache") (Some exampleServers) (js "/tmp/b.txt") exampleState
              [(js "dist-1-1", offlineNode)] [] (js "dist-2-2") servingNode
              (js "aGk=") []) as (H1 & H2 & H3);
    try (vm_compute; reflexivity).
  - repeat constructor.
  - discriminate.
  - split; [exact H1|]. rewrite H2. exact H3.
Defined.
End FetcherCacheExample.

(** ** Distributed channel: the life of a request *)

Section ChannelLifecycle.
Import Channel.

(** Promises, timers and records agree: an armed timer belongs to a
    waiting promise, a waiting promise has an armed timer, no two timers
    share a promise, and every record names an armed timer that carries
    its key and its promise. *)
Definition tidy (st : State) : Prop :=
  (forall t cb, timers st !! t = Some cb ->
                promises st !! cbPromise cb = Some Waiting) /\
  (forall p, promises st !! p = Some Waiting ->
             exists t cb, timers st !! t = Some cb /\ cbPromise cb = p) /\
  (forall t t' cb cb', timers st !! t = Some cb -> timers st !! t' = Some cb' ->
                       cbPromise cb = cbPromise cb' -> t = t') /\
  (forall r rec, pendingRequests st !! r = Some rec ->
                 exists cb, timers st !! timeout rec = Some cb /\
                            cbPromise cb = promise rec /\ cbRequestId cb = r).

Lemma tidy_new : tidy newChannel.
Proof.
  unfold tidy, newChannel; simpl. split_and!.
  - intros t cb H. by rewrite lookup_empty in H.
  - intros p H. by rewrite lookup_empty in H.
  - intros t t' cb cb' H. by rewrite lookup_empty in H.
  - intros r rec H. by rewrite lookup_empty in H.
Qed.

Lemma tidy_ext st st' :
  pendingRequests st' = pendingRequests st -> timers st' = timers st ->
  promises st' = promises st -> tidy st -> tidy st'.
Proof. unfold tidy. by intros -> -> ->. Qed.

(** A new call keeps the tables in agreement. *)
Lemma tidy_opened rid cb now st :
  cbPromise cb = nextHandle st -> cbRequestId cb = rid ->
  wellFormed st -> tidy st -> tidy (opened rid cb now st).
Proof.
  intros Hcb Hrid (Wt & Wp & Wr) (T1 & T2 & T3 & R1). unfold tidy, opened; simpl.
  split_and!.
  - intros t c [[<- <-]|[Hne H]]%lookup_insert_Some.
    + rewrite Hcb. apply lookup_insert_eq.
    + destruct (Wt _ _ H) as [_ Hlt]. rewrite lookup_insert_ne by lia. by eapply T1.
  - intros p [[<- _]|[Hne H]]%lookup_insert_Some.
    + exists (S (nextHandle st)), cb. by rewrite lookup_insert_eq.
    + destruct (T2 _ H) as (t & c & Ht & Hc). exists t, c.
      destruct (Wt _ _ Ht) as [Hlt _]. by rewrite lookup_insert_ne by lia.
  - intros t t' c c' [[<- <-]|[Hne H]]%lookup_insert_Some
                     [[<- <-]|[Hne' H']]%lookup_insert_Some E; try done.
    + destruct (Wt _ _ H') as [_ Hlt]. lia.
    + destruct (Wt _ _ H) as [_ Hlt]. lia.
    + by eapply T3.
  - intros r rec [[<- <-]|[Hne H]]%lookup_insert_Some; simpl.
    + exists cb. by rewrite lookup_insert_eq.
    + destruct (R1 _ _ H) as (c & Ht & Hc & Hr). exists c.
      destruct (Wr _ _ H) as [_ Hlt]. by rewrite lookup_insert_ne by lia.
Qed.

(** The end of a call, by a result or by its timer: the timer [t] goes,
    the record under the request id goes, the promise is settled. *)
Lemma tidy_closed t cb o st st' :
  tidy st -> timers st !! t = Some cb -> o <> Waiting ->
  pendingRequests st' = delete (cbRequestId cb) (pendingRequests st) ->
  timers st' = delete t (timers st) ->
  promises st' = <[cbPromise cb := o]> (promises st) ->
  tidy st'.
Proof.
  intros (T1 & T2 & T3 & R1) Ht Ho Ep Et Er. unfold tidy. rewrite Ep, Et, Er.
  split_and!.
  - intros t' c [Hne H]%lookup_delete_Some.
    rewrite lookup_insert_ne; [by eapply T1|].
    intros E. apply Hne. by eapply T3.
  - intros p H.
    destruct (decide (cbPromise cb = p)) as [<-|Hne].
    { rewrite lookup_insert_eq in H. congruence. }
    rewrite lookup_insert_ne in H by done.
    destruct (T2 _ H) as (t' & c & Ht' & Hc). exists t', c. split; [|done].
    apply lookup_delete_Some. split; [|done]. intros <-. congruence.
  - intros t1 t2 c1 c2 [_ H1]%lookup_delete_Some [_ H2]%lookup_delete_Some.
    by eapply T3.
  - intros r rec [Hne H]%lookup_delete_Some.
    destruct (R1 _ _ H) as (c & Hc & Hp & Hr). exists c. split; [|done].
    apply lookup_delete_Some. split; [|done]. intros E. rewrite <- E in Hc. congruence.
Qed.

(** More of what [cleanupPendingRequests] leaves behind: a timer that
    is gone was cleared for a record, and so was every promise that
    changed. *)
Lemma cleanup_traced closed st m :
  (forall t, timers (map_fold (cleanupStep closed) st m) !! t = None ->
             timers st !! t = None \/ exists r rec, m !! r = Some rec /\ timeout rec = t) /\
  (forall p, promises (map_fold (cleanupStep closed) st m) !! p = promises st !! p \/
             exists r rec, m !! r = Some rec /\ promise rec = p).
Proof.
  apply (map_fold_weak_ind (fun acc m =>
    (forall t, timers acc !! t = None ->
               timers st !! t = None \/ exists r rec, m !! r = Some rec /\ timeout rec = t) /\
    (forall p, promises acc !! p = promises st !! p \/
               exists r rec, m !! r = Some rec /\ promise rec = p))).
  - split; by left.
  - intros i x m' r Hi [Kt Kp].
    unfold cleanupStep, reject, clearTimeout.
    set (r1 := setTimers (delete (timeout x)) r).
    destruct (settle_frame (promise x) (Rejected (disconnectedError closed)) r1)
      as (_ & Ft & _).
    split.
    + intros t. simpl. rewrite Ft. simpl. intros [<-|H]%lookup_delete_None.
      * right. exists i, x. by rewrite lookup_insert_eq.
      * destruct (Kt _ H) as [E|(k & rec & Hk & E)]; [by left|].
        right. exists k, rec. split; [|done].
        rewrite lookup_insert_ne; [done|]. intros <-. congruence.
    + intros p. simpl.
      destruct (decide (promise x = p)) as [<-|Hne].
      * right. exists i, x. by rewrite lookup_insert_eq.
      * rewrite settle_other by done. simpl.
        destruct (Kp p) as [E|(k & rec & Hk & E)]; [by left|].
        right. exists k, rec. split; [|done].
        rewrite lookup_insert_ne; [done|]. intros <-. congruence.
Qed.

Lemma tidy_step st i : wellFormed st -> tidy st -> tidy (step st i).
Proof.
  intros W T. destruct i as [target tool args tmo now rand|sid message|t'|w inst now|w];
    simpl.
  - destruct (distributedServers st !! target) as [info|] eqn:Hs;
      [|by unfold executeDistributedTool; rewrite Hs].
    destruct (sockets st !! ws info) as [sock|] eqn:Hw;
      [|by unfold executeDistributedTool; rewrite Hs, Hw].
    destruct (readyState sock) eqn:Ho;
      try (by unfold executeDistributedTool; rewrite Hs, Hw; simpl; rewrite Ho).
    destruct (execute_opened target tool args tmo now rand info sock st Hs Hw Ho)
      as [message ->]. simpl.
    set (st3 := opened _ _ _ _).
    destruct (sendToClient_frame (ws info) message st3) as (E1 & E2 & E3 & E4).
    apply (tidy_ext st3); try done. by apply tidy_opened.
  - unfold handleToolResult.
    destruct (truthy _); simpl; [|by apply (tidy_ext st)].
    destruct (getField (js "requestId") _) as [| | | |r| | | |]; try done.
    destruct (pendingRequests st !! r) as [rec|] eqn:Hrec; [|done].
    destruct T as (T1 & T2 & T3 & R1).
    destruct (R1 _ _ Hrec) as (cb & Ht & Hp & Hr).
    pose proof (T1 _ _ Ht) as Hwait. rewrite Hp in Hwait.
    unfold resolve, clearTimeout, settle. simpl. rewrite Hwait.
    eapply (tidy_closed (timeout rec) cb (Fulfilled _)); [done|exact Ht| | | |]; simpl.
    + discriminate.
    + by rewrite Hr.
    + done.
    + by rewrite Hp.
  - unfold fireTimer. destruct (timers st !! t') as [cb|] eqn:Ht; [|done].
    destruct T as (T1 & T2 & T3 & R1).
    pose proof (T1 _ _ Ht) as Hwait.
    unfold reject, settle. simpl. rewrite Hwait.
    eapply (tidy_closed t' cb (Rejected _)); [done|exact Ht| | | |]; simpl; done.
  - unfold onConnectionEstablished.
    set (st2 := setServers _ _). set (msg := JObject _).
    destruct (sendToClient_frame w msg st2) as (E1 & E2 & E3 & E4).
    apply (tidy_ext st); simpl; done.
  - unfold onConnectionClosed. simpl.
    destruct (alter _ w (sockets st) !! w ≫= wsServerId) as [[|c sid]|];
      try by apply (tidy_ext st).
    set (closed := c :: sid).
    set (st0 := setSockets _ st).
    set (st1 := forgetServer closed st0).
    destruct (forgetServer_frame closed st0) as (E1 & E2 & E3 & E4).
    fold st1 in E1, E2, E3, E4. simpl in E1, E2, E3, E4.
    assert (T' : tidy st1) by by apply (tidy_ext st).
    unfold cleanupPendingRequests. fold (cleanupStep closed).
    destruct (cleanup_cleaned closed st1 (pendingRequests st1))
      as (Hp & Hc & Ht & Hr & Hr' & _).
    destruct (cleanup_traced closed st1 (pendingRequests st1)) as [Kt Kp].
    set (acc := map_fold (cleanupStep closed) st1 (pendingRequests st1)) in *.
    destruct T' as (T1 & T2 & T3 & R1).
    assert (Hsub : forall t cb, timers acc !! t = Some cb -> timers st1 !! t = Some cb).
    { intros t cb H. destruct (Ht t) as [E|E]; congruence. }
    unfold tidy. split_and!.
    + intros t cb H. pose proof (Hsub _ _ H) as H1. pose proof (T1 _ _ H1) as Hw.
      destruct (Kp (cbPromise cb)) as [E|(r & rec & Hrec & E)]; [congruence|].
      destruct (R1 _ _ Hrec) as (cb' & Ht' & Hp' & _).
      assert (timeout rec = t) by (eapply T3; [exact Ht'|exact H1|congruence]).
      subst t. rewrite (Hc _ _ Hrec) in H. done.
    + intros p H.
      assert (Hw : promises st1 !! p = Some Waiting).
      { destruct (Hr' p) as [E|[_ E]]; congruence. }
      destruct (T2 _ Hw) as (t & cb & Ht1 & Hcb). exists t, cb. split; [|done].
      destruct (timers acc !! t) as [cb'|] eqn:Hacc.
      { destruct (Ht t) as [E|E]; congruence. }
      destruct (Kt _ Hacc) as [E|(r & rec & Hrec & E)]; [congruence|].
      destruct (R1 _ _ Hrec) as (cb' & Ht' & Hp' & _).
      assert (Ep : promise rec = p) by congruence.
      pose proof (Hr _ _ Hrec) as Hrej. rewrite Ep in Hrej.
      rewrite (Hrej Hw) in H. done.
    + intros t t' cb cb' H H'. eapply T3; by apply Hsub.
    + intros r rec H. rewrite Hp in H. by destruct (pendingRequests st1 !! r).
Qed.

Lemma tidy_run inputs st :
  wellFormed st -> tidy st -> wellFormed (run inputs st) /\ tidy (run inputs st).
Proof.
  revert st. induction inputs as [|i inputs IH]; intros st W T; [done|].
  apply IH; [by apply wellFormed_step|by apply tidy_step].
Qed.

(** X4. In a channel that started empty, whatever calls, frames, timer
    events, connections and closes it has seen, a promise that is still
    waiting has an armed timer, and when that timer fires the promise is
    rejected with the timeout error of its call: no call is left waiting
    with nothing to end it. *)
Theorem waiting_promise_has_timer (inputs : list Input) (p : nat) :
  promises (run inputs newChannel) !! p = Some Waiting ->
  exists t cb,
    timers (run inputs newChannel) !! t = Some cb /\ cbPromise cb = p /\
    promises (fireTimer t (run inputs newChannel)) !! p
    = Some (Rejected (timeoutError cb)).
Proof.
  intros H.
  destruct (tidy_run inputs newChannel wellFormed_new tidy_new) as [_ (_ & T2 & _)].
  destruct (T2 _ H) as (t & cb & Ht & Hcb). exists t, cb. split_and!; try done.
  unfold fireTimer. rewrite Ht. unfold reject. rewrite Hcb. by apply settle_waiting.
Qed.

Lemma waiting_promise_has_timer_witness :
  exists t cb,
    timers (run [Connects 0 1 1700000000000; Connects 1 2 1700000000001; slowCall]
              newChannel) !! t = Some cb /\ cbPromise cb = 0 /\
    promises (fireTimer t (run [Connects 0 1 1700000000000; Connects 1 2 1700000000001;
                                slowCall] newChannel)) !! 0
    = Some (Rejected (timeoutError cb)).
Proof.
  apply (waiting_promise_has_timer
           [Connects 0 1 1700000000000; Connects 1 2 1700000000001; slowCall] 0).
  vm_compute. reflexivity.
Defined.

(** X5. In a channel that started empty, a record in the table of
    pending requests is never stale: its promise is still waiting and
    its timer is still armed, and that timer carries the record's key
    and promise. *)
Theorem pending_record_is_live (inputs : list Input) (r : jsstring)
    (rec : PendingToolRequest) :
  pendingRequests (run inputs newChannel) !! r = Some rec ->
  promises (run inputs newChannel) !! promise rec = Some Waiting /\
  exists cb, timers (run inputs newChannel) !! timeout rec = Some cb /\
             cbRequestId cb = r /\ cbPromise cb = promise rec.
Proof.
  intros H.
  destruct (tidy_run inputs newChannel wellFormed_new tidy_new) as [_ (T1 & _ & _ & R1)].
  destruct (R1 _ _ H) as (cb & Ht & Hp & Hr). split; [|by exists cb].
  rewrite <- Hp. by eapply T1.
Qed.

Lemma pending_record_is_live_witness :
  promises (run [Connects 0 1 1700000000000; Connects 1 2 1700000000001; slowCall]
              newChannel) !! 0 = Some Waiting /\
  exists cb, timers (run [Connects 0 1 1700000000000; Connects 1 2 1700000000001;
                          slowCall] newChannel) !! 1 = Some cb /\
             cbRequestId cb = slowRequest /\ cbPromise cb = 0.
Proof.
  apply (pending_record_is_live
           [Connects 0 1 1700000000000; Connects 1 2 1700000000001; slowCall]
           slowRequest
           {| requestId := slowRequest; promise := 0; timeout := 1;
              createdAt := 1700000000002 |}).
  vm_compute. reflexivity.
Defined.




(** A frame for a request id that is not in the table is dropped. *)
Lemma handleToolResult_unknown sid message r st :
  frameRequestId message = JStr r -> r <> [] ->
  pendingRequests st !! r = None -> handleToolResult sid message st = st.
Proof.
  intros Hr Hne Hrec. unfold handleToolResult.
  fold (frameRequestId message). rewrite Hr.
  destruct r as [|c r']; [done|]. simpl. by rewrite Hrec.
Qed.

(** X7. A result that arrives after the timer of its request has fired
    is dropped: the state is left as the timer left it, the promise
    stays rejected. *)
Theorem late_result_is_discarded (st : State) (t : nat) (cb : TimeoutCallback)
    (sid : jsstring) (message : JsVal) :
  timers st !! t = Some cb -> cbRequestId cb <> [] ->
  frameRequestId message = JStr (cbRequestId cb) ->
  handleToolResult sid message (fireTimer t st) = fireTimer t st.
Proof.
  intros Ht Hne Hr. apply (handleToolResult_unknown _ _ (cbRequestId cb)); try done.
  unfold fireTimer. rewrite Ht. unfold reject.
  match goal with
  | |- pendingRequests (settle ?q ?v ?s) !! _ = _ =>
      destruct (settle_frame q v s) as (-> & _)
  end.
  simpl. apply lookup_delete_eq.
Qed.

Lemma late_result_is_discarded_witness :
  handleToolResult sessionB errorFrame (fireTimer 1 oneCallOpen) = fireTimer 1 oneCallOpen.
Proof.
  apply (late_result_is_discarded oneCallOpen 1
           {| cbRequestId := slowRequest; cbPromise := 0; cbServerId := sessionB;
              cbToolName := js "Slow"; cbTimeout := 50 |} sessionB errorFrame).
  - vm_compute. reflexivity.
  - vm_compute. discriminate.
  - vm_compute. reflexivity.
Defined.

(** X8. Once the result of a request has been taken, its timer never
    runs and a second result frame for the same id is dropped: both
    leave the state as it is. *)
Theorem result_disarms_timer (st : State) (r : jsstring) (rec : PendingToolRequest)
    (sid sid' : jsstring) (message message' : JsVal) :
  pendingRequests st !! r = Some rec -> r <> [] ->
  frameRequestId message = JStr r -> frameRequestId message' = JStr r ->
  let st' := handleToolResult sid message st in
  fireTimer (timeout rec) st' = st' /\ handleToolResult sid' message' st' = st'.
Proof.
  intros Hrec Hne Hr Hr'. cbv zeta.
  assert (E : pendingRequests (handleToolResult sid message st) !! r = None /\
              timers (handleToolResult sid message st) !! timeout rec = None).
  { unfold handleToolResult. fold (frameRequestId message). rewrite Hr.
    destruct r as [|c r']; [done|]. simpl. rewrite Hrec. unfold resolve, clearTimeout.
    match goal with
    | |- pendingRequests (settle ?q ?v ?s) !! _ = _ /\ _ =>
        destruct (settle_frame q v s) as (-> & -> & _)
    end.
    simpl. by rewrite !lookup_delete_eq. }
  destruct E as [Ep Et]. split.
  - unfold fireTimer. by rewrite Et.
  - by apply (handleToolResult_unknown _ _ r).
Qed.

Lemma result_disarms_timer_witness :
  let st' := handleToolResult sessionB errorFrame oneCallOpen in
  fireTimer 1 st' = st' /\ handleToolResult sessionA errorFrame st' = st'.
Proof.
  apply (result_disarms_timer oneCallOpen slowRequest
           {| requestId := slowRequest; promise := 0; timeout := 1;
              createdAt := 1700000000002 |} sessionB sessionA errorFrame errorFrame).
  - vm_compute. reflexivity.
  - vm_compute. discriminate.
  - vm_compute. reflexivity.
  - vm_compute. reflexivity.
Defined.

(** X9. After the socket of a session has closed, a call to that
    session is refused with [DISTRIBUTED_CONNECTION_ERROR], "not
    connected", and leaves no trace: no promise, no timer, no record, no
    frame. *)
Theorem execute_after_close_refused (st : State) (w : nat) (sid toolName : jsstring)
    (args : JsVal) (timeoutArg : option N) (now : N) (rand : jsstring) :
  sockets st !! w ≫= wsServerId = Some sid -> sid <> [] ->
  executeDistributedTool sid toolName args timeoutArg now rand (step st (Closes w))
  = (step st (Closes w),
     inl (JError VCPErrorClass (Some DISTRIBUTED_CONNECTION_ERROR)
            (js "Distributed server " ++ sid ++ js " not connected")
            [(js "serverId", JStr sid)])).
Proof.
  intros Hs Hne.
  assert (Hgone : distributedServers (step st (Closes w)) !! sid = None).
  { simpl. unfold onConnectionClosed. simpl. rewrite lookup_alter_eq.
    destruct (sockets st !! w) as [sock|]; [|done]. simpl in *. rewrite Hs.
    destruct sid as [|c sid]; [done|].
    set (st0 := setSockets _ st).
    unfold cleanupPendingRequests. fold (cleanupStep (c :: sid)).
    destruct (cleanup_cleaned (c :: sid) (forgetServer (c :: sid) st0)
                (pendingRequests (forgetServer (c :: sid) st0)))
      as (_ & _ & _ & _ & _ & _ & -> & _).
    unfold forgetServer. destruct (distributedServers st0 !! (c :: sid)) eqn:E; [|done].
    simpl. apply lookup_delete_eq. }
  unfold executeDistributedTool. by rewrite Hgone.
Qed.

Lemma execute_after_close_refused_witness :
  (executeDistributedTool sessionB (js "Slow") (JObject []) None 1700000000009 (js "zzz")
     (step oneCallOpen (Closes 1))).2
  = inl (JError VCPErrorClass (Some DISTRIBUTED_CONNECTION_ERROR)
           (js "Distributed server dist-2-1700000000001 not connected")
           [(js "serverId", JStr sessionB)]).
Proof.
  rewrite (execute_after_close_refused oneCallOpen 1 sessionB (js "Slow") (JObject []) None
             1700000000009 (js "zzz")).
  - reflexivity.
  - vm_compute. reflexivity.
  - vm_compute. discriminate.
Defined.
End ChannelLifecycle.

(** ** Plugin runtime: unloading and the upkeep of the catalog *)

Module RuntimeLifecycle.
Import Runtime.

(** [order.indexOf(name)], then [order.splice(index, 1)] if the name was
    found: the first occurrence is taken out. *)
Fixpoint removeFirst (x : jsstring) (l : list jsstring) : list jsstring :=
  match l with
  | [] => []
  | y :: l' => if eqs y x then l' else y :: removeFirst x l'
  end.

Definition forgetPreprocessor (name : jsstring) (rt : PluginRuntime) : PluginRuntime :=
  {| plugins := plugins rt; distributedTools := distributedTools rt;
     individualPluginDescriptions := individualPluginDescriptions rt;
     messagePreprocessors := delete name (messagePreprocessors rt);
     preprocessorOrder := removeFirst name (preprocessorOrder rt);
     serviceModules := serviceModules rt;
     staticPlaceholderValues := staticPlaceholderValues rt;
     emitted := emitted rt |}.

Definition forgetService (name : jsstring) (rt : PluginRuntime) : PluginRuntime :=
  {| plugins := plugins rt; distributedTools := distributedTools rt;
     individualPluginDescriptions := individualPluginDescriptions rt;
     messagePreprocessors := messagePreprocessors rt;
     preprocessorOrder := preprocessorOrder rt;
     serviceModules := delete name (serviceModules rt);
     staticPlaceholderValues := staticPlaceholderValues rt;
     emitted := emitted rt |}.

(** [unloadPlugin(name)]: an unknown name is logged and nothing more. *)
Definition unloadPlugin (name : jsstring) (rt : PluginRuntime) : PluginRuntime :=
  match plugins rt !! name with
  | None => rt
  | Some plugin =>
      let rt1 := match type plugin with
                 | distributed => setDistributedTools (delete name) rt
                 | preprocessor => forgetPreprocessor name rt
                 | service => forgetService name rt
                 | _ => rt
                 end in
      emit (plugin_unloaded name)
        (rebuildVCPDescriptions (setPlugins (delete name) rt1))
  end.

(** The lookup at the head of [executePlugin]:
    [plugins.get(name) || distributedTools.get(name)]; without a result
    [executePlugin] throws [TOOL_NOT_FOUND], with one it goes on by the
    [type] of the manifest found. *)
Definition findPlugin (name : jsstring) (rt : PluginRuntime) : option PluginManifest :=
  match plugins rt !! name with
  | Some plugin => Some plugin
  | None => distributedTools rt !! name
  end.

(** The calls that change the registry. *)
Inductive Call :=
| Register (manifest : PluginManifest)
| RegisterTools (fromServer : jsstring) (tools : list PluginManifest)
| UnregisterTools (fromServer : jsstring)
| Unload (name : jsstring).

Definition call (rt : PluginRuntime) (c : Call) : PluginRuntime :=
  match c with
  | Register manifest => (registerPlugin manifest rt).1
  | RegisterTools fromServer tools => registerDistributedTools fromServer tools rt
  | UnregisterTools fromServer => unregisterAllDistributedTools fromServer rt
  | Unload name => unloadPlugin name rt
  end.

Definition calls (cs : list Call) (rt : PluginRuntime) : PluginRuntime :=
  fold_left call cs rt.

End RuntimeLifecycle.

Section RuntimeLifecycleFacts.
Import Runtime RuntimeLifecycle.

(** The catalog is the one a rebuild would give. *)
Definition upToDate (rt : PluginRuntime) : Prop :=
  individualPluginDescriptions (rebuildVCPDescriptions rt)
  = individualPluginDescriptions rt.

Lemma upToDate_rebuild rt : upToDate (rebuildVCPDescriptions rt).
Proof. reflexivity. Qed.

Lemma upToDate_emit e rt : upToDate rt -> upToDate (emit e rt).
Proof. done. Qed.

(** Every entry of a rebuilt catalog is the rendering of a plugin. *)
Lemma rebuild_entry rt key d :
  individualPluginDescriptions (rebuildVCPDescriptions rt) !! key = Some d ->
  exists k p, plugins rt !! k = Some p /\ key = placeholderKey (id p) /\
              renderPlugin p = Some d.
Proof.
  unfold rebuildVCPDescriptions. simpl. generalize (plugins rt). clear rt. intros m.
  set (f := fun (_ : jsstring) (plugin : PluginManifest) (acc : gmap jsstring jsstring) =>
              match renderPlugin plugin with
              | Some fullDescription => <[placeholderKey (id plugin) := fullDescription]> acc
              | None => acc
              end).
  refine (map_fold_weak_ind
            (fun acc m => acc !! key = Some d ->
               exists k p, m !! k = Some p /\ key = placeholderKey (id p) /\
                           renderPlugin p = Some d) f ∅ _ _ m).
  - intros H. by rewrite lookup_empty in H.
  - intros i x m' r Hi IH H.
    assert (Hold : r !! key = Some d ->
                   exists k p, <[i:=x]> m' !! k = Some p /\ key = placeholderKey (id p) /\
                               renderPlugin p = Some d).
    { intros Hr. destruct (IH Hr) as (k & p & Hk & E & Hd). exists k, p.
      split; [|done]. rewrite lookup_insert_ne; [done|]. intros <-. congruence. }
    unfold f in H. destruct (renderPlugin x) as [dx|] eqn:Er; [|by apply Hold].
    apply lookup_insert_Some in H as [[<- <-]|[_ H]]; [|by apply Hold].
    exists i, x. by rewrite lookup_insert_eq.
Qed.

Lemma keyedById_delete m k : keyedById m -> keyedById (delete k m).
Proof. intros H j p [_ Hj]%lookup_delete_Some. by apply H. Qed.

Lemma unloadPlugin_plugins name rt :
  plugins (unloadPlugin name rt) = delete name (plugins rt).
Proof.
  unfold unloadPlugin. destruct (plugins rt !! name) as [p|] eqn:E.
  - by destruct (type p).
  - by rewrite delete_id.
Qed.

Lemma unloadPlugin_upToDate name rt : upToDate rt -> upToDate (unloadPlugin name rt).
Proof. unfold unloadPlugin. by destruct (plugins rt !! name). Qed.

Lemma registerPlugin_upToDate m rt : upToDate rt -> upToDate (registerPlugin m rt).1.
Proof.
  unfold registerPlugin. destruct (validateManifest m); [done|].
  by destruct (registerByType m rt).
Qed.

Lemma unregisterAll_upToDate sid rt :
  upToDate rt -> upToDate (unregisterAllDistributedTools sid rt).
Proof. unfold unregisterAllDistributedTools. by case_bool_decide. Qed.

Lemma unregisterAll_keyedById sid rt :
  keyedById (plugins rt) -> keyedById (plugins (unregisterAllDistributedTools sid rt)).
Proof.
  unfold unregisterAllDistributedTools. case_bool_decide; [done|]. simpl.
  intros K k p [Hk _]%lookup_difference_Some. by apply K.
Qed.

Lemma call_keeps rt c :
  keyedById (plugins rt) -> upToDate rt ->
  keyedById (plugins (call rt c)) /\ upToDate (call rt c).
Proof.
  intros K U. destruct c as [m|sid tools|sid|name]; simpl.
  - split; [by apply registerPlugin_keyedById|by apply registerPlugin_upToDate].
  - split; [by apply registerDistributedTools_keyedById|apply upToDate_rebuild].
  - split; [by apply unregisterAll_keyedById|by apply unregisterAll_upToDate].
  - split; [|by apply unloadPlugin_upToDate].
    rewrite unloadPlugin_plugins. by apply keyedById_delete.
Qed.

Lemma calls_keep cs rt :
  keyedById (plugins rt) -> upToDate rt ->
  keyedById (plugins (calls cs rt)) /\ upToDate (calls cs rt).
Proof.
  revert rt. induction cs as [|c cs IH]; intros rt K U; [done|].
  simpl. destruct (call_keeps rt c K U). by apply IH.
Qed.

(** X10. The catalog follows the registry.  After any series of
    registrations, bulk registrations, bulk removals and unloads on a new
    runtime, successful or not, the catalog has an entry [d] under a key
    exactly when the registry holds a plugin, under its own id, whose key
    is [VCP<id>] and whose rendering is [d]: no entry is stale, none is
    missing. *)
Theorem catalog_follows_registry (cs : list Call) (key d : jsstring) :
  getToolDescriptions (calls cs newPluginRuntime) !! key = Some d <->
  exists p, plugins (calls cs newPluginRuntime) !! id p = Some p /\
            key = placeholderKey (id p) /\ renderPlugin p = Some d.
Proof.
  destruct (calls_keep cs newPluginRuntime) as [K U].
  { apply keyedById_empty. }
  { reflexivity. }
  unfold getToolDescriptions. rewrite <- U. split.
  - intros H. destruct (rebuild_entry _ _ _ H) as (k & p & Hk & E & Hd).
    exists p. pose proof (K _ _ Hk) as Ek. rewrite Ek. by rewrite <- Ek at 2.
  - intros (p & Hp & -> & Hd). rewrite rebuild_lookup by done. by rewrite Hp.
Qed.

Lemma removeFirst_snoc x l : x ∉ l -> removeFirst x (l ++ [x]) = l.
Proof.
  induction l as [|y l IH]; simpl; intros H.
  - by rewrite (proj2 (eqs_true x x) eq_refl).
  - apply not_elem_of_cons in H as [Hne Hl].
    rewrite (proj2 (eqs_false y x)) by done. by rewrite IH.
Qed.

(** A manifest that passes [validateManifest] and has one of the six
    types is stored. *)
Lemma registerPlugin_stored m rt :
  id m <> [] -> name m <> [] -> acceptedType (type m) = true ->
  exists rt1, registerByType m rt = inr rt1 /\
    registerPlugin m rt
    = (emit (plugin_registered m)
         (rebuildVCPDescriptions (setPlugins (insert (id m) m) rt1)), None).
Proof.
  intros Hid Hname Hty. unfold registerPlugin.
  assert (Hv : validateManifest m = None).
  { unfold validateManifest. destruct (id m); [done|]. destruct (name m); [done|].
    by destruct (type m). }
  rewrite Hv. unfold registerByType.
  destruct (type m); try discriminate; eexists; split; reflexivity.
Qed.

(** X11. Unloading undoes a registration.  If a valid manifest of a
    known type is registered under an id that the runtime does not use
    (in the registry, among the distributed tools, the preprocessors and
    their order, the services) and is then unloaded, the registry, the
    table of distributed tools, the catalog, the preprocessors with
    their order and the services are as before; the two events were
    emitted.  The static placeholder values are not part of this: what
    the registration put there stays. *)
Theorem unload_undoes_register (rt : PluginRuntime) (m : PluginManifest) :
  id m <> [] -> name m <> [] -> acceptedType (type m) = true ->
  plugins rt !! id m = None -> distributedTools rt !! id m = None ->
  messagePreprocessors rt !! id m = None -> serviceModules rt !! id m = None ->
  id m ∉ preprocessorOrder rt -> upToDate rt ->
  let rt1 := (registerPlugin m rt).1 in
  let rt2 := unloadPlugin (id m) rt1 in
  plugins rt2 = plugins rt /\ distributedTools rt2 = distributedTools rt /\
  individualPluginDescriptions rt2 = individualPluginDescriptions rt /\
  messagePreprocessors rt2 = messagePreprocessors rt /\
  preprocessorOrder rt2 = preprocessorOrder rt /\
  serviceModules rt2 = serviceModules rt /\
  staticPlaceholderValues rt2 = staticPlaceholderValues rt1 /\
  emitted rt2 = emitted rt ++ [plugin_registered m; plugin_unloaded (id m)].
Proof.
  intros Hid Hname Hty Hp Hd Hm Hs Ho U. cbv zeta.
  destruct (registerPlugin_stored m rt Hid Hname Hty) as (rt1 & Hrt1 & ->).
  assert (Hplugins : plugins rt1 = plugins rt) by by eapply registerByType_plugins.
  unfold unloadPlugin. cbn [fst emit rebuildVCPDescriptions setDescriptions setPlugins plugins].
  rewrite lookup_insert_eq.
  assert (Hback : delete (id m) (<[id m := m]> (plugins rt1)) = plugins rt).
  { rewrite Hplugins. by apply delete_insert_id. }
  unfold registerByType in Hrt1.
  destruct (type m) eqn:Ety; try discriminate; injection Hrt1 as <-;
    unfold registerDistributedPlugin in *;
    try destruct (capabilities m ≫= invocationCommands);
    cbn [emit rebuildVCPDescriptions setDescriptions setPlugins setDistributedTools
         forgetPreprocessor forgetService registerPreprocessorPlugin registerServicePlugin
         registerStaticPlugin plugins distributedTools individualPluginDescriptions
         messagePreprocessors preprocessorOrder serviceModules staticPlaceholderValues
         emitted] in *;
    rewrite ?Hback, ?U; split_and!; try done; try (by rewrite <- app_assoc);
    try (by apply delete_insert_id); try (by apply delete_id);
    by apply removeFirst_snoc.
Qed.

(** A static plugin that provides one placeholder value. *)
Definition clockManifest : PluginManifest := {|
  id := js "Clock"; name := js "Clock"; version := js "1.0.0";
  pluginDescription := []; type := static;
  capabilities := Some {| invocationCommands := Some [addCommand];
                          streaming := None; archeryCapable := None |};
  serverId := None; placeholders := Some [(js "Now", js "12:00")]
|}.

Lemma unload_undoes_register_witness :
  let rt2 := unloadPlugin (id clockManifest)
               (registerPlugin clockManifest runtimeWithSum).1 in
  plugins rt2 = plugins runtimeWithSum /\
  individualPluginDescriptions rt2 = individualPluginDescriptions runtimeWithSum /\
  staticPlaceholderValues rt2 !! js "Now" = Some (js "12:00").
Proof.
  assert (U : upToDate runtimeWithSum) by (vm_compute; reflexivity).
  assert (O : id clockManifest ∉ preprocessorOrder runtimeWithSum)
    by (vm_compute; apply not_elem_of_nil).
  destruct (unload_undoes_register runtimeWithSum clockManifest
              ltac:(discriminate) ltac:(discriminate) eq_refl
              ltac:(vm_compute; reflexivity) ltac:(vm_compute; reflexivity)
              ltac:(vm_compute; reflexivity) ltac:(vm_compute; reflexivity) O U)
    as (H1 & _ & H3 & _ & _ & _ & H7 & _).
  cbv zeta. split; [exact H1|]. split; [exact H3|]. rewrite H7. vm_compute. reflexivity.
Defined.

(** X12. An unloaded name can still be found for execution.  Let a
    distributed manifest with invocation commands be registered with
    [registerPlugin], then a manifest of another type under the same id,
    and let that id be unloaded.  The registry no longer has the id, but
    the table of distributed tools still has the first manifest, and the
    lookup of [executePlugin], which falls back on that table, finds it:
    the call is routed to the distributed executor instead of failing
    with [TOOL_NOT_FOUND]. *)
Theorem unloaded_name_still_found (rt : PluginRuntime) (m m' : PluginManifest) :
  id m <> [] -> name m <> [] -> type m = distributed ->
  is_Some (capabilities m ≫= invocationCommands) ->
  id m' = id m -> name m' <> [] ->
  acceptedType (type m') = true -> type m' <> distributed ->
  let rt3 := unloadPlugin (id m) (registerPlugin m' (registerPlugin m rt).1).1 in
  plugins rt3 !! id m = None /\
  distributedTools rt3 !! id m = Some m /\
  findPlugin (id m) rt3 = Some m.
Proof.
  intros Hid Hname Hty [cmds Hcmds] Hid' Hname' Hacc Hty'. cbv zeta.
  destruct (registerPlugin_stored m rt Hid Hname) as (rt1 & Hrt1 & ->);
    [by rewrite Hty|].
  unfold registerByType in Hrt1. rewrite Hty in Hrt1. injection Hrt1 as <-.
  cbn [fst]. set (rta := emit _ _).
  assert (Hda : distributedTools rta !! id m = Some m).
  { subst rta. unfold registerDistributedPlugin. rewrite Hcmds. simpl.
    apply lookup_insert_eq. }
  clearbody rta.
  destruct (registerPlugin_stored m' rta) as (rt1' & Hrt1' & ->); try done.
  { by rewrite Hid'. }
  assert (Hdb : distributedTools rt1' = distributedTools rta).
  { unfold registerByType in Hrt1'.
    destruct (type m'); try done; by injection Hrt1' as <-. }
  assert (Hpb : plugins rt1' = plugins rta) by by eapply registerByType_plugins.
  cbn [fst]. set (rtb := emit _ _).
  assert (Hlook : plugins rtb !! id m = Some m').
  { subst rtb. simpl. rewrite Hid'. apply lookup_insert_eq. }
  assert (Hdt : distributedTools rtb !! id m = Some m).
  { subst rtb. cbn [emit rebuildVCPDescriptions setDescriptions setPlugins distributedTools].
    by rewrite Hdb. }
  clearbody rtb.
  assert (E : plugins (unloadPlugin (id m) rtb) !! id m = None /\
              distributedTools (unloadPlugin (id m) rtb) !! id m = Some m).
  { rewrite unloadPlugin_plugins, lookup_delete_eq. split; [done|].
    unfold unloadPlugin. rewrite Hlook.
    destruct (type m'); try done; simpl; exact Hdt. }
  destruct E as [E1 E2]. split; [done|]. split; [done|].
  unfold findPlugin. by rewrite E1.
Qed.

Lemma unloaded_name_still_found_witness :
  findPlugin (js "Sum")
    (unloadPlugin (js "Sum")
       (registerPlugin (sumManifest direct)
          (registerPlugin (sumManifest distributed) newPluginRuntime).1).1)
  = Some (sumManifest distributed).
Proof.
  apply (unloaded_name_still_found newPluginRuntime (sumManifest distributed)
           (sumManifest direct)); done.
Defined.

Lemma runtime_eq (a b : PluginRuntime) :
  plugins a = plugins b -> distributedTools a = distributedTools b ->
  individualPluginDescriptions a = individualPluginDescriptions b ->
  messagePreprocessors a = messagePreprocessors b ->
  preprocessorOrder a = preprocessorOrder b -> serviceModules a = serviceModules b ->
  staticPlaceholderValues a = staticPlaceholderValues b -> emitted a = emitted b ->
  a = b.
Proof. destruct a, b; simpl; intros; by subst. Qed.

Lemma rebuild_ext a b :
  plugins a = plugins b ->
  individualPluginDescriptions (rebuildVCPDescriptions a)
  = individualPluginDescriptions (rebuildVCPDescriptions b).
Proof. unfold rebuildVCPDescriptions. simpl. by intros ->. Qed.

(** One descriptor of a bulk registration is skipped or stored, with the
    [serverId] of the worker, under an id that was free. *)
Lemma registerDistributedTool_cases sid rt d :
  registerDistributedTool sid rt d = rt \/
  (plugins rt !! id d = None /\
   exists p, serverId p = Some sid /\
     registerDistributedTool sid rt d
     = setPlugins (insert (id d) p) (setDistributedTools (insert (id d) p) rt)).
Proof.
  unfold registerDistributedTool. destruct (name d); [by left|].
  destruct (id d); [by left|]. case_bool_decide as Hin; [by left|]. right.
  split; [|eexists; split; [|reflexivity]; reflexivity].
  destruct (plugins rt !! _) eqn:E; [|done]. exfalso. apply Hin. eauto.
Qed.

(** What a bulk registration has changed when its loop ends: some ids
    that were free now hold a manifest of the worker, in the registry and
    among the distributed tools alike. *)
Definition grown (sid : jsstring) (rt rt' : PluginRuntime) : Prop :=
  (forall k,
     (plugins rt' !! k = plugins rt !! k /\
      distributedTools rt' !! k = distributedTools rt !! k) \/
     (plugins rt !! k = None /\
      exists p, plugins rt' !! k = Some p /\ distributedTools rt' !! k = Some p /\
                serverId p = Some sid)) /\
  individualPluginDescriptions rt' = individualPluginDescriptions rt /\
  messagePreprocessors rt' = messagePreprocessors rt /\
  preprocessorOrder rt' = preprocessorOrder rt /\
  serviceModules rt' = serviceModules rt /\
  staticPlaceholderValues rt' = staticPlaceholderValues rt /\
  emitted rt' = emitted rt.

Lemma fold_registerDistributedTool_grown sid tools rt :
  grown sid rt (fold_left (registerDistributedTool sid) tools rt).
Proof.
  induction tools as [|d tools IH] using rev_ind.
  - unfold grown. simpl. split_and!; try done. intros k. by left.
  - rewrite fold_left_app. simpl.
    set (rt' := fold_left (registerDistributedTool sid) tools rt) in *.
    destruct (registerDistributedTool_cases sid rt' d) as [->|(Hfree & p & Hp & ->)];
      [done|].
    destruct IH as (Hk & H2 & H3 & H4 & H5 & H6 & H7).
    unfold grown. simpl. split_and!; try done.
    intros k. destruct (decide (id d = k)) as [<-|Hne].
    + right. rewrite !lookup_insert_eq. split; [|by exists p].
      destruct (Hk (id d)) as [[E _]|(_ & q & Hq & _)]; congruence.
    + rewrite !lookup_insert_ne by done. apply Hk.
Qed.

(** X13. Removing the tools of a worker undoes their bulk
    registration.  If no plugin of the registry carries the worker's
    [serverId], every distributed tool is in the registry and the catalog
    is up to date, then [registerDistributedTools] followed by
    [unregisterAllDistributedTools] for the same worker gives back the
    runtime as it was, whatever the list of descriptors: plugins that were
    there are kept, also those whose id a descriptor wanted. *)
Theorem unregister_undoes_bulk_register (sid : jsstring) (tools : list PluginManifest)
    (rt : PluginRuntime) :
  filter (fun kv => serverId kv.2 = Some sid) (plugins rt) = ∅ ->
  filter (fun kv => plugins rt !! kv.1 = None) (distributedTools rt) = ∅ ->
  upToDate rt ->
  unregisterAllDistributedTools sid (registerDistributedTools sid tools rt) = rt.
Proof.
  intros Hnone Hsub U.
  assert (H1 : forall k p, plugins rt !! k = Some p -> serverId p <> Some sid).
  { intros k p Hk E.
    assert (Hin : filter (fun kv => serverId kv.2 = Some sid) (plugins rt) !! k = Some p)
      by by apply map_lookup_filter_Some_2.
    rewrite Hnone in Hin. by rewrite lookup_empty in Hin. }
  assert (H2 : forall k, plugins rt !! k = None -> distributedTools rt !! k = None).
  { intros k Hk. destruct (distributedTools rt !! k) as [p|] eqn:E; [|done].
    assert (Hin : filter (fun kv => plugins rt !! kv.1 = None) (distributedTools rt) !! k
                  = Some p) by by apply map_lookup_filter_Some_2.
    rewrite Hsub in Hin. by rewrite lookup_empty in Hin. }
  unfold registerDistributedTools.
  destruct (fold_registerDistributedTool_grown sid tools rt)
    as (Hk & E3 & E4 & E5 & E6 & E7 & E8).
  set (rt' := fold_left (registerDistributedTool sid) tools rt) in *.
  unfold unregisterAllDistributedTools.
  cbn [rebuildVCPDescriptions setDescriptions plugins].
  set (owned := filter (fun kv => serverId kv.2 = Some sid) (plugins rt')).
  assert (Howned : forall k, owned !! k = None <-> plugins rt' !! k = plugins rt !! k).
  { intros k. unfold owned. rewrite map_lookup_filter_None.
    destruct (Hk k) as [[E _]|(Hfree & p & Hp & _ & Hs)].
    - split; [done|]. intros _. rewrite E.
      destruct (plugins rt !! k) as [q|] eqn:Hq; [|by left].
      right. intros x [= <-]. simpl. by eapply H1.
    - rewrite Hp, Hfree. split; [|done]. intros [?|Hno]; [done|].
      exfalso. by apply (Hno p). }
  assert (Hplugins : plugins rt' ∖ owned = plugins rt).
  { apply map_eq. intros k. destruct (owned !! k) as [q|] eqn:Ho.
    - assert (Hrm : (plugins rt' ∖ owned) !! k = None)
        by (apply lookup_difference_None; right; eauto).
      rewrite Hrm.
      destruct (Hk k) as [[E _]|(Hfree & _)]; [|done].
      apply map_lookup_filter_Some in Ho as [Hq Hs]. simpl in Hs.
      rewrite E in Hq. exfalso. by eapply H1.
    - pose proof (proj1 (Howned k) Ho) as E. rewrite <- E.
      destruct (plugins rt' !! k) as [q|] eqn:Hq.
      + by apply lookup_difference_Some.
      + apply lookup_difference_None. by left. }
  assert (Htools : filter (fun kv => owned !! kv.1 = None) (distributedTools rt')
                   = distributedTools rt).
  { apply map_eq. intros k. destruct (Hk k) as [[E E']|(Hfree & p & Hp & Hd & Hs)].
    - rewrite <- E'. destruct (distributedTools rt' !! k) as [q|] eqn:Hq.
      + apply map_lookup_filter_Some. split; [done|]. simpl. by apply Howned.
      + apply map_lookup_filter_None. by left.
    - rewrite (H2 _ Hfree). apply map_lookup_filter_None. right.
      intros x _. simpl. rewrite Howned, Hp, Hfree. done. }
  case_bool_decide as Hempty.
  - assert (Hsame : forall k, owned !! k = None) by (intros k; by rewrite Hempty).
    apply runtime_eq; simpl; try done.
    + apply map_eq. intros k. by apply Howned.
    + apply map_eq. intros k.
      destruct (Hk k) as [[_ E]|(Hfree & p & Hp & _)]; [done|].
      pose proof (proj1 (Howned k) (Hsame k)). congruence.
    + rewrite <- U. apply (rebuild_ext rt' rt).
      apply map_eq. intros k. by apply Howned.
  - apply runtime_eq; simpl; try done.
    rewrite Hplugins. exact U.
Qed.

Lemma unregister_undoes_bulk_register_witness :
  unregisterAllDistributedTools (js "dist-1-1700000000000")
    (registerDistributedTools (js "dist-1-1700000000000")
       [echoManifest; sumManifest distributed] runtimeWithSum)
  = runtimeWithSum.
Proof.
  apply (unregister_undoes_bulk_register (js "dist-1-1700000000000")
           [echoManifest; sumManifest distributed] runtimeWithSum).
  - vm_compute. reflexivity.
  - vm_compute. reflexivity.
  - vm_compute. reflexivity.
Defined.
End RuntimeLifecycleFacts.

(** ** Variable engine: what a call returns and what it throws *)

Section PlaceholderSyntax.
Import Engine.

(** No left brace, code unit 123, and no dollar sign, code unit 36. *)
Definition noBrace (s : jsstring) : bool := forallb (fun c => negb (c =? 123)%N) s.
Definition noDollar (s : jsstring) : bool := forallb (fun c => negb (c =? 36)%N) s.

Lemma matchHere_needs_braces s :
  startsWith (js "{{") s = false -> matchHere DEFAULT_PATTERN s = None.
Proof. intros H. unfold matchHere, DEFAULT_PATTERN. cbn [rmatch]. by rewrite H. Qed.

(** Without "{{" the default pattern matches nowhere. *)
Lemma exec_without_braces s i :
  findFrom (js "{{") s i = None -> exec DEFAULT_PATTERN s = None.
Proof.
  revert i. induction s as [|c s IH]; intros i H.
  - simpl in H. unfold exec. rewrite matchHere_needs_braces; [done|]. reflexivity.
  - cbn [findFrom] in H. destruct (startsWith (js "{{") (c :: s)) eqn:E; [done|].
    cbn [exec]. rewrite (matchHere_needs_braces _ E). by rewrite (IH _ H).
Qed.

Lemma extractPlaceholders_without_braces s :
  includes (js "{{") s = false -> extractPlaceholders DEFAULT_PATTERN s = [].
Proof.
  unfold includes, indexOf. simpl Nat.min. rewrite drop_0. intros H.
  destruct (findFrom (js "{{") s 0) eqn:E; [done|].
  unfold extractPlaceholders, execAll. cbn [execAllFrom].
  by rewrite (exec_without_braces _ _ E).
Qed.

Lemma noBrace_findFrom s i : noBrace s = true -> findFrom (js "{{") s i = None.
Proof.
  revert i. induction s as [|c s IH]; intros i H; [done|].
  simpl in H. apply andb_true_iff in H as [Hc Hs].
  cbn [findFrom]. change (js "{{") with [123%N; 123%N]. cbn [startsWith].
  rewrite N.eqb_sym. apply negb_true_iff in Hc. rewrite Hc. simpl. by apply IH.
Qed.

Lemma noBrace_includes s : noBrace s = true -> includes (js "{{") s = false.
Proof.
  intros H. unfold includes, indexOf. simpl Nat.min. rewrite drop_0.
  by rewrite noBrace_findFrom.
Qed.

(** The class of a key is consumed to its end when the text that
    follows lets the rest of the pattern match. *)
Lemma greedy_run {A} (p : N -> bool) (k : jsstring -> option A) K rest a :
  forallb p K = true -> k rest = Some a ->
  match rest with c :: _ => p c = false | [] => True end ->
  greedy p k (K ++ rest) = Some a.
Proof.
  intros HK Hk Hrest. induction K as [|c K IH]; simpl.
  - destruct rest as [|c r]; [done|]. simpl. by rewrite Hrest.
  - simpl in HK. apply andb_true_iff in HK as [Hc HK]. rewrite Hc. by rewrite IH.
Qed.

Lemma plus_run {A} (p : N -> bool) (k : jsstring -> option A) K rest a :
  K <> [] -> forallb p K = true -> k rest = Some a ->
  match rest with c :: _ => p c = false | [] => True end ->
  match K ++ rest with
  | c :: s' => if p c then greedy p k s' else None
  | [] => None
  end = Some a.
Proof.
  intros Hne HK Hk Hrest. destruct K as [|c K]; [done|].
  simpl in HK. apply andb_true_iff in HK as [Hc HK]. simpl. rewrite Hc.
  by apply greedy_run.
Qed.

Lemma take_front {A} (a b : list A) : take (length (a ++ b) - length b) (a ++ b) = a.
Proof.
  rewrite length_app. replace (length a + length b - length b) with (length a) by lia.
  by rewrite take_app_length.
Qed.

(** A placeholder at the start of a text is matched whole, its key
    captured. *)
Lemma matchHere_placeholder K post :
  K <> [] -> forallb isKeyChar K = true ->
  matchHere DEFAULT_PATTERN (js "{{" ++ K ++ js "}}" ++ post)
  = Some {| m0 := js "{{" ++ K ++ js "}}"; groups := [K]; after := post |}.
Proof.
  intros Hne HK.
  unfold matchHere, DEFAULT_PATTERN. cbn [rmatch].
  rewrite startsWith_app. rewrite drop_app_length.
  apply plus_run; try done.
  rewrite startsWith_app, drop_app_length. cbn [app]. f_equal. f_equal.
  - replace (js "{{" ++ K ++ js "}}" ++ post) with ((js "{{" ++ K ++ js "}}") ++ post)
      by (by rewrite <- !app_assoc).
    apply take_front.
  - f_equal. apply take_front.
Qed.

Lemma startsWith_other a p c s : c <> a -> startsWith (a :: p) (c :: s) = false.
Proof. intros H. simpl. by rewrite (proj2 (N.eqb_neq a c)). Qed.

Lemma noBrace_cons c s : noBrace (c :: s) = true -> c <> 123%N /\ noBrace s = true.
Proof.
  simpl. intros [Hc Hs]%andb_true_iff. split; [|done].
  apply negb_true_iff in Hc. by apply N.eqb_neq.
Qed.

(** The scan passes over text without a brace. *)
Lemma exec_after_plain pre rest :
  noBrace pre = true ->
  exec DEFAULT_PATTERN (pre ++ rest)
  = match exec DEFAULT_PATTERN rest with
    | Some (skipped, m) => Some (pre ++ skipped, m)
    | None => None
    end.
Proof.
  induction pre as [|c pre IH]; intros H.
  - simpl. by destruct (exec DEFAULT_PATTERN rest) as [[sk m]|].
  - apply noBrace_cons in H as [Hc H]. cbn [app exec].
    rewrite matchHere_needs_braces by (by apply startsWith_other).
    rewrite (IH H). by destruct (exec DEFAULT_PATTERN rest) as [[sk m]|].
Qed.

Lemma exec_matched r s m : matchHere r s = Some m -> exec r s = Some ([], m).
Proof. intros H. destruct s; simpl; by rewrite H. Qed.

(** The one placeholder of a text that has no brace elsewhere. *)
Lemma extractPlaceholders_one pre K post :
  noBrace pre = true -> noBrace post = true ->
  K <> [] -> forallb isKeyChar K = true ->
  extractPlaceholders DEFAULT_PATTERN (pre ++ js "{{" ++ K ++ js "}}" ++ post)
  = [(K, js "{{" ++ K ++ js "}}")].
Proof.
  intros Hpre Hpost Hne HK. unfold extractPlaceholders, execAll. cbn [execAllFrom].
  rewrite (exec_after_plain pre _ Hpre).
  assert (E : exec DEFAULT_PATTERN (js "{{" ++ K ++ js "}}" ++ post)
              = Some ([], {| m0 := js "{{" ++ K ++ js "}}"; groups := [K];
                             after := post |})).
  { apply exec_matched. by apply matchHere_placeholder. }
  rewrite E. cbn [after].
  assert (Hnone : forall fuel, execAllFrom fuel DEFAULT_PATTERN post = []).
  { intros [|fuel]; [done|]. simpl.
    by rewrite (exec_without_braces _ 0 (noBrace_findFrom _ _ Hpost)). }
  rewrite Hnone. reflexivity.
Qed.

(** A replacement text without a dollar sign is inserted as it is. *)
Lemma getSubstitution_verbatim matched str position value :
  noDollar value = true -> getSubstitution matched str position value = value.
Proof.
  induction value as [|c value IH]; [done|]. simpl.
  intros [Hc Hv]%andb_true_iff. apply negb_true_iff in Hc. rewrite Hc. by rewrite IH.
Qed.

Lemma replaceGo_skip pat value str a position rest :
  replaceGo pat value str (length a) position (a ++ rest)
  = replaceGo pat value str 0 (position + length a) rest.
Proof.
  revert position. induction a as [|c a IH]; intros position; simpl.
  - by rewrite Nat.add_0_r.
  - rewrite IH. f_equal. lia.
Qed.

Lemma replaceGo_plain a pat value str position rest :
  Forall (fun c => c <> a) rest ->
  replaceGo (a :: pat) value str 0 position rest = rest.
Proof.
  intros H. revert position. induction H as [|c rest Hc H IH]; intros position.
  - reflexivity.
  - cbn [replaceGo]. rewrite startsWith_other by done. by rewrite IH.
Qed.

Lemma noBrace_Forall s : noBrace s = true -> Forall (fun c => c <> 123%N) s.
Proof.
  induction s as [|c s IH]; [constructor|].
  intros [Hc Hs]%noBrace_cons. constructor; auto.
Qed.

(** The replacement of the one placeholder. *)
Lemma replaceAllLiteral_one pre K post value :
  noBrace pre = true -> noBrace post = true -> noDollar value = true ->
  replaceAllLiteral (js "{{" ++ K ++ js "}}") value
    (pre ++ js "{{" ++ K ++ js "}}" ++ post)
  = pre ++ value ++ post.
Proof.
  intros Hpre Hpost Hv. unfold replaceAllLiteral.
  replace (pre ++ js "{{" ++ K ++ js "}}" ++ post)
    with (pre ++ (js "{{" ++ K ++ js "}}") ++ post) by (by rewrite <- !app_assoc).
  change (js "{{" ++ K ++ js "}}") with (123%N :: (123%N :: K ++ js "}}")).
  generalize (123%N :: K ++ js "}}"). intros tail.
  generalize (pre ++ (123%N :: tail) ++ post) at 1. intros str.
  generalize 0 at 2. intros position.
  revert position. induction pre as [|c pre IH]; intros position.
  - change ([] ++ (123%N :: tail) ++ post) with (123%N :: (tail ++ post)).
    cbn [replaceGo].
    rewrite (startsWith_app (123%N :: tail) post
             : startsWith (123%N :: tail) (123%N :: tail ++ post) = true).
    rewrite getSubstitution_verbatim by done.
    change ([] ++ value ++ post) with (value ++ post). f_equal.
    rewrite replaceGo_skip. apply replaceGo_plain. by apply noBrace_Forall.
  - apply noBrace_cons in Hpre as [Hc Hpre]. cbn [app replaceGo].
    rewrite startsWith_other by done. f_equal.
    by apply IH.
Qed.
End PlaceholderSyntax.

Section EngineReturns.
Import Engine.

Variable eng : VariableEngine.

Local Abbreviation cap := (maxRecursionDepth (options eng)).
Local Abbreviation pattern := (placeholderPattern (options eng)).

(** A provider has nothing for a key: it answers [null], or throws
    something other than a [CircularDependencyError]. *)
Definition passes (key : jsstring) (p : IVariableProvider) : Prop :=
  resolve p key = Null \/
  exists e, resolve p key = Throws e /\ isCircularDependencyError e = false.

(** What the providers give for a key needs no further resolution, and
    none of them throws a [CircularDependencyError]. *)
Definition settled (key : jsstring) : Prop :=
  forall p, p ∈ providers eng ->
    (forall v, resolve p key = Value v -> extractPlaceholders pattern v = []) /\
    (forall e, resolve p key = Throws e -> isCircularDependencyError e = false).

Lemma tryProviders_passes recur ps rest key stack :
  Forall (passes key) ps ->
  tryProviders recur (ps ++ rest) key stack None = tryProviders recur rest key stack None.
Proof.
  induction 1 as [|p ps [Hp|(e & Hp & He)] _ IH]; simpl; [done|..].
  - by rewrite Hp.
  - by rewrite Hp, He.
Qed.

Lemma firstAnswer_passes ps rest key :
  Forall (passes key) ps -> firstAnswer (ps ++ rest) key None = firstAnswer rest key None.
Proof.
  induction 1 as [|p ps [Hp|(e & Hp & He)] _ IH]; simpl; [done|..]; by rewrite Hp.
Qed.

(** One call below the cap and within the placeholder limit. *)
Lemma resolveRecursive_below fuel depth content stack :
  depth < cap ->
  length (extractPlaceholders pattern content) <= MAX_PLACEHOLDERS ->
  resolveRecursive eng (S fuel) depth content stack
  = match forPlaceholders eng (resolveRecursive eng fuel (S depth))
            (extractPlaceholders pattern content) stack [] with
    | None => None
    | Some (stack', inl e) => Some (stack', Thrown e)
    | Some (stack', inr replacements) =>
        Some (stack', Returned (applyReplacements content replacements))
    end.
Proof.
  intros Hd Hc. cbn [resolveRecursive].
  destruct (cap <=? depth) eqn:E; [apply Nat.leb_le in E; lia|].
  destruct (MAX_PLACEHOLDERS <? _) eqn:E'; [apply Nat.ltb_lt in E'; lia|].
  reflexivity.
Qed.

(** A text without placeholders, below the cap, is returned as it is. *)
Lemma resolveRecursive_terminal fuel depth v stack :
  depth < cap -> extractPlaceholders pattern v = [] ->
  resolveRecursive eng (S fuel) depth v stack = Some (stack, Returned v).
Proof.
  intros Hd Hv. simpl. destruct (cap <=? depth) eqn:E; [apply Nat.leb_le in E; lia|].
  by rewrite Hv.
Qed.

Lemma setDelete_setAdd_nil key : setDelete key (setAdd key []) = [].
Proof.
  unfold setAdd, setHas, setDelete. rewrite bool_decide_eq_false_2 by apply not_elem_of_nil.
  cbn [app]. by rewrite filter_cons_False by (intros H; by apply H).
Qed.

(** With settled values the loop over the providers does what the loop
    of [resolveSingle] does, and hands the stack back empty. *)
Lemma tryProviders_settled fuel ps key resolved :
  1 < cap ->
  (forall p, p ∈ ps ->
     (forall v, resolve p key = Value v -> extractPlaceholders pattern v = []) /\
     (forall e, resolve p key = Throws e -> isCircularDependencyError e = false)) ->
  tryProviders (resolveRecursive eng (S fuel) 1) ps key [] resolved
  = Some ([], inr (firstAnswer ps key resolved)).
Proof.
  intros Hcap. revert resolved. induction ps as [|p ps IH]; intros resolved H; [done|].
  assert (Hps : forall q, q ∈ ps ->
     (forall v, resolve q key = Value v -> extractPlaceholders pattern v = []) /\
     (forall e, resolve q key = Throws e -> isCircularDependencyError e = false)).
  { intros q Hq. apply H. by right. }
  destruct (H p) as [Hv He]; [by left|].
  cbn [tryProviders firstAnswer]. destruct (resolve p key) as [|v|e].
  - by apply IH.
  - rewrite resolveRecursive_terminal by (try lia; by apply Hv).
    by rewrite setDelete_setAdd_nil.
  - rewrite (He e) by done. by apply IH.
Qed.

Lemma forPlaceholders_settled fuel phs replacements :
  1 < cap ->
  (forall key full, (key, full) ∈ phs -> settled key) ->
  forPlaceholders eng (resolveRecursive eng (S fuel) 1) phs [] replacements
  = Some ([], inr (fold_left (fun replacements '(key, fullPlaceholder) =>
                     match firstAnswer (providers eng) key None with
                     | Some resolved => mapSet fullPlaceholder resolved replacements
                     | None => replacements
                     end) phs replacements)).
Proof.
  intros Hcap. revert replacements.
  induction phs as [|[key full] phs IH]; intros replacements H; [done|].
  cbn [forPlaceholders fold_left].
  assert (Hno : setHas key [] = false).
  { unfold setHas. apply bool_decide_eq_false_2, not_elem_of_nil. }
  rewrite Hno, andb_false_r.
  rewrite tryProviders_settled; [|done|by apply (H key full); left].
  assert (Hphs : forall k f, (k, f) ∈ phs -> settled k).
  { intros k f Hk. apply (H k f). by right. }
  destruct (firstAnswer (providers eng) key None); by apply IH.
Qed.

(** When no provider has anything for the placeholders of a text, the
    text comes back as it is. *)
Lemma resolveAll_declined content :
  (enableRecursion (options eng) = true ->
   0 < cap /\ length (extractPlaceholders pattern content) <= MAX_PLACEHOLDERS) ->
  (forall key full, (key, full) ∈ extractPlaceholders pattern content ->
                    Forall (passes key) (providers eng)) ->
  resolveAll eng content = Some (Returned content).
Proof.
  intros Hrec Hpass. unfold resolveAll. destruct content as [|c content]; [done|].
  set (text := c :: content) in *.
  destruct (enableRecursion (options eng)).
  - destruct Hrec as [Hcap Hcount]; [done|].
    destruct cap as [|fuel] eqn:Ecap; [lia|]. simpl. rewrite Ecap. simpl.
    destruct (MAX_PLACEHOLDERS <? _) eqn:E; [apply Nat.ltb_lt in E; lia|].
    assert (Hloop : forall phs stack,
      (forall key full, (key, full) ∈ phs -> Forall (passes key) (providers eng)) ->
      stack = [] ->
      forPlaceholders eng (resolveRecursive eng fuel 1) phs stack []
      = Some ([], inr [])).
    { induction phs as [|[key full] phs IH]; intros stack H ->; [done|].
      cbn [forPlaceholders]. rewrite andb_false_r.
      pose proof (tryProviders_passes (resolveRecursive eng fuel 1) (providers eng) []
                    key [] (H key full ltac:(by left))) as Ht.
      rewrite app_nil_r in Ht. rewrite Ht. simpl.
      apply IH; [|done]. intros k f Hk. apply (H k f). by right. }
    by rewrite Hloop.
  - f_equal. f_equal. unfold resolveSingle. fold text.
    assert (Hfold : forall phs,
      (forall key full, (key, full) ∈ phs -> Forall (passes key) (providers eng)) ->
      fold_left (fun replacements '(key, fullPlaceholder) =>
                   match firstAnswer (providers eng) key None with
                   | Some resolved => mapSet fullPlaceholder resolved replacements
                   | None => replacements
                   end) phs [] = []).
    { induction phs as [|[key full] phs IH]; intros H; [done|]. simpl.
      pose proof (firstAnswer_passes (providers eng) [] key (H key full ltac:(by left)))
        as Hf.
      rewrite app_nil_r in Hf. rewrite Hf. simpl.
      apply IH. intros k f Hk. apply (H k f). by right. }
    by rewrite Hfold.
Qed.

(** X14. Placeholders nobody resolves are kept.  With the default
    pattern, whose matches are never empty: if, for every placeholder of
    a text, every provider answers [null] or throws something other than
    a [CircularDependencyError], the call returns the text unchanged, in
    both modes (with recursion on: provided the depth cap is positive and
    the text has at most 100 distinct placeholders). *)
Theorem unresolved_placeholders_kept (content : jsstring) :
  pattern = DEFAULT_PATTERN ->
  (enableRecursion (options eng) = true ->
   0 < cap /\
   length (extractPlaceholders DEFAULT_PATTERN content) <= MAX_PLACEHOLDERS) ->
  (forall key full, (key, full) ∈ extractPlaceholders DEFAULT_PATTERN content ->
                    Forall (passes key) (providers eng)) ->
  resolveAll eng content = Some (Returned content).
Proof. intros <-. apply resolveAll_declined. Qed.

(** X15. With the default pattern a text that does not contain "{{"
    is returned as it is, whatever the providers are, in both modes;
    with recursion on this needs a positive depth cap, and only that. *)
Theorem plain_text_unchanged (content : jsstring) :
  pattern = DEFAULT_PATTERN ->
  includes (js "{{") content = false ->
  (enableRecursion (options eng) = true -> 0 < cap) ->
  resolveAll eng content = Some (Returned content).
Proof.
  intros Hp Hplain Hcap. apply resolveAll_declined.
  - intros Hrec. split; [by apply Hcap|].
    rewrite Hp, extractPlaceholders_without_braces by done. simpl. lia.
  - intros key full. rewrite Hp, extractPlaceholders_without_braces by done.
    by intros ?%elem_of_nil.
Qed.

(** X16. What a call can throw.  [resolveAll] throws only with
    recursion on, and then one of three things: a
    [CircularDependencyError]; the error of the placeholder limit, for
    the text of the call itself, when it has more than 100 distinct
    placeholders; the error of the depth cap, when the cap is 0.  What a
    provider throws otherwise, and what the resolution of a provider's
    value throws otherwise, never fails the call. *)
Theorem resolveAll_failures (content : jsstring) (e : JsVal) :
  resolveAll eng content = Some (Thrown e) ->
  enableRecursion (options eng) = true /\
  (isCircularDependencyError e = true \/
   (MAX_PLACEHOLDERS < length (extractPlaceholders pattern content) /\
    e = tooManyError (length (extractPlaceholders pattern content))) \/
   (cap = 0 /\ e = maxDepthError eng 0 content)).
Proof.
  unfold resolveAll. destruct content as [|c content]; [done|].
  set (text := c :: content).
  destruct (enableRecursion (options eng)); [|done].
  intros H. split; [done|].
  destruct (resolveRecursive eng cap 0 text []) as [[stack' o]|] eqn:E; [|done].
  simpl in H. injection H as ->.
  destruct cap as [|fuel] eqn:Ecap.
  - right. right. split; [done|]. simpl in E. rewrite Ecap in E. simpl in E. congruence.
  - simpl in E. rewrite Ecap in E. simpl in E.
    destruct (MAX_PLACEHOLDERS <? _) eqn:Ecount.
    + right. left. apply Nat.ltb_lt in Ecount. split; [done|]. congruence.
    + left.
      destruct (forPlaceholders eng _ _ [] []) as [[stack1 [e1|r]]|] eqn:Ef; [|done..].
      injection E as _ <-. by eapply forPlaceholders_thrown.
Qed.

(** X17. Recursion changes nothing when the values are final.  With
    the default pattern, whose matches are never empty, recursion on and
    a depth cap of at least 2: if the text has at most 100 distinct
    placeholders, the values the providers give for them contain no
    placeholder and no provider throws a [CircularDependencyError], then
    the call returns what the single pass, [resolveSingle], returns. *)
Theorem recursion_is_single_pass (content : jsstring) :
  pattern = DEFAULT_PATTERN ->
  enableRecursion (options eng) = true -> 1 < cap -> content <> [] ->
  length (extractPlaceholders DEFAULT_PATTERN content) <= MAX_PLACEHOLDERS ->
  (forall key full, (key, full) ∈ extractPlaceholders DEFAULT_PATTERN content ->
                    settled key) ->
  resolveAll eng content = Some (Returned (resolveSingle eng content)).
Proof.
  intros Hp. rewrite <- Hp.
  intros Hrec Hcap Hne Hcount Hs. unfold resolveAll.
  destruct content as [|c content]; [done|]. set (text := c :: content) in *.
  rewrite Hrec.
  destruct cap as [|[|fuel]] eqn:Ecap; [lia|lia|].
  rewrite resolveRecursive_below by (try done; rewrite Ecap; lia).
  rewrite forPlaceholders_settled by (try done; rewrite Ecap; lia).
  reflexivity.
Qed.

(** X18. A placeholder is replaced by the value of the first provider
    that has one.  Take the default pattern, a text
    [pre {{K}} post] with a key [K] of the class of the pattern and no
    left brace in [pre] and [post], and providers of which the first
    ones have nothing for [K] and the next one gives [v], a value
    without a left brace or a dollar sign.  Then the call returns
    [pre v post], in both modes (with recursion on: for a depth cap of at
    least 2). *)
Theorem placeholder_is_substituted (pre K post v : jsstring)
    (ps1 ps2 : list IVariableProvider) (p : IVariableProvider) :
  pattern = DEFAULT_PATTERN ->
  (enableRecursion (options eng) = true -> 1 < cap) ->
  K <> [] -> forallb isKeyChar K = true ->
  noBrace pre = true -> noBrace post = true ->
  noBrace v = true -> noDollar v = true ->
  providers eng = ps1 ++ p :: ps2 -> Forall (passes K) ps1 -> resolve p K = Value v ->
  resolveAll eng (pre ++ js "{{" ++ K ++ js "}}" ++ post)
  = Some (Returned (pre ++ v ++ post)).
Proof.
  intros Hp Hcap HK HKc Hpre Hpost Hv Hd Hps Hps1 Hpv. unfold resolveAll.
  set (text := pre ++ js "{{" ++ K ++ js "}}" ++ post).
  assert (Hphs : extractPlaceholders pattern text = [(K, js "{{" ++ K ++ js "}}")]).
  { rewrite Hp. by apply extractPlaceholders_one. }
  assert (Hout : applyReplacements text [(js "{{" ++ K ++ js "}}", v)]
                 = pre ++ v ++ post).
  { unfold applyReplacements. simpl. by apply replaceAllLiteral_one. }
  assert (Htext : exists c rest, text = c :: rest).
  { subst text. destruct pre; simpl; eauto. }
  destruct Htext as (c & rest & Htext). rewrite Htext. rewrite <- Htext.
  destruct (enableRecursion (options eng)).
  - specialize (Hcap eq_refl).
    destruct cap as [|[|fuel]] eqn:Ecap; [lia|lia|].
    rewrite resolveRecursive_below
      by (rewrite ?Ecap, ?Hphs; simpl; unfold MAX_PLACEHOLDERS; lia).
    rewrite Hphs. cbn [forPlaceholders].
    assert (Hno : setHas K [] = false).
    { unfold setHas. apply bool_decide_eq_false_2, not_elem_of_nil. }
    rewrite Hno, andb_false_r, Hps.
    rewrite tryProviders_passes by done. cbn [tryProviders]. rewrite Hpv.
    rewrite resolveRecursive_terminal.
    + rewrite setDelete_setAdd_nil. cbn [forPlaceholders].
      change (mapSet (js "{{" ++ K ++ js "}}") v []) with [(js "{{" ++ K ++ js "}}", v)].
      by rewrite Hout.
    + rewrite Ecap. lia.
    + rewrite Hp. by apply extractPlaceholders_without_braces, noBrace_includes.
  - unfold resolveSingle. rewrite Hphs. cbn [fold_left]. rewrite Hps.
    rewrite firstAnswer_passes by done. cbn [firstAnswer]. rewrite Hpv.
    change (mapSet (js "{{" ++ K ++ js "}}") v []) with [(js "{{" ++ K ++ js "}}", v)].
    by rewrite Hout.
Qed.
End EngineReturns.

Section EngineReturnsExamples.
Import Engine.

Definition greetProvider : IVariableProvider :=
  PlaceholderProvider [(js "Name", js "World")].

Definition greetEngine : VariableEngine :=
  {| options := DEFAULT_OPTIONS; providers := [greetProvider] |}.

Lemma greet_placeholders :
  extractPlaceholders DEFAULT_PATTERN (js "Hello {{Who}}") = [(js "Who", js "{{Who}}")] /\
  extractPlaceholders DEFAULT_PATTERN (js "Hello {{Name}}!")
  = [(js "Name", js "{{Name}}")].
Proof. split; vm_compute; reflexivity. Qed.

Lemma unresolved_placeholders_kept_witness :
  resolveAll greetEngine (js "Hello {{Who}}") = Some (Returned (js "Hello {{Who}}")).
Proof.
  apply (unresolved_placeholders_kept greetEngine (js "Hello {{Who}}")).
  - reflexivity.
  - intros _. split; [vm_compute; lia|].
    rewrite (proj1 greet_placeholders). vm_compute. lia.
  - intros key full.
    rewrite (proj1 greet_placeholders). intros [= -> ->]%list_elem_of_singleton.
    repeat constructor.
Defined.

Lemma plain_text_unchanged_witness :
  resolveAll cycleEngine (js "a { b } c") = Some (Returned (js "a { b } c")).
Proof.
  apply (plain_text_unchanged cycleEngine (js "a { b } c")).
  - reflexivity.
  - vm_compute. reflexivity.
  - intros _. vm_compute. lia.
Defined.

Lemma resolveAll_failures_witness :
  isCircularDependencyError
    (JError CircularDependencyErrorClass (Some CIRCULAR_DEPENDENCY)
       (js "Circular variable reference detected for 'A'")
       [(js "stack", JStr (js "A -> B")); (js "key", JStr (js "A"))]) = true \/
  (MAX_PLACEHOLDERS
   < length (extractPlaceholders (placeholderPattern (options cycleEngine))
               (js "start {{A}} end")) /\
   JError CircularDependencyErrorClass (Some CIRCULAR_DEPENDENCY)
     (js "Circular variable reference detected for 'A'")
     [(js "stack", JStr (js "A -> B")); (js "key", JStr (js "A"))]
   = tooManyError (length (extractPlaceholders (placeholderPattern (options cycleEngine))
                             (js "start {{A}} end")))) \/
  (maxRecursionDepth (options cycleEngine) = 0 /\
   JError CircularDependencyErrorClass (Some CIRCULAR_DEPENDENCY)
     (js "Circular variable reference detected for 'A'")
     [(js "stack", JStr (js "A -> B")); (js "key", JStr (js "A"))]
   = maxDepthError cycleEngine 0 (js "start {{A}} end")).
Proof.
  apply (resolveAll_failures cycleEngine (js "start {{A}} end")).
  vm_compute. reflexivity.
Defined.

Lemma recursion_is_single_pass_witness :
  resolveAll greetEngine (js "Hello {{Name}}!")
  = Some (Returned (resolveSingle greetEngine (js "Hello {{Name}}!"))).
Proof.
  apply (recursion_is_single_pass greetEngine (js "Hello {{Name}}!")).
  - reflexivity.
  - reflexivity.
  - vm_compute. lia.
  - discriminate.
  - rewrite (proj2 greet_placeholders). vm_compute. lia.
  - intros key full.
    rewrite (proj2 greet_placeholders). intros [= -> ->]%list_elem_of_singleton.
    intros p ->%list_elem_of_singleton. split.
    + intros v H. vm_compute in H. injection H as <-. vm_compute. reflexivity.
    + intros e H. vm_compute in H. discriminate.
Defined.

Lemma placeholder_is_substituted_witness :
  resolveAll greetEngine (js "Hello " ++ js "{{" ++ js "Name" ++ js "}}" ++ js "!")
  = Some (Returned (js "Hello " ++ js "World" ++ js "!")).
Proof.
  apply (placeholder_is_substituted greetEngine (js "Hello ") (js "Name") (js "!")
           (js "World") [] [] greetProvider); try reflexivity.
  - intros _. vm_compute. lia.
  - discriminate.
  - constructor.
Defined.
End EngineReturnsExamples.

(** ** Protocol parser: the loop over the text and the fields of a block *)

Section ParserLoop.
Import Parser.

(** With a non-empty opening marker every round moves the search
    offset forward. *)
Lemma parseLoop_ends cfg content :
  toolRequestStartMarker cfg <> [] ->
  forall fuel searchOffset acc,
    length content - searchOffset < fuel ->
    is_Some (parseLoop fuel cfg content searchOffset acc).
Proof.
  intros Hstart. induction fuel as [|fuel IH]; intros off acc Hf; simpl.
  - lia.
  - destruct (off <? length content) eqn:Hlt; [|by eexists].
    apply Nat.ltb_lt in Hlt.
    destruct (indexOf (toolRequestStartMarker cfg) content off) as [si|] eqn:Es;
      [|by eexists].
    apply indexOf_Some in Es as (Hge & Hle & _).
    assert (Hpos : 0 < length (toolRequestStartMarker cfg)).
    { destruct (toolRequestStartMarker cfg); [done|]. simpl. lia. }
    destruct (indexOf (toolRequestEndMarker cfg) content _) as [ei|] eqn:Ee.
    + apply indexOf_Some in Ee as (Hge' & _ & _). apply IH. lia.
    + apply IH. lia.
Qed.

(** X19. The loop of [parseToolRequests] ends.  Whatever the text and
    the other markers, a parser whose opening marker is not the empty
    string returns a list: the search offset grows in every round, so
    no text keeps the loop running. *)
Theorem parseToolRequests_returns (cfg : VCPProtocolConfig) (content : jsstring) :
  toolRequestStartMarker cfg <> [] ->
  exists toolRequests, parseToolRequests cfg content = Some toolRequests.
Proof.
  intros Hstart. apply (parseLoop_ends cfg content Hstart). lia.
Qed.

Lemma parseToolRequests_returns_witness :
  exists toolRequests, parseToolRequests DEFAULT_CONFIG unclosedText = Some toolRequests.
Proof.
  apply (parseToolRequests_returns DEFAULT_CONFIG unclosedText). discriminate.
Defined.

(** X20. With the empty string as opening marker the loop can run for
    ever.  On a text that is not empty and does not contain the closing
    marker, every round finds the opening marker at the search offset,
    finds no closing marker and leaves the offset where it was: no number
    of rounds ends the loop, so the call never returns. *)
Theorem empty_start_marker_never_returns (cfg : VCPProtocolConfig) (content : jsstring)
    (rounds : nat) :
  toolRequestStartMarker cfg = [] -> content <> [] ->
  indexOf (toolRequestEndMarker cfg) content 0 = None ->
  parseLoop rounds cfg content 0 [] = None.
Proof.
  intros Hstart Hne Hend.
  assert (Hlen : 0 < length content) by (destruct content; [done|simpl; lia]).
  generalize (@nil VCPToolRequest). revert Hlen. generalize 0.
  induction rounds as [|rounds IH]; intros off Hoff acc; [done|].
  cbn [parseLoop]. rewrite (proj2 (Nat.ltb_lt _ _) Hoff). rewrite Hstart.
  assert (Hfound : indexOf [] content off = Some off).
  { unfold indexOf. rewrite Nat.min_l by lia.
    destruct (drop off content); reflexivity. }
  rewrite Hfound. cbn [length]. rewrite Nat.add_0_r.
  rewrite indexOf_None_anywhere by done. by apply IH.
Qed.

Lemma empty_start_marker_never_returns_witness :
  parseLoop 1000
    {| toolRequestStartMarker := []; toolRequestEndMarker := js "<<<[END_TOOL_REQUEST]>>>";
       paramStartMarker := SIGIL_START; paramEndMarker := SIGIL_END; debug := false |}
    (js "hello") 0 [] = None.
Proof.
  apply (empty_start_marker_never_returns
           {| toolRequestStartMarker := [];
              toolRequestEndMarker := js "<<<[END_TOOL_REQUEST]>>>";
              paramStartMarker := SIGIL_START; paramEndMarker := SIGIL_END;
              debug := false |} (js "hello") 1000).
  - reflexivity.
  - discriminate.
  - vm_compute. reflexivity.
Defined.

(** X21. [hasToolRequests] is a safe first test: for a text on which it
    is false, [parseToolRequests] returns the empty list.  (The converse
    fails: C10.) *)
Theorem no_marker_no_requests (cfg : VCPProtocolConfig) (content : jsstring) :
  hasToolRequests cfg content = false -> parseToolRequests cfg content = Some [].
Proof.
  unfold hasToolRequests, includes, parseToolRequests. intros H.
  destruct (indexOf (toolRequestStartMarker cfg) content 0) eqn:E; [done|].
  cbn [parseLoop]. destruct (0 <? length content); by rewrite ?E.
Qed.

Lemma no_marker_no_requests_witness :
  parseToolRequests DEFAULT_CONFIG (js "tool_name: Ping, no markers here") = Some [].
Proof.
  apply (no_marker_no_requests DEFAULT_CONFIG (js "tool_name: Ping, no markers here")).
  vm_compute. reflexivity.
Defined.

(** What holds of every request the loop collects holds of the list
    it returns. *)
Lemma parseLoop_Forall cfg content (P : VCPToolRequest -> Prop) :
  (forall a b r, parseRequestBlock cfg (trim (substring content a b)) = Some r -> P r) ->
  forall fuel searchOffset acc toolRequests,
    Forall P acc ->
    parseLoop fuel cfg content searchOffset acc = Some toolRequests ->
    Forall P toolRequests.
Proof.
  intros HP. induction fuel as [|fuel IH]; intros off acc rs Hacc; simpl; [done|].
  destruct (off <? length content); [|by intros [= <-]].
  destruct (indexOf (toolRequestStartMarker cfg) content off) as [si|];
    [|by intros [= <-]].
  destruct (indexOf (toolRequestEndMarker cfg) content _) as [ei|]; [|by apply IH].
  apply IH.
  destruct (parseRequestBlock cfg _) as [r|] eqn:Er; [|done].
  apply Forall_app. split; [done|]. constructor; [|done]. by eapply HP.
Qed.

Lemma fold_blockStep_proto fields acc :
  parsedArgs acc !! js "__proto__" = None ->
  parsedArgs (fold_left blockStep fields acc) !! js "__proto__" = None.
Proof.
  revert acc. induction fields as [|[key value] fields IH]; intros acc H; [done|].
  simpl. apply IH. unfold blockStep.
  destruct (eqs key (js "tool_name")); [done|].
  destruct (eqs key (js "archery")); [done|].
  simpl. unfold setArg. destruct (eqs key (js "__proto__")) eqn:E; [done|].
  apply eqs_false in E. by rewrite lookup_insert_ne.
Qed.

(** X22. What [parseToolRequests] returns.  Every request of the list
    has a name that is not empty, no argument called [tool_name],
    [archery] or [__proto__], and as [rawText] the trimmed text between
    two positions of the input; parsing that [rawText] as a block gives
    the request again. *)
Theorem returned_requests_wellformed (cfg : VCPProtocolConfig) (content : jsstring)
    (toolRequests : list VCPToolRequest) :
  parseToolRequests cfg content = Some toolRequests ->
  Forall (fun r =>
            name r <> [] /\
            args r !! js "tool_name" = None /\ args r !! js "archery" = None /\
            args r !! js "__proto__" = None /\
            (exists a b, rawText r = trim (substring content a b)) /\
            parseRequestBlock cfg (rawText r) = Some r) toolRequests.
Proof.
  unfold parseToolRequests. apply parseLoop_Forall; [|constructor].
  intros a b r Hr. pose proof Hr as Hr'. unfold parseRequestBlock, finishBlock in Hr.
  set (fields := paramFields cfg _) in Hr.
  destruct (toolName (fold_left blockStep fields blockAcc0)) as [[|c n]|] eqn:En;
    [done| |done].
  injection Hr as <-. simpl. split_and!; try done.
  - by apply fold_blockStep_reserved; [right|].
  - by apply fold_blockStep_reserved; [left|].
  - by apply fold_blockStep_proto.
  - by exists a, b.
Qed.

Lemma returned_requests_wellformed_witness :
  Forall (fun r =>
            name r <> [] /\
            args r !! js "tool_name" = None /\ args r !! js "archery" = None /\
            args r !! js "__proto__" = None /\
            (exists a b, rawText r
                         = trim (substring (wrapBlock DEFAULT_CONFIG fetchBlock) a b)) /\
            parseRequestBlock DEFAULT_CONFIG (rawText r) = Some r) [fetchRequest].
Proof.
  apply (returned_requests_wellformed DEFAULT_CONFIG (wrapBlock DEFAULT_CONFIG fetchBlock)
           [fetchRequest]).
  vm_compute. reflexivity.
Defined.
End ParserLoop.

Section ParserFields.
Import Parser.

Lemma lastValue_snoc k fields key value :
  lastValue k (fields ++ [(key, value)])
  = if eqs key k then Some value else lastValue k fields.
Proof.
  unfold lastValue. rewrite omap_app. simpl. destruct (eqs key k).
  - by rewrite last_snoc.
  - by rewrite app_nil_r.
Qed.

(** After the loop over the fields, the name is the value of the last
    [tool_name] field and every other argument that can be stored has
    the value of the last field with its key. *)
Lemma fold_blockStep_fields fields acc :
  toolName (fold_left blockStep fields acc)
  = match lastValue (js "tool_name") fields with
    | Some v => Some v
    | None => toolName acc
    end /\
  forall k, k <> js "tool_name" -> k <> js "archery" -> k <> js "__proto__" ->
    parsedArgs (fold_left blockStep fields acc) !! k
    = match lastValue k fields with
      | Some v => Some v
      | None => parsedArgs acc !! k
      end.
Proof.
  induction fields as [|[key value] fields [IHn IHa]] using rev_ind; [done|].
  rewrite fold_left_app. cbn [fold_left]. unfold blockStep.
  destruct (eqs key (js "tool_name")) eqn:E1; [|destruct (eqs key (js "archery")) eqn:E2].
  - apply eqs_true in E1 as ->. split.
    + rewrite lastValue_snoc. by rewrite (proj2 (eqs_true _ _) eq_refl).
    + intros k H1 H2 H3. rewrite lastValue_snoc.
      rewrite (proj2 (eqs_false (js "tool_name") k)) by done. by apply IHa.
  - apply eqs_true in E2 as ->. split.
    + rewrite lastValue_snoc. simpl. exact IHn.
    + intros k H1 H2 H3. rewrite lastValue_snoc.
      rewrite (proj2 (eqs_false (js "archery") k)) by done. by apply IHa.
  - split.
    + rewrite lastValue_snoc, E1. exact IHn.
    + intros k H1 H2 H3. rewrite lastValue_snoc. cbn [parsedArgs]. unfold setArg.
      destruct (eqs key (js "__proto__")) eqn:E3.
      * apply eqs_true in E3 as ->.
        rewrite (proj2 (eqs_false (js "__proto__") k)) by done. by apply IHa.
      * destruct (eqs key k) eqn:E4.
        -- apply eqs_true in E4 as ->. apply lookup_insert_eq.
        -- apply eqs_false in E4. rewrite lookup_insert_ne by done. by apply IHa.
Qed.

End ParserFields.

Section ParserRoundTrip.
Import Parser.

(** A key of the class [[\w_]+], and a value without the first code
    unit of the closing sigil, U+300C. *)
Definition fieldKey (k : jsstring) : bool :=
  match k with [] => false | _ => forallb isWord k end.
Definition noSigil (v : jsstring) : bool := forallb (fun c => negb (c =? 0x300C)%N) v.

(** A field as the protocol writes it, [key:<start>value<end>,] with
    the two sigils, and a block of fields. *)
Definition renderField (kv : jsstring * jsstring) : jsstring :=
  kv.1 ++ js ":" ++ SIGIL_START ++ kv.2 ++ SIGIL_END ++ js ",".

Definition renderFields (fields : list (jsstring * jsstring)) : jsstring :=
  foldr (fun kv block => renderField kv ++ block) [] fields.

Lemma greedy_stop {A} (p : N -> bool) (k : jsstring -> option A) s :
  match s with c :: _ => p c = false | [] => True end -> greedy p k s = k s.
Proof. destruct s as [|c s]; [done|]. simpl. by intros ->. Qed.

(** The lazy run stops where the continuation first succeeds. *)
Lemma lazy_run {A} (k : jsstring -> option A) v rest a :
  Forall (fun c => forall t, k (c :: t) = None) v -> k rest = Some a ->
  lazy (fun _ => true) k (v ++ rest) = Some a.
Proof.
  intros Hv Hk. induction Hv as [|c v Hc Hv IH].
  - destruct rest; simpl; by rewrite Hk.
  - cbn [app lazy]. by rewrite Hc.
Qed.

Lemma noSigil_Forall v : noSigil v = true -> Forall (fun c => c <> 0x300C%N) v.
Proof.
  induction v as [|c v IH]; [constructor|]. simpl.
  intros [Hc Hv]%andb_true_iff. constructor; [|by apply IH].
  apply negb_true_iff in Hc. by apply N.eqb_neq.
Qed.

Lemma matchHere_field key v rest :
  fieldKey key = true -> noSigil v = true ->
  matchHere (paramRegex DEFAULT_CONFIG) (renderField (key, v) ++ rest)
  = Some {| m0 := renderField (key, v); groups := [key; v]; after := rest |}.
Proof.
  intros Hkey Hv.
  assert (Hne : key <> []) by (by destruct key).
  assert (Hword : forallb isWord key = true) by (by destruct key).
  unfold matchHere, paramRegex, renderField.
  cbn [rmatch paramStartMarker paramEndMarker DEFAULT_CONFIG fst snd].
  rewrite <- !app_assoc.
  apply plus_run; try done.
  rewrite greedy_stop by reflexivity.
  rewrite startsWith_app, drop_app_length.
  rewrite greedy_stop by reflexivity.
  rewrite startsWith_app, drop_app_length.
  apply lazy_run.
  - eapply Forall_impl; [by apply noSigil_Forall|]. intros c Hc t. cbn beta.
    change SIGIL_END with (0x300C%N :: [0x672B%N; 0x300D%N]).
    by rewrite startsWith_other.
  - rewrite startsWith_app, drop_app_length.
    rewrite greedy_stop by reflexivity.
    rewrite startsWith_app, drop_app_length.
    f_equal. f_equal.
    + replace (key ++ js ":" ++ SIGIL_START ++ v ++ SIGIL_END ++ js "," ++ rest)
        with ((key ++ js ":" ++ SIGIL_START ++ v ++ SIGIL_END ++ js ",") ++ rest)
        by (by rewrite <- !app_assoc).
      apply take_front.
    + cbn [app]. f_equal; [apply take_front|]. f_equal. apply take_front.
Qed.

Definition trimmed (fields : list (jsstring * jsstring)) : list (jsstring * jsstring) :=
  map (fun kv => (kv.1, trim kv.2)) fields.

Lemma fields_of_rendered fields :
  Forall (fun kv => fieldKey kv.1 = true /\ noSigil kv.2 = true) fields ->
  forall fuel, length fields < fuel ->
    omap (fun m => match groups m with
                   | [k; v] => Some (k, trim v)
                   | _ => None
                   end)
         (execAllFrom fuel (paramRegex DEFAULT_CONFIG) (renderFields fields))
    = trimmed fields.
Proof.
  induction 1 as [|[key v] fields [Hkey Hv] _ IH]; intros fuel Hfuel.
  - destruct fuel as [|fuel]; [simpl in Hfuel; lia|]. reflexivity.
  - destruct fuel as [|fuel]; [lia|]. cbn [renderFields foldr execAllFrom].
    rewrite (exec_matched _ _ _ (matchHere_field key v _ Hkey Hv)).
    cbn [omap list_omap groups after trimmed map fst snd]. f_equal.
    apply IH. simpl in Hfuel. lia.
Qed.

Lemma renderFields_length fields : length fields <= length (renderFields fields).
Proof.
  induction fields as [|[key v] fields IH]; [done|].
  cbn [renderFields foldr]. fold (renderFields fields). rewrite length_app.
  assert (1 <= length (renderField (key, v))).
  { unfold renderField. rewrite !length_app. simpl. lia. }
  cbn [length]. lia.
Qed.

Lemma paramFields_rendered fields :
  Forall (fun kv => fieldKey kv.1 = true /\ noSigil kv.2 = true) fields ->
  paramFields DEFAULT_CONFIG (renderFields fields) = trimmed fields.
Proof.
  intros H. unfold paramFields, execAll. apply fields_of_rendered; [done|].
  pose proof (renderFields_length fields). lia.
Qed.

Lemma lastValue_absent k fields :
  Forall (fun kv => kv.1 <> k) fields -> lastValue k fields = None.
Proof.
  unfold lastValue. induction 1 as [|[key v] fields Hk _ IH]; [done|].
  simpl. by rewrite (proj2 (eqs_false key k)) by done.
Qed.

Lemma lastValue_cons_other k key v fields :
  key <> k -> lastValue k ((key, v) :: fields) = lastValue k fields.
Proof.
  intros H. unfold lastValue. simpl. by rewrite (proj2 (eqs_false key k)) by done.
Qed.

(** X24. A block written as the protocol prescribes is read back.
    Let a block consist of the field [tool_name] followed by argument
    fields, each written [key:<start>value<end>,] with the default
    sigils, the keys being words other than [tool_name] and [archery]
    and no value containing U+300C.  If the trimmed name is not empty,
    [parseRequestBlock] returns a request with that trimmed name,
    [archery = false], the block as [rawText], and for every key the
    trimmed value of the last argument field with that key (the key
    [__proto__] excepted, which is never stored). *)
Theorem rendered_block_parses (n : jsstring) (arguments : list (jsstring * jsstring)) :
  noSigil n = true -> trim n <> [] ->
  Forall (fun kv => fieldKey kv.1 = true /\ noSigil kv.2 = true /\
                    kv.1 <> js "tool_name" /\ kv.1 <> js "archery") arguments ->
  exists req,
    parseRequestBlock DEFAULT_CONFIG (renderFields ((js "tool_name", n) :: arguments))
    = Some req /\
    name req = trim n /\ archery req = false /\
    rawText req = renderFields ((js "tool_name", n) :: arguments) /\
    args req !! js "__proto__" = None /\
    forall k, k <> js "__proto__" -> args req !! k = lastValue k (trimmed arguments).
Proof.
  intros Hn Hname Hargs.
  assert (Hfields : paramFields DEFAULT_CONFIG
                      (renderFields ((js "tool_name", n) :: arguments))
                    = (js "tool_name", trim n) :: trimmed arguments).
  { apply (paramFields_rendered ((js "tool_name", n) :: arguments)).
    constructor; [done|]. eapply Forall_impl; [exact Hargs|]. by intros kv (? & ? & _). }
  assert (Hno : forall k, k = js "tool_name" \/ k = js "archery" ->
                          lastValue k (trimmed arguments) = None).
  { intros k Hk. apply lastValue_absent. unfold trimmed. apply Forall_map.
    eapply Forall_impl; [exact Hargs|]. intros kv (_ & _ & H1 & H2). simpl.
    destruct Hk; congruence. }
  unfold parseRequestBlock. rewrite Hfields.
  set (fields := (js "tool_name", trim n) :: trimmed arguments).
  destruct (fold_blockStep_fields fields blockAcc0) as [Hname' Hargs'].
  assert (Hlast : lastValue (js "tool_name") fields = Some (trim n)).
  { unfold fields. change ((js "tool_name", trim n) :: trimmed arguments)
      with ([(js "tool_name", trim n)] ++ trimmed arguments).
    unfold lastValue. rewrite omap_app.
    fold (lastValue (js "tool_name") (trimmed arguments)).
    pose proof (Hno (js "tool_name") (or_introl eq_refl)) as Hnone.
    unfold lastValue in Hnone.
    destruct (omap _ (trimmed arguments)) as [|x l] eqn:E; [done|].
    exfalso. clear -Hnone. revert x Hnone. induction l as [|y l IH]; intros x H; [done|].
    by apply (IH y). }
  rewrite Hlast in Hname'. unfold finishBlock. rewrite Hname'.
  destruct (trim n) as [|c t] eqn:Et; [done|]. eexists. split; [reflexivity|].
  cbn [name archery rawText args]. split_and!; try done.
  - rewrite fold_blockStep_archery.
    unfold fields. rewrite lastValue_cons_other by done.
    by rewrite (Hno (js "archery") (or_intror eq_refl)).
  - by apply fold_blockStep_proto.
  - intros k Hk.
    destruct (decide (k = js "tool_name")) as [->|H1].
    { rewrite (Hno _ (or_introl eq_refl)). by apply fold_blockStep_reserved; [right|]. }
    destruct (decide (k = js "archery")) as [->|H2].
    { rewrite (Hno _ (or_intror eq_refl)). by apply fold_blockStep_reserved; [left|]. }
    rewrite (Hargs' k H1 H2 Hk). unfold fields.
    rewrite lastValue_cons_other by done.
    destruct (lastValue k (trimmed arguments)); [done|]. apply lookup_empty.
Qed.

Lemma rendered_block_parses_witness :
  exists req,
    parseRequestBlock DEFAULT_CONFIG
      (renderFields [(js "tool_name", js " Fetch "); (js "url", js " http://x ")])
    = Some req /\
    name req = js "Fetch" /\ args req !! js "url" = Some (js "http://x").
Proof.
  destruct (rendered_block_parses (js " Fetch ") [(js "url", js " http://x ")])
    as (req & H1 & H2 & _ & _ & _ & H6).
  - reflexivity.
  - vm_compute. discriminate.
  - repeat constructor; discriminate.
  - exists req. split; [exact H1|]. split; [exact H2|].
    rewrite H6 by discriminate. vm_compute. reflexivity.
Defined.
End ParserRoundTrip.

Section EngineDollar.
Import Engine.

Variable eng : VariableEngine.

Local Abbreviation cap := (maxRecursionDepth (options eng)).
Local Abbreviation pattern := (placeholderPattern (options eng)).

(** The replacement of the one placeholder of a text, whatever the
    value: the value goes through [getSubstitution]. *)
Lemma replaceAllLiteral_expands pre K post value :
  noBrace pre = true -> noBrace post = true ->
  replaceAllLiteral (js "{{" ++ K ++ js "}}") value
    (pre ++ js "{{" ++ K ++ js "}}" ++ post)
  = pre ++ getSubstitution (js "{{" ++ K ++ js "}}")
             (pre ++ js "{{" ++ K ++ js "}}" ++ post) (length pre) value ++ post.
Proof.
  intros Hpre Hpost. unfold replaceAllLiteral.
  generalize (pre ++ js "{{" ++ K ++ js "}}" ++ post) at 1 3. intros str.
  replace (pre ++ js "{{" ++ K ++ js "}}" ++ post)
    with (pre ++ (js "{{" ++ K ++ js "}}") ++ post) by (by rewrite <- !app_assoc).
  change (js "{{" ++ K ++ js "}}") with (123%N :: (123%N :: K ++ js "}}")).
  generalize (123%N :: K ++ js "}}"). intros tail.
  change (length pre) with (0 + length pre). generalize 0 at 2 3. intros position.
  revert position. induction pre as [|c pre IH]; intros position.
  - change ([] ++ (123%N :: tail) ++ post) with (123%N :: (tail ++ post)).
    cbn [replaceGo].
    rewrite (startsWith_app (123%N :: tail) post
             : startsWith (123%N :: tail) (123%N :: tail ++ post) = true).
    cbn [length app]. rewrite Nat.add_0_r. f_equal.
    rewrite replaceGo_skip. apply replaceGo_plain. by apply noBrace_Forall.
  - apply noBrace_cons in Hpre as [Hc Hpre]. cbn [app replaceGo].
    rewrite startsWith_other by done. f_equal.
    etransitivity; [apply (IH Hpre (S position))|].
    cbn [length]. by rewrite Nat.add_succ_r.
Qed.

(** X25. A value is not always inserted as it is.  In the setting of
    X18 but with any value [v] without a left brace, the call returns
    [pre], then [v] as [String.prototype.replace] expands it, then
    [post]: in [v] every [$$] has become [$], every [$&] the placeholder
    [{{K}}] itself, [$`] the text before the placeholder and [$'] the
    text after it. *)
Theorem dollar_patterns_expand (pre K post v : jsstring)
    (ps1 ps2 : list IVariableProvider) (p : IVariableProvider) :
  pattern = DEFAULT_PATTERN ->
  (enableRecursion (options eng) = true -> 1 < cap) ->
  K <> [] -> forallb isKeyChar K = true ->
  noBrace pre = true -> noBrace post = true -> noBrace v = true ->
  providers eng = ps1 ++ p :: ps2 -> Forall (passes K) ps1 -> resolve p K = Value v ->
  resolveAll eng (pre ++ js "{{" ++ K ++ js "}}" ++ post)
  = Some (Returned
            (pre ++ getSubstitution (js "{{" ++ K ++ js "}}")
                      (pre ++ js "{{" ++ K ++ js "}}" ++ post) (length pre) v
                 ++ post)).
Proof.
  intros Hp Hcap HK HKc Hpre Hpost Hv Hps Hps1 Hpv. unfold resolveAll.
  pose proof (replaceAllLiteral_expands pre K post v Hpre Hpost) as Hout.
  set (text := pre ++ js "{{" ++ K ++ js "}}" ++ post) in *.
  assert (Hphs : extractPlaceholders pattern text = [(K, js "{{" ++ K ++ js "}}")]).
  { rewrite Hp. by apply extractPlaceholders_one. }
  assert (Htext : exists c rest, text = c :: rest).
  { subst text. destruct pre; simpl; eauto. }
  destruct Htext as (c & rest & Htext). rewrite Htext. rewrite <- Htext.
  destruct (enableRecursion (options eng)).
  - specialize (Hcap eq_refl).
    destruct cap as [|[|fuel]] eqn:Ecap; [lia|lia|].
    rewrite (resolveRecursive_below eng)
      by (rewrite ?Ecap, ?Hphs; simpl; unfold MAX_PLACEHOLDERS; lia).
    rewrite Hphs. cbn [forPlaceholders].
    assert (Hno : setHas K [] = false).
    { unfold setHas. apply bool_decide_eq_false_2, not_elem_of_nil. }
    rewrite Hno, andb_false_r, Hps.
    rewrite tryProviders_passes by done. cbn [tryProviders]. rewrite Hpv.
    rewrite (resolveRecursive_terminal eng).
    + rewrite setDelete_setAdd_nil. cbn [forPlaceholders].
      change (mapSet (js "{{" ++ K ++ js "}}") v []) with [(js "{{" ++ K ++ js "}}", v)].
      unfold applyReplacements. cbn [fold_left]. by rewrite Hout.
    + rewrite Ecap. lia.
    + rewrite Hp. by apply extractPlaceholders_without_braces, noBrace_includes.
  - unfold resolveSingle. rewrite Hphs. cbn [fold_left]. rewrite Hps.
    rewrite firstAnswer_passes by done. cbn [firstAnswer]. rewrite Hpv.
    change (mapSet (js "{{" ++ K ++ js "}}") v []) with [(js "{{" ++ K ++ js "}}", v)].
    unfold applyReplacements. cbn [fold_left]. by rewrite Hout.
Qed.
End EngineDollar.

Section EngineDollarExample.
Import Engine.

Definition priceEngine : VariableEngine :=
  {| options := DEFAULT_OPTIONS;
     providers := [PlaceholderProvider [(js "Price", js "$& is $$5")]] |}.

Lemma dollar_patterns_expand_witness :
  resolveAll priceEngine (js "Now: " ++ js "{{" ++ js "Price" ++ js "}}" ++ js ".")
  = Some (Returned (js "Now: {{Price}} is $5.")).
Proof.
  rewrite (dollar_patterns_expand priceEngine (js "Now: ") (js "Price") (js ".")
             (js "$& is $$5") [] []
             (PlaceholderProvider [(js "Price", js "$& is $$5")])); try reflexivity.
  - intros _. vm_compute. lia.
  - discriminate.
  - constructor.
Defined.
End EngineDollarExample.

(** ** Distributed channel: sessions that share an id *)

Section ChannelSessions.
Import Channel.

Lemma settle_sockets p o st : sockets (settle p o st) = sockets st.
Proof. unfold settle. by destruct (promises st !! p) as [[]|]. Qed.

Lemma cleanup_sockets closed st m :
  sockets (map_fold (cleanupStep closed) st m) = sockets st.
Proof.
  apply (map_fold_weak_ind (fun acc _ => sockets acc = sockets st)); [done|].
  intros i x m' r _ IH. unfold cleanupStep, reject. simpl. by rewrite settle_sockets.
Qed.

Lemma forgetServer_sockets sid st : sockets (forgetServer sid st) = sockets st.
Proof.
  unfold forgetServer. destruct (distributedServers st !! sid) as [info|]; [|done].
  by destruct (tools info).
Qed.

(** A close changes no socket but the one that closed. *)
Lemma closes_other_socket st w w' :
  w' <> w -> sockets (step st (Closes w)) !! w' = sockets st !! w'.
Proof.
  intros Hne. simpl. unfold onConnectionClosed.
  set (st0 := setSockets _ st).
  assert (H0 : sockets st0 !! w' = sockets st !! w').
  { subst st0. simpl. by rewrite lookup_alter_ne. }
  destruct (sockets st0 !! w ≫= wsServerId) as [[|c sid]|]; try done.
  unfold cleanupPendingRequests. fold (cleanupStep (c :: sid)).
  by rewrite cleanup_sockets, forgetServer_sockets.
Qed.

(** The session of a socket that closes is dropped from the table. *)
Lemma closes_forgets st w sid :
  sockets st !! w ≫= wsServerId = Some sid -> sid <> [] ->
  distributedServers (step st (Closes w)) !! sid = None.
Proof.
  intros Hs Hne. simpl. unfold onConnectionClosed. simpl. rewrite lookup_alter_eq.
  destruct (sockets st !! w) as [sock|]; [|done]. simpl in *. rewrite Hs.
  destruct sid as [|c sid]; [done|].
  set (st0 := setSockets _ st).
  unfold cleanupPendingRequests. fold (cleanupStep (c :: sid)).
  destruct (cleanup_cleaned (c :: sid) (forgetServer (c :: sid) st0)
              (pendingRequests (forgetServer (c :: sid) st0)))
    as (_ & _ & _ & _ & _ & _ & -> & _).
  unfold forgetServer. destruct (distributedServers st0 !! (c :: sid)) eqn:E; [|done].
  simpl. apply lookup_delete_eq.
Qed.

(** A new connection: its socket is open, carries the session id and
    has received the acknowledgement; the session is in the table. *)
Lemma connects_socket st w instanceId now :
  let sid := generateServerId instanceId now in
  let st' := step st (Connects w instanceId now) in
  (exists frames, sockets st' !! w
                  = Some {| readyState := OPEN; wsServerId := Some sid; sent := frames |}) /\
  (forall w', w' <> w -> sockets st' !! w' = sockets st !! w') /\
  (exists info, distributedServers st' !! sid = Some info /\ ws info = w).
Proof.
  cbv zeta. simpl. unfold onConnectionEstablished.
  set (sid := generateServerId instanceId now).
  set (st1 := setSockets (alter _ w) _).
  set (st2 := setServers _ st1). set (msg := JObject _).
  assert (H2 : sockets st2 !! w
               = Some {| readyState := OPEN; wsServerId := Some sid; sent := [] |}).
  { subst st2 st1. simpl. by rewrite lookup_alter_eq, lookup_insert_eq. }
  unfold sendToClient. rewrite H2. simpl. split_and!.
  - rewrite lookup_insert_eq. by eexists.
  - intros w' Hne. rewrite lookup_insert_ne by done.
    subst st2 st1. simpl. rewrite lookup_alter_ne by done. by rewrite lookup_insert_ne.
  - rewrite lookup_insert_eq. by eexists.
Qed.

(** X26. Two sessions can share an id.  The id of a session is made of
    a digit drawn at random and the clock.  When two workers connect
    with the same draw in the same millisecond, both sockets carry the
    same id and the table of servers has one entry, for the second
    socket.  If the first socket then closes, the entry is dropped: the
    second worker's socket is still open and still carries the id, but a
    call to that id is refused with "not connected". *)
Theorem shared_session_id_is_lost (st : State) (w1 w2 : nat) (instanceId now : N)
    (toolName : jsstring) (args : JsVal) (timeoutArg : option N) (at_ : N)
    (rand : jsstring) :
  w1 <> w2 ->
  let sid := generateServerId instanceId now in
  let st2 := run [Connects w1 instanceId now; Connects w2 instanceId now] st in
  let st3 := step st2 (Closes w1) in
  (exists info, distributedServers st2 !! sid = Some info /\ ws info = w2) /\
  (exists frames, sockets st3 !! w2
                  = Some {| readyState := OPEN; wsServerId := Some sid; sent := frames |}) /\
  executeDistributedTool sid toolName args timeoutArg at_ rand st3
  = (st3, inl (JError VCPErrorClass (Some DISTRIBUTED_CONNECTION_ERROR)
                 (js "Distributed server " ++ sid ++ js " not connected")
                 [(js "serverId", JStr sid)])).
Proof.
  intros Hne. cbv zeta. unfold run. cbn [fold_left].
  set (sid := generateServerId instanceId now).
  set (st1 := step st (Connects w1 instanceId now)).
  set (st2 := step st1 (Connects w2 instanceId now)).
  destruct (connects_socket st w1 instanceId now) as ((f1 & Hw1) & _ & _).
  destruct (connects_socket st1 w2 instanceId now) as ((f2 & Hw2) & Hother & Hinfo).
  fold sid st1 in Hw1. fold sid st2 in Hw2, Hother, Hinfo.
  assert (Hw1' : sockets st2 !! w1 ≫= wsServerId = Some sid).
  { rewrite Hother by done. by rewrite Hw1. }
  assert (Hsid : sid <> []) by (subst sid; unfold generateServerId; discriminate).
  split; [exact Hinfo|]. split.
  - rewrite closes_other_socket by done. by exists f2.
  - unfold executeDistributedTool. by rewrite (closes_forgets st2 w1 sid Hw1' Hsid).
Qed.

Lemma shared_session_id_is_lost_witness :
  let st3 := step (run [Connects 0 7 1700000000000; Connects 1 7 1700000000000]
                     newChannel) (Closes 0) in
  (executeDistributedTool (js "dist-7-1700000000000") (js "Echo") (JObject []) None
     1700000000005 (js "abc") st3).2
  = inl (JError VCPErrorClass (Some DISTRIBUTED_CONNECTION_ERROR)
           (js "Distributed server dist-7-1700000000000 not connected")
           [(js "serverId", JStr (js "dist-7-1700000000000"))]).
Proof.
  cbv zeta.
  destruct (shared_session_id_is_lost newChannel 0 1 7 1700000000000 (js "Echo")
              (JObject []) None 1700000000005 (js "abc")) as (_ & _ & H); [lia|].
  cbv zeta in H.
  change (generateServerId 7 1700000000000) with (js "dist-7-1700000000000") in H.
  rewrite H. reflexivity.
Defined.
End ChannelSessions.

(** ** Variable engine: the cache of compiled placeholders *)

Module RegexCache.

(** [regexCache], a map from a placeholder to the [RegExp] built from
    it.  The value is determined by the key, so the map is given by the
    set of its keys. *)
Definition LIMIT : nat := 200.

(** [getOrCreateRegex(placeholder)]: the cache afterwards. *)
Definition getOrCreateRegex (placeholder : jsstring) (regexCache : gset jsstring)
    : gset jsstring :=
  if bool_decide (placeholder ∈ regexCache) then regexCache
  else
    let cleared := if LIMIT <? size regexCache then ∅ else regexCache in
    {[placeholder]} ∪ cleared.

End RegexCache.

Section RegexCacheFacts.
Import RegexCache.

Lemma getOrCreateRegex_size placeholder cache :
  size cache <= S LIMIT -> size (getOrCreateRegex placeholder cache) <= S LIMIT.
Proof.
  intros H. unfold getOrCreateRegex. case_bool_decide as Hin; [done|].
  destruct (LIMIT <? size cache) eqn:E.
  - rewrite union_empty_r_L, size_singleton. unfold LIMIT. lia.
  - apply Nat.ltb_ge in E. rewrite size_union by set_solver.
    rewrite size_singleton. lia.
Qed.

Lemma getOrCreateRegex_has placeholder cache :
  placeholder ∈ getOrCreateRegex placeholder cache.
Proof. unfold getOrCreateRegex. case_bool_decide; set_solver. Qed.

(** X27. The cache of compiled placeholders is bounded.  Whatever
    placeholders are asked for, one after the other, starting from the
    empty cache, the cache never holds more than 201 entries (it is
    cleared when a new entry comes while it holds more than 200), and the
    placeholder asked for last is in it. *)
Theorem regexCache_bounded (placeholders : list jsstring) :
  let regexCache := fold_left (fun cache p => getOrCreateRegex p cache) placeholders ∅ in
  size regexCache <= 201 /\
  forall p, last placeholders = Some p -> p ∈ regexCache.
Proof.
  cbv zeta. split.
  - assert (H : forall cache, size cache <= S LIMIT ->
      size (fold_left (fun cache p => getOrCreateRegex p cache) placeholders cache)
      <= S LIMIT).
    { induction placeholders as [|p ps IH]; intros cache Hc; [done|].
      simpl. apply IH. by apply getOrCreateRegex_size. }
    apply H. rewrite size_empty. lia.
  - intros p Hp. destruct placeholders as [|q ps] using rev_ind; [done|].
    rewrite last_snoc in Hp. injection Hp as ->.
    rewrite fold_left_app. simpl. apply getOrCreateRegex_has.
Qed.
End RegexCacheFacts.

(** ** Distributed channel: the tools of a session *)

Module ChannelTools.
Import Channel.

(** [t.id || t.name] for an entry of the [tools] array; the property
    access throws a [TypeError] on [null] and [undefined].  (A frame is
    parsed JSON: its values are [null], booleans, numbers, strings,
    arrays and plain objects.) *)
Definition toolName (t : JsVal) : option JsVal :=
  match t with
  | JNull | JUndefined => None
  | _ =>
      let i := getField (js "id") t in
      Some (if truthy i then i else getField (js "name") t)
  end.

(** [tools.map(t => t.id || t.name)] *)
Fixpoint toolNames (tools : list JsVal) : option (list JsVal) :=
  match tools with
  | [] => Some []
  | t :: rest =>
      match toolName t with
      | None => None
      | Some n =>
          match toolNames rest with
          | None => None
          | Some ns => Some (n :: ns)
          end
      end
  end.

(** The payload of the event [tools_registered]. *)
Record ToolsRegistered := {
  registeredServerId : jsstring;
  registeredTools : list JsVal;
  registeredServerInfo : DistributedServerInfo
}.

(** How [handleRegisterTools] ends: it returns after logging an error,
    it throws the [TypeError] of the property access, or it emits
    [tools_registered]. *)
Inductive Registration :=
| Refused
| ThrowsTypeError
| Emits (event : ToolsRegistered).

(** [handleRegisterTools(ws, serverId, message)]; [now] is the clock. *)
Definition handleRegisterTools (w : nat) (fromServer : jsstring) (message : JsVal)
    (now : N) (st : State) : State * Registration :=
  match getField (js "tools") (getField (js "data") message) with
  | JArray tools =>
      match distributedServers st !! fromServer with
      | None => (st, Refused)
      | Some serverInfo =>
          match toolNames tools with
          | None => (st, ThrowsTypeError)
          | Some names =>
              let serverInfo' := {| serverId := serverId serverInfo; ws := ws serverInfo;
                                    tools := names;
                                    serverName := serverName serverInfo;
                                    connectedAt := connectedAt serverInfo;
                                    lastActivity := now |} in
              let st1 := setServers (insert fromServer serverInfo') st in
              let st2 := sendToClient w
                           (JObject [(js "type", JStr (js "register_ack"));
                                     (js "data",
                                      JObject [(js "tools", JArray names);
                                               (js "count",
                                                JNum (Z.of_nat (length tools)))])])
                           st1 in
              (st2, Emits {| registeredServerId := fromServer;
                             registeredTools := tools;
                             registeredServerInfo := serverInfo' |})
          end
      end
  | _ => (st, Refused)
  end.

(** [getServerTools(serverId)] *)
Definition getServerTools (sid : jsstring) (st : State) : list JsVal :=
  match distributedServers st !! sid with
  | Some serverInfo => tools serverInfo
  | None => []
  end.

End ChannelTools.

Section ChannelToolsFacts.
Import Channel ChannelTools.

Lemma sendToClient_servers w message st :
  distributedServers (sendToClient w message st) = distributedServers st /\
  emitted (sendToClient w message st) = emitted st /\
  (forall sock, sockets st !! w = Some sock ->
     sockets (sendToClient w message st) !! w ≫= wsServerId = wsServerId sock).
Proof.
  unfold sendToClient. destruct (sockets st !! w) as [sock|] eqn:E.
  - destruct (readyState sock) eqn:Er; simpl; split_and!; try done;
      intros s [= <-]; rewrite ?E; try done.
    by rewrite lookup_insert_eq.
  - split_and!; try done.
Qed.

(** X28. The tools a worker registers are the tools announced as gone
    when it leaves.  Let a [register_tools] frame come from the socket of
    a session that is in the table, its [data.tools] being an array
    without [null].  Then the session's tools are replaced by the ids
    of the entries, an entry without a truthy [id] giving its [name];
    the event [tools_registered] carries the array as sent; nothing is
    emitted on the channel's own log.  When that socket closes afterwards
    the event [tools_unregistered] carries exactly those names, unless
    there are none, in which case no event is emitted, and the session is
    gone from the table. *)
Theorem registered_tools_leave_on_close (st : State) (w : nat) (sock : WebSocket)
    (sid : jsstring) (info : DistributedServerInfo) (message : JsVal)
    (entries names : list JsVal) (now : N) :
  sockets st !! w = Some sock -> wsServerId sock = Some sid -> sid <> [] ->
  distributedServers st !! sid = Some info ->
  getField (js "tools") (getField (js "data") message) = JArray entries ->
  toolNames entries = Some names ->
  let st1 := (handleRegisterTools w sid message now st).1 in
  getServerTools sid st1 = names /\
  (exists info', (handleRegisterTools w sid message now st).2
                 = Emits {| registeredServerId := sid; registeredTools := entries;
                            registeredServerInfo := info' |} /\ tools info' = names) /\
  emitted st1 = emitted st /\
  emitted (step st1 (Closes w))
  = emitted st ++ match names with
                  | [] => []
                  | _ => [tools_unregistered sid names]
                  end /\
  getServerTools sid (step st1 (Closes w)) = [].
Proof.
  intros Hw Hsid Hne Hinfo Htools Hnames. cbv zeta.
  unfold handleRegisterTools. rewrite Htools, Hinfo, Hnames. cbn [fst snd].
  set (info' := {| serverId := serverId info; ws := ws info; tools := names;
                   serverName := serverName info; connectedAt := connectedAt info;
                   lastActivity := now |}).
  set (st0 := setServers (insert sid info') st).
  set (ack := JObject _).
  destruct (sendToClient_servers w ack st0) as (Hs & He & Hsock).
  specialize (Hsock sock Hw).
  set (st1 := sendToClient w ack st0) in *.
  assert (Hlook : distributedServers st1 !! sid = Some info').
  { rewrite Hs. subst st0. simpl. apply lookup_insert_eq. }
  split_and!.
  - unfold getServerTools. by rewrite Hlook.
  - by exists info'.
  - by rewrite He.
  - simpl. unfold onConnectionClosed. simpl. rewrite lookup_alter_eq.
    destruct (sockets st1 !! w) as [sock1|] eqn:E1; [|by rewrite Hsid in Hsock].
    simpl in Hsock |- *. rewrite Hsock, Hsid.
    destruct sid as [|c sid]; [done|].
    set (stc := setSockets _ st1).
    unfold cleanupPendingRequests. fold (cleanupStep (c :: sid)).
    destruct (cleanup_cleaned (c :: sid) (forgetServer (c :: sid) stc)
                (pendingRequests (forgetServer (c :: sid) stc)))
      as (_ & _ & _ & _ & _ & -> & _).
    unfold forgetServer.
    assert (Hc : distributedServers stc !! (c :: sid) = Some info') by exact Hlook.
    rewrite Hc. cbn [tools info']. destruct names; simpl; rewrite He; [|done].
    by rewrite app_nil_r.
  - unfold getServerTools. rewrite (closes_forgets st1 w sid); [done| |done].
    destruct (sockets st1 !! w) as [sock1|] eqn:E1; [|by rewrite Hsid in Hsock].
    simpl in Hsock |- *. by rewrite Hsock.
Qed.

Definition registerFrame : JsVal :=
  JObject [(js "type", JStr (js "register_tools"));
           (js "data",
            JObject [(js "tools",
                      JArray [JObject [(js "id", JStr (js "Echo"));
                                       (js "name", JStr (js "Echo tool"))];
                              JObject [(js "name", JStr (js "Dice"))]])])].

Lemma registered_tools_leave_on_close_witness :
  let st1 := (handleRegisterTools 1 sessionB registerFrame 1700000000004 twoSessions).1 in
  getServerTools sessionB st1 = [JStr (js "Echo"); JStr (js "Dice")] /\
  emitted (step st1 (Closes 1))
  = emitted twoSessions
      ++ [tools_unregistered sessionB [JStr (js "Echo"); JStr (js "Dice")]].
Proof.
  destruct (registered_tools_leave_on_close twoSessions 1
              {| readyState := OPEN; wsServerId := Some sessionB;
                 sent := [JObject [(js "type", JStr (js "connection_ack"));
                                   (js "data", JObject [(js "serverId", JStr sessionB);
                                      (js "message", JStr (js "Connected to VCP IntelliCore"))])]] |}
              sessionB
              {| serverId := sessionB; ws := 1; tools := []; serverName := sessionB;
                 connectedAt := 1700000000001; lastActivity := 1700000000001 |}
              registerFrame
              [JObject [(js "id", JStr (js "Echo")); (js "name", JStr (js "Echo tool"))];
               JObject [(js "name", JStr (js "Dice"))]]
              [JStr (js "Echo"); JStr (js "Dice")] 1700000000004)
    as (H1 & _ & _ & H4 & _).
  - vm_compute. reflexivity.
  - reflexivity.
  - vm_compute. discriminate.
  - vm_compute. reflexivity.
  - vm_compute. reflexivity.
  - vm_compute. reflexivity.
  - cbv zeta. split; [exact H1|exact H4].
Defined.
End ChannelToolsFacts.

(** ** Distributed channel: a call and its answer *)

Section ChannelRoundTrip.
Import Channel.

(** X29. A call and its answer.  A call to a session of the table
    whose socket is open returns a new promise, which waits; one
    [execute_tool] frame with the request id, the tool name and the
    arguments has been written to that socket, after the frames it had.
    When a [tool_result] frame with that request id arrives, from
    whichever session, the promise is fulfilled with the frame's
    [result], the record is removed and the timer cleared. *)
Theorem call_then_result (st : State) (target toolName : jsstring) (args : JsVal)
    (timeoutArg : option N) (now : N) (rand : jsstring) (info : DistributedServerInfo)
    (sock : WebSocket) (fromServer : jsstring) (message : JsVal) :
  distributedServers st !! target = Some info ->
  sockets st !! ws info = Some sock -> readyState sock = OPEN ->
  frameRequestId message = JStr (generateRequestId now rand) ->
  let call := executeDistributedTool target toolName args timeoutArg now rand st in
  let answered := handleToolResult fromServer message call.1 in
  call.2 = inr (nextHandle st) /\
  promises call.1 !! nextHandle st = Some Waiting /\
  sockets call.1 !! ws info
  = Some {| readyState := OPEN; wsServerId := wsServerId sock;
            sent := sent sock ++
              [JObject [(js "type", JStr (js "execute_tool"));
                        (js "data",
                         JObject [(js "requestId", JStr (generateRequestId now rand));
                                  (js "toolName", JStr toolName);
                                  (js "toolArgs", args)])]] |} /\
  promises answered !! nextHandle st = Some (Fulfilled (frameResult message)) /\
  pendingRequests answered !! generateRequestId now rand = None /\
  timers answered !! S (nextHandle st) = None.
Proof.
  intros Hs Hw Ho Hr. cbv zeta.
  assert (Hcall : executeDistributedTool target toolName args timeoutArg now rand st
    = (sendToClient (ws info)
         (JObject [(js "type", JStr (js "execute_tool"));
                   (js "data",
                    JObject [(js "requestId", JStr (generateRequestId now rand));
                             (js "toolName", JStr toolName);
                             (js "toolArgs", args)])])
         (opened (generateRequestId now rand)
            {| cbRequestId := generateRequestId now rand; cbPromise := nextHandle st;
               cbServerId := target; cbToolName := toolName;
               cbTimeout := default DEFAULT_TIMEOUT timeoutArg |} now st),
       inr (nextHandle st))).
  { unfold executeDistributedTool. rewrite Hs, Hw. simpl. by rewrite Ho. }
  rewrite Hcall. cbn [fst snd].
  set (frame := JObject _). set (st3 := opened _ _ _ _).
  destruct (sendToClient_frame (ws info) frame st3) as (E1 & E2 & E3 & E4).
  assert (Hp : promises (sendToClient (ws info) frame st3) !! nextHandle st
               = Some Waiting).
  { rewrite E3. subst st3. unfold opened. simpl. apply lookup_insert_eq. }
  assert (Hrec : pendingRequests (sendToClient (ws info) frame st3)
                   !! generateRequestId now rand
                 = Some {| requestId := generateRequestId now rand;
                           promise := nextHandle st; timeout := S (nextHandle st);
                           createdAt := now |}).
  { rewrite E1. subst st3. unfold opened. simpl. apply lookup_insert_eq. }
  assert (Hrid : generateRequestId now rand <> [])
    by (unfold generateRequestId; discriminate).
  split; [done|]. split; [done|]. split.
  - unfold sendToClient. subst st3. unfold opened. simpl. rewrite Hw, Ho. simpl.
    by rewrite lookup_insert_eq.
  - exact (handleToolResult_resolves fromServer message _ _ _ Hr Hrid Hrec Hp).
Qed.

Definition successFrame : JsVal :=
  JObject [(js "type", JStr (js "tool_result"));
           (js "data", JObject [(js "requestId", JStr slowRequest);
                                (js "status", JStr (js "success"));
                                (js "result", JStr (js "done"))])].

Lemma call_then_result_witness :
  promises (handleToolResult sessionB successFrame oneCallOpen) !! 0
  = Some (Fulfilled (JStr (js "done"))).
Proof.
  destruct (call_then_result twoSessions sessionB (js "Slow") (JObject []) (Some 50%N)
              1700000000002 (js "k3x9a2b")
              {| serverId := sessionB; ws := 1; tools := []; serverName := sessionB;
                 connectedAt := 1700000000001; lastActivity := 1700000000001 |}
              {| readyState := OPEN; wsServerId := Some sessionB;
                 sent := [JObject [(js "type", JStr (js "connection_ack"));
                                   (js "data", JObject [(js "serverId", JStr sessionB);
                                      (js "message", JStr (js "Connected to VCP IntelliCore"))])]] |}
              sessionB successFrame) as (_ & _ & _ & H & _).
  - vm_compute. reflexivity.
  - vm_compute. reflexivity.
  - reflexivity.
  - vm_compute. reflexivity.
  - exact H.
Defined.
End ChannelRoundTrip.

(** ** Protocol parser: blocks as they are written *)

Section ParserWritten.
Import Parser.

(** A field as it stands in a block: the key, white space, a colon,
    white space, the value between the two sigils, and what follows up
    to the next field (a comma, white space, any text without a word
    character). *)
Record Field := {
  fieldName : jsstring;
  beforeColon : jsstring;
  afterColon : jsstring;
  fieldValue : jsstring;
  afterField : jsstring
}.

Definition nonWord (s : jsstring) : bool := forallb (fun c => negb (isWord c)) s.
Definition allSpace (s : jsstring) : bool := forallb isSpace s.

Definition wellWritten (f : Field) : bool :=
  fieldKey (fieldName f) && allSpace (beforeColon f) && allSpace (afterColon f)
  && noSigil (fieldValue f) && nonWord (afterField f).

Definition writeField (f : Field) : jsstring :=
  fieldName f ++ beforeColon f ++ js ":" ++ afterColon f
    ++ SIGIL_START ++ fieldValue f ++ SIGIL_END ++ afterField f.

Definition writeFields (fields : list Field) : jsstring :=
  foldr (fun f block => writeField f ++ block) [] fields.

(** A block: text without a word character, then the fields. *)
Definition writeBlock (lead : jsstring) (fields : list Field) : jsstring :=
  lead ++ writeFields fields.

(** The keys and the values as written, untrimmed. *)
Definition fieldsOf (fields : list Field) : list (jsstring * jsstring) :=
  map (fun f => (fieldName f, fieldValue f)) fields.

Lemma word_not_space c : isWord c = true -> isSpace c = false.
Proof.
  unfold isWord, isSpace. intros H. apply not_true_iff_false. intros H'.
  repeat rewrite ?orb_true_iff, ?andb_true_iff, ?N.leb_le, ?N.eqb_eq in H.
  repeat rewrite ?orb_true_iff, ?andb_true_iff, ?N.leb_le, ?N.eqb_eq in H'.
  lia.
Qed.

Lemma space_not_word c : isSpace c = true -> isWord c = false.
Proof.
  intros H. destruct (isWord c) eqn:E; [|done]. apply word_not_space in E. congruence.
Qed.

Lemma word_not_comma c : isWord c = true -> (44 =? c)%N = false.
Proof.
  unfold isWord. intros H. apply N.eqb_neq. intros <-. done.
Qed.

(** The end of a match: [\s*(?:,)?] takes white space and a comma from
    what follows the closing sigil and leaves text without a word
    character in front of the next field. *)
Lemma sep_run sep rest :
  nonWord sep = true ->
  match rest with c :: _ => isWord c = true | [] => True end ->
  exists gap, nonWord gap = true /\
    forall A (F : jsstring -> A),
      greedy isSpace
        (fun t => match (if startsWith (js ",") t
                         then Some (F (drop (length (js ",")) t)) else None) with
                  | Some a => Some a
                  | None => Some (F t)
                  end) (sep ++ rest)
      = Some (F (gap ++ rest)).
Proof.
  intros Hsep Hrest. induction sep as [|c sep IH].
  - exists []. split; [done|]. intros A F. cbn [app].
    destruct rest as [|c r]; [done|]. cbn [greedy].
    rewrite (word_not_space c Hrest). change (js ",") with [44%N]. cbn [startsWith].
    by rewrite (word_not_comma c Hrest).
  - simpl in Hsep. apply andb_true_iff in Hsep as [Hc Hsep].
    destruct (IH Hsep) as (gap & Hgap & Hrun).
    destruct (isSpace c) eqn:Es.
    + exists gap. split; [done|]. intros A F. cbn [app greedy]. rewrite Es.
      by rewrite (Hrun A F).
    + destruct (44 =? c)%N eqn:Ec.
      * exists sep. split; [done|]. intros A F. cbn [app greedy]. rewrite Es.
        change (js ",") with [44%N]. cbn [startsWith length drop]. by rewrite Ec.
      * exists (c :: sep). split; [simpl; by rewrite Hc|]. intros A F.
        cbn [app greedy]. rewrite Es.
        change (js ",") with [44%N]. cbn [startsWith]. by rewrite Ec.
Qed.

Lemma allSpace_run {A} (k : jsstring -> option A) sp rest a :
  allSpace sp = true -> k rest = Some a ->
  match rest with c :: _ => isSpace c = false | [] => True end ->
  greedy isSpace k (sp ++ rest) = Some a.
Proof. apply greedy_run. Qed.

(** One field at the start of a text is one match: its groups are the
    key and the value as written. *)
Lemma matchHere_written f rest :
  wellWritten f = true ->
  match rest with c :: _ => isWord c = true | [] => True end ->
  exists m gap,
    matchHere (paramRegex DEFAULT_CONFIG) (writeField f ++ rest) = Some m /\
    groups m = [fieldName f; fieldValue f] /\
    after m = gap ++ rest /\ nonWord gap = true.
Proof.
  destruct f as [key sp1 sp2 v sep]. unfold wellWritten, writeField.
  cbn [fieldName beforeColon afterColon fieldValue afterField].
  intros H Hrest.
  apply andb_true_iff in H as [H Hsep]. apply andb_true_iff in H as [H Hv].
  apply andb_true_iff in H as [H Hsp2]. apply andb_true_iff in H as [Hkey Hsp1].
  assert (Hne : key <> []) by (by destruct key).
  assert (Hword : forallb isWord key = true) by (by destruct key).
  destruct (sep_run sep rest Hsep Hrest) as (gap & Hgap & Hrun).
  unfold matchHere, paramRegex.
  cbn [rmatch paramStartMarker paramEndMarker DEFAULT_CONFIG].
  rewrite <- !app_assoc.
  eexists _, gap. split; [|split; [|split; [|exact Hgap]]].
  - apply plus_run; try done.
    + apply allSpace_run; [done| |reflexivity].
      rewrite startsWith_app, drop_app_length.
      apply allSpace_run; [done| |reflexivity].
      rewrite startsWith_app, drop_app_length.
      apply lazy_run.
      * eapply Forall_impl; [by apply noSigil_Forall|]. intros c Hc t. cbn beta.
        change SIGIL_END with (0x300C%N :: [0x672B%N; 0x300D%N]).
        by rewrite startsWith_other.
      * rewrite startsWith_app, drop_app_length.
        match goal with
        | |- greedy isSpace
               (fun t => match _ with Some a => Some a | None => Some (@?F t) end) _ = _ =>
            exact (Hrun _ F)
        end.
    + destruct sp1 as [|c sp1]; [reflexivity|]. simpl in Hsp1 |- *.
      apply andb_true_iff in Hsp1 as [Hc _]. by apply space_not_word.
  - cbn [groups app]. f_equal; [apply take_front|]. f_equal. apply take_front.
  - reflexivity.
Qed.

(** No match starts at a character that is not a word character. *)
Lemma matchHere_needs_word c s :
  isWord c = false -> matchHere (paramRegex DEFAULT_CONFIG) (c :: s) = None.
Proof. intros H. unfold matchHere, paramRegex. cbn [rmatch]. by rewrite H. Qed.

Lemma exec_after_gap gap rest :
  nonWord gap = true ->
  exec (paramRegex DEFAULT_CONFIG) (gap ++ rest)
  = match exec (paramRegex DEFAULT_CONFIG) rest with
    | Some (skipped, m) => Some (gap ++ skipped, m)
    | None => None
    end.
Proof.
  induction gap as [|c gap IH]; intros H.
  - simpl. by destruct (exec _ rest) as [[sk m]|].
  - simpl in H. apply andb_true_iff in H as [Hc H]. apply negb_true_iff in Hc.
    cbn [app exec]. rewrite (matchHere_needs_word c _ Hc), (IH H).
    by destruct (exec _ rest) as [[sk m]|].
Qed.

Lemma writeFields_head fields :
  forallb wellWritten fields = true ->
  match writeFields fields with c :: _ => isWord c = true | [] => True end.
Proof.
  destruct fields as [|f fields]; [done|]. simpl.
  intros [Hf _]%andb_true_iff. unfold wellWritten in Hf.
  apply andb_true_iff in Hf as [Hf _]. apply andb_true_iff in Hf as [Hf _].
  apply andb_true_iff in Hf as [Hf _]. apply andb_true_iff in Hf as [Hkey _].
  unfold writeField. destruct (fieldName f) as [|c key]; [done|]. simpl in *.
  by apply andb_true_iff in Hkey as [Hc _].
Qed.

Lemma fields_of_written fields :
  forallb wellWritten fields = true ->
  forall gap fuel, nonWord gap = true -> length fields < fuel ->
    omap (fun m => match groups m with
                   | [k; v] => Some (k, trim v)
                   | _ => None
                   end)
         (execAllFrom fuel (paramRegex DEFAULT_CONFIG) (gap ++ writeFields fields))
    = trimmed (fieldsOf fields).
Proof.
  induction fields as [|f fields IH]; intros Hok gap fuel Hgap Hfuel.
  - destruct fuel as [|fuel]; [simpl in Hfuel; lia|].
    cbn [execAllFrom writeFields foldr]. rewrite exec_after_gap by done. reflexivity.
  - destruct fuel as [|fuel]; [lia|]. simpl in Hok.
    apply andb_true_iff in Hok as [Hf Hok].
    cbn [execAllFrom writeFields foldr]. fold (writeFields fields).
    rewrite exec_after_gap by done.
    destruct (matchHere_written f (writeFields fields) Hf (writeFields_head _ Hok))
      as (m & gap' & Hm & Hg & Ha & Hgap').
    rewrite (exec_matched _ _ _ Hm). cbn [omap list_omap]. rewrite Hg, Ha.
    cbn [fieldsOf trimmed map fst snd]. f_equal.
    apply IH; try done. simpl in Hfuel. lia.
Qed.

Lemma writeFields_length fields : length fields <= length (writeFields fields).
Proof.
  induction fields as [|f fields IH]; [done|].
  cbn [writeFields foldr]. fold (writeFields fields). rewrite length_app.
  assert (1 <= length (writeField f)).
  { unfold writeField. rewrite !length_app. simpl. lia. }
  cbn [length]. lia.
Qed.

(** The fields the loop of [parseRequestBlock] sees in a block are the
    fields as written, each value trimmed. *)
Lemma paramFields_written lead fields :
  nonWord lead = true -> forallb wellWritten fields = true ->
  paramFields DEFAULT_CONFIG (writeBlock lead fields) = trimmed (fieldsOf fields).
Proof.
  intros Hlead Hok. unfold paramFields, execAll, writeBlock.
  apply fields_of_written; try done.
  rewrite length_app. pose proof (writeFields_length fields). lia.
Qed.

Lemma lastValue_trimmed k fields :
  lastValue k (trimmed fields) = trim <$> lastValue k fields.
Proof.
  induction fields as [|[key v] fields IH] using rev_ind; [done|].
  unfold trimmed in *. rewrite map_app. cbn [map fst snd].
  rewrite !lastValue_snoc. by destruct (eqs key k).
Qed.

(** The flag and the reserved key, for every accepted block, by the
    fields the loop sees. *)
Lemma archery_by_fields cfg block req :
  parseRequestBlock cfg block = Some req ->
  args req !! js "archery" = None /\
  (archery req = true <->
   exists v, lastValue (js "archery") (paramFields cfg block) = Some v /\
             (v = js "true" \/ v = js "no_reply")).
Proof.
  unfold parseRequestBlock, finishBlock.
  set (fields := paramFields cfg block).
  destruct (toolName (fold_left blockStep fields blockAcc0)) as [[|c n]|] eqn:En;
    [done| |done].
  intros [= <-]. simpl. split.
  - apply fold_blockStep_reserved; [by left|done].
  - rewrite fold_blockStep_archery. simpl.
    destruct (lastValue (js "archery") fields) as [v|]; split.
    + intros Hv. exists v. split; [done|].
      unfold archeryValue in Hv. apply orb_true_iff in Hv.
      destruct Hv as [Hv|Hv]; apply eqs_true in Hv; auto.
    + intros (v' & [= <-] & Hv). unfold archeryValue. apply orb_true_iff.
      destruct Hv as [Hv|Hv]; [left|right]; by apply eqs_true.
    + done.
    + by intros (v' & ? & _).
Qed.

(** The block of the second scenario with white space added: around
    the colon, inside the sigils and between the fields. *)
Definition spacedFields : list Field :=
  [ {| fieldName := js "tool_name"; beforeColon := []; afterColon := js " ";
       fieldValue := js " Fetch"; afterField := js " , " |};
    {| fieldName := js "url"; beforeColon := js " "; afterColon := [];
       fieldValue := js "http://x "; afterField := [44%N; 10%N] |};
    {| fieldName := js "archery"; beforeColon := js " "; afterColon := [9%N];
       fieldValue := [10%N] ++ js "no_reply "; afterField := [] |} ].

(** C7. For every block written in the form of the protocol (fields
    [key : <start>value<end>] with word keys, white space allowed around
    the colon, values without U+300C, and between the fields a comma,
    white space or any text without a word character) that
    [parseRequestBlock] accepts: the invocation's [archery] flag is true
    exactly when the block has an [archery] field and the value of the
    last one, as written between the sigils and then trimmed, is "true"
    or "no_reply"; the argument map has no entry named [archery].  For
    every accepted block whatever, under any configuration, the same
    holds of the fields the loop of the parser extracts.  And the text
    that wraps the block
    [tool_name:<Fetch>, url:<http://x>, archery:<no_reply>] in the
    request markers parses to the single invocation with name "Fetch",
    arguments {url: "http://x"} and [archery = true]. *)
Theorem C7_archery_flag :
  (forall lead fields req,
      nonWord lead = true -> forallb wellWritten fields = true ->
      parseRequestBlock DEFAULT_CONFIG (writeBlock lead fields) = Some req ->
      args req !! js "archery" = None /\
      (archery req = true <->
       exists v, lastValue (js "archery") (fieldsOf fields) = Some v /\
                 (trim v = js "true" \/ trim v = js "no_reply"))) /\
  (forall cfg block req,
      parseRequestBlock cfg block = Some req ->
      args req !! js "archery" = None /\
      (archery req = true <->
       exists v, lastValue (js "archery") (paramFields cfg block) = Some v /\
                 (v = js "true" \/ v = js "no_reply"))) /\
  parseToolRequests DEFAULT_CONFIG (wrapBlock DEFAULT_CONFIG fetchBlock)
    = Some [fetchRequest] /\
  map_to_list (args fetchRequest) = [(js "url", js "http://x")].
Proof.
  split; [|split; [exact archery_by_fields|split; vm_compute; reflexivity]].
  intros lead fields req Hlead Hok Hreq.
  destruct (archery_by_fields _ _ _ Hreq) as [Hargs Hflag]. split; [done|].
  rewrite Hflag, (paramFields_written lead fields Hlead Hok), lastValue_trimmed.
  destruct (lastValue (js "archery") (fieldsOf fields)) as [v|]; simpl; split.
  - intros (t & [= <-] & Ht). by exists v.
  - intros (v' & [= <-] & Ht). by exists (trim v).
  - by intros (t & ? & _).
  - by intros (t & ? & _).
Qed.

Lemma C7_archery_flag_witness :
  exists req,
    parseRequestBlock DEFAULT_CONFIG (writeBlock (js "  ") spacedFields) = Some req /\
    args req !! js "archery" = None /\ archery req = true.
Proof.
  destruct (parseRequestBlock DEFAULT_CONFIG (writeBlock (js "  ") spacedFields))
    as [req|] eqn:E; [|vm_compute in E; discriminate].
  exists req. split; [done|].
  destruct (proj1 C7_archery_flag (js "  ") spacedFields req eq_refl eq_refl E)
    as [Hargs Hflag].
  split; [exact Hargs|]. apply Hflag.
  exists ([10%N] ++ js "no_reply "). split; vm_compute; auto.
Defined.

(** The name and the arguments, for every accepted block, by the fields
    the loop sees. *)
Lemma name_and_args_by_fields cfg block req :
  parseRequestBlock cfg block = Some req ->
  lastValue (js "tool_name") (paramFields cfg block) = Some (name req) /\
  rawText req = block /\
  forall k, k <> js "tool_name" -> k <> js "archery" -> k <> js "__proto__" ->
            args req !! k = lastValue k (paramFields cfg block).
Proof.
  unfold parseRequestBlock, finishBlock.
  set (fields := paramFields cfg block).
  destruct (fold_blockStep_fields fields blockAcc0) as [Hn Ha].
  destruct (toolName (fold_left blockStep fields blockAcc0)) as [[|c n]|] eqn:En;
    [done| |done].
  intros [= <-]. simpl. split_and!; [|done|].
  - destruct (lastValue (js "tool_name") fields); by simplify_eq.
  - intros k H1 H2 H3. rewrite (Ha k H1 H2 H3).
    destruct (lastValue k fields); [done|]. apply lookup_empty.
Qed.

(** X23. The last field wins.  Take a block written in the form of
    the protocol (as in C7).  If it has no [tool_name] field, or the
    value of the last one, as written between the sigils and then
    trimmed, is empty, [parseRequestBlock] returns [null].  Otherwise it
    returns a request whose name is that trimmed value, whose [rawText]
    is the block, and in which an argument [k] other than [tool_name],
    [archery] and [__proto__] is present exactly when the block has a
    field [k], with the value of the last such field as written and then
    trimmed.  For every accepted block whatever, under any
    configuration, the same holds of the fields the loop of the parser
    extracts. *)
Theorem block_fields_last_wins :
  (forall lead fields,
      nonWord lead = true -> forallb wellWritten fields = true ->
      match trim <$> lastValue (js "tool_name") (fieldsOf fields) with
      | None | Some [] =>
          parseRequestBlock DEFAULT_CONFIG (writeBlock lead fields) = None
      | Some n =>
          exists req,
            parseRequestBlock DEFAULT_CONFIG (writeBlock lead fields) = Some req /\
            name req = n /\ rawText req = writeBlock lead fields /\
            forall k, k <> js "tool_name" -> k <> js "archery" -> k <> js "__proto__" ->
                      args req !! k = trim <$> lastValue k (fieldsOf fields)
      end) /\
  (forall cfg block req,
      parseRequestBlock cfg block = Some req ->
      lastValue (js "tool_name") (paramFields cfg block) = Some (name req) /\
      rawText req = block /\
      forall k, k <> js "tool_name" -> k <> js "archery" -> k <> js "__proto__" ->
                args req !! k = lastValue k (paramFields cfg block)).
Proof.
  split; [|exact name_and_args_by_fields].
  intros lead fields Hlead Hok.
  pose proof (paramFields_written lead fields Hlead Hok) as Hfields.
  destruct (parseRequestBlock DEFAULT_CONFIG (writeBlock lead fields)) as [req|] eqn:E.
  - destruct (name_and_args_by_fields _ _ _ E) as (Hn & Hraw & Ha).
    rewrite Hfields, lastValue_trimmed in Hn. rewrite Hn.
    assert (Hne : name req <> []).
    { unfold parseRequestBlock, finishBlock in E.
      destruct (toolName _) as [[|c n]|]; [done| |done]. by injection E as <-. }
    destruct (name req) as [|c n] eqn:En; [done|].
    exists req. rewrite En. split_and!; try done.
    intros k H1 H2 H3. rewrite (Ha k H1 H2 H3), Hfields. apply lastValue_trimmed.
  - unfold parseRequestBlock, finishBlock in E. rewrite Hfields in E.
    destruct (fold_blockStep_fields (trimmed (fieldsOf fields)) blockAcc0) as [Hn _].
    rewrite lastValue_trimmed in Hn.
    destruct (lastValue (js "tool_name") (fieldsOf fields)) as [n|]; simpl in *.
    + rewrite Hn in E. by destruct (trim n).
    + done.
Qed.

Lemma block_fields_last_wins_witness :
  exists req,
    parseRequestBlock DEFAULT_CONFIG (writeBlock (js "  ") spacedFields) = Some req /\
    name req = js "Fetch" /\ args req !! js "url" = Some (js "http://x").
Proof.
  pose proof (proj1 block_fields_last_wins (js "  ") spacedFields eq_refl eq_refl) as H.
  assert (E : trim <$> lastValue (js "tool_name") (fieldsOf spacedFields)
              = Some (js "Fetch")) by (vm_compute; reflexivity).
  rewrite E in H. change (js "Fetch") with (70%N :: js "etch") in H.
  destruct H as (req & Hreq & Hname & _ & Hargs).
  exists req. split; [exact Hreq|]. split; [exact Hname|].
  rewrite Hargs by discriminate. vm_compute. reflexivity.
Defined.
End ParserWritten.
